(** * Chronical: the AI story editor

    A shallow embedding of the state logic of the application:

    - [App.tsx]: the history log ([addToHistory]), the story collection
      ([saveStory], [loadStory], [newStory], [deleteStory]), the loading of
      persisted state from [localStorage] and the effects that store it, the
      completion request ([generateText]), the click handlers
      [handleContinue] and [handleClear], and the themes ([cycleTheme]);
    - [components/ProseMirrorEditor.tsx]: the editor handle over a textarea;
    - [machines/aiMachine.ts]: the XState machine [aiMachine];
    - [lib/api.ts]: [requestGrokCompletion];
    - [server/index.js]: the relay between the application and the provider.

    JavaScript strings are sequences of UTF-16 code units, [Date.now()] is an
    input of every operation that reads the clock, and React state is passed
    explicitly. *)

From Stdlib Require Import ZArith Ascii String.
From stdpp Require Import base option list strings pretty gmap.

Local Open Scope Z_scope.

(** ** JavaScript strings *)

(** A string is the list of its UTF-16 code units; [length] is the
    JavaScript [.length]. *)
Abbreviation jsstring := (list N).

(** The code units of an ASCII literal. *)
Definition js (s : string) : jsstring :=
  N_of_ascii <$> list_ascii_of_string s.

Definition LF : N := 10%N.

(** Truthiness of a string: [""] is the only falsy one. *)
Definition nonEmpty (s : jsstring) : bool :=
  match s with [] => false | _ :: _ => true end.

(** [a || b] on strings. *)
Definition orElse (a b : jsstring) : jsstring :=
  if nonEmpty a then a else b.

(** ECMAScript [WhiteSpace] and [LineTerminator] code units, the ones
    [String.prototype.trim] strips. *)
Definition isWhiteSpace (c : N) : bool :=
  ((9 <=? c) && (c <=? 13) || (c =? 32) || (c =? 160) || (c =? 5760)
   || (8192 <=? c) && (c <=? 8202) || (c =? 8232) || (c =? 8233)
   || (c =? 8239) || (c =? 8287) || (c =? 12288) || (c =? 65279))%N.

Fixpoint trimStart (s : jsstring) : jsstring :=
  match s with
  | c :: s' => if isWhiteSpace c then trimStart s' else s
  | [] => []
  end.

Definition trimEnd (s : jsstring) : jsstring :=
  reverse (trimStart (reverse s)).

(** [s.trim()] *)
Definition trim (s : jsstring) : jsstring := trimEnd (trimStart s).

(** [s.slice(0, n)] for [0 <= n]. *)
Definition slice0 {A} (n : nat) (l : list A) : list A := take n l.

(** [s.endsWith("\n")] *)
Definition endsWithLF (s : jsstring) : bool :=
  match last s with
  | Some c => (c =? LF)%N
  | None => false
  end.

(** [s.split("\n")[0]]: the text before the first line feed. *)
Fixpoint firstLine (s : jsstring) : jsstring :=
  match s with
  | c :: s' => if (c =? LF)%N then [] else c :: firstLine s'
  | [] => []
  end.

Definition CR : N := 13%N.

(** What a textarea makes of a string assigned to its [value]: every CR LF
    pair and every other CR becomes one LF. *)
Fixpoint normalizeNewlines (s : jsstring) : jsstring :=
  match s with
  | [] => []
  | c :: s1 =>
      if (c =? CR)%N then
        LF :: match s1 with
              | d :: s2 =>
                  if (d =? LF)%N then normalizeNewlines s2
                  else normalizeNewlines s1
              | [] => []
              end
      else c :: normalizeNewlines s1
  end.

(** [n.toString()] for an integer [n] (decimal; [Date.now()] stays far below
    the 1e21 where JavaScript switches to exponent notation). *)
Definition Number_toString (n : Z) : jsstring := js (pretty n).

(** ** Data model ([App.tsx]) *)

Module Story.
Record t := mk {
  id : jsstring;
  title : jsstring;
  content : jsstring;
  timestamp : Z
}.
End Story.

Inductive EntryType := user | ai.

Module HistoryEntry.
Record t := mk {
  id : jsstring;
  type : EntryType;
  content : jsstring;
  timestamp : Z
}.
End HistoryEntry.

Inductive Role := system | userRole | assistant.

Record ChatMessage := { role : Role; msgContent : jsstring }.

(** ** The history log *)

(** The entry built by [addToHistory]; the clock is read twice, once for the
    id and once for the timestamp. *)
Definition newEntry (type : EntryType) (content : jsstring) (now1 now2 : Z)
  : HistoryEntry.t :=
  {| HistoryEntry.id := Number_toString now1;
     HistoryEntry.type := type;
     HistoryEntry.content := slice0 200 content;
     HistoryEntry.timestamp := now2 |}.

(** [setHistory(prev => [entry, ...prev].slice(0, 50))] *)
Definition addToHistory (type : EntryType) (content : jsstring) (now1 now2 : Z)
    (prev : list HistoryEntry.t) : list HistoryEntry.t :=
  slice0 50 (newEntry type content now1 now2 :: prev).

(** One call of [addToHistory] with the clock values it reads. *)
Record Append := {
  app_type : EntryType;
  app_content : jsstring;
  app_now1 : Z;
  app_now2 : Z
}.

Definition entryOf (a : Append) : HistoryEntry.t :=
  newEntry (app_type a) (app_content a) (app_now1 a) (app_now2 a).

Definition append (h : list HistoryEntry.t) (a : Append) : list HistoryEntry.t :=
  addToHistory (app_type a) (app_content a) (app_now1 a) (app_now2 a) h.

(** The log after a sequence of calls, oldest call first. *)
Definition appendAll (h : list HistoryEntry.t) (calls : list Append)
  : list HistoryEntry.t :=
  foldl append h calls.

(** ** The editor handle ([ProseMirrorEditor.tsx]) *)

Module ProseMirrorEditor.

(** [textareaRef.current]: [None] is [null], [Some v] a textarea whose
    [value] reads [v]. What is assigned to [value] is read back with its
    line breaks normalized. *)
Definition TextareaRef := option jsstring.

(** [textareaRef.current?.value || ''] *)
Definition getText (ta : TextareaRef) : jsstring :=
  match ta with
  | Some v => orElse v []
  | None => []
  end.

Definition setText (text : jsstring) (ta : TextareaRef) : TextareaRef :=
  match ta with
  | Some _ => Some (normalizeNewlines text)
  | None => None
  end.

(** [currentVal && !currentVal.endsWith('\n') ? '\n' : ''] *)
Definition separator (currentVal : jsstring) : jsstring :=
  if nonEmpty currentVal && negb (endsWithLF currentVal) then [LF] else [].

Definition insertTextAtEnd (text : jsstring) (ta : TextareaRef) : TextareaRef :=
  match ta with
  | Some currentVal =>
      Some (normalizeNewlines (currentVal ++ separator currentVal ++ text))
  | None => None
  end.

Definition clear (ta : TextareaRef) : TextareaRef :=
  match ta with
  | Some _ => Some []
  | None => None
  end.

End ProseMirrorEditor.

(** [editorRef.current]: [None] while the editor is not mounted. *)
Definition EditorRef := option ProseMirrorEditor.TextareaRef.

(** [editorRef.current?.m(...)] for a method [m] that updates the textarea. *)
Definition onEditor (m : ProseMirrorEditor.TextareaRef -> ProseMirrorEditor.TextareaRef)
    (e : EditorRef) : EditorRef :=
  m <$> e.

(** [editorRef.current?.getText()]: [None] is [undefined]. *)
Definition editorText (e : EditorRef) : option jsstring :=
  ProseMirrorEditor.getText <$> e.

(** ** Thrown values and JSON values *)

(** What a [catch] clause receives: an [Error] instance (also [TypeError],
    [SyntaxError]) with its message; [null] or [undefined]; or some other
    value, one that is not an [Error] and has no [message] of its own (a
    string, a number). *)
Inductive Thrown :=
  | ErrorInstance (message : jsstring)
  | NullValue
  | OtherValue.

(** A JSON number is kept as the exact decimal [m * 10^e] that its text
    denotes; JavaScript rounds it to the nearest double. *)
#[warnings="-register-all"] Inductive JSValue :=
  | JNull
  | JBool (b : bool)
  | JNumber (m e : Z)
  | JString (s : jsstring)
  | JArray (items : list JSValue)
  | JObject (members : list (jsstring * JSValue)).

(** The result of an expression that may be [undefined]. *)
Definition JSRef := option JSValue.

(** Whether the double nearest to [m * 10^e] is zero: exactly when the
    magnitude is at most [2^-1075], half the least subnormal. *)
Definition roundsToZero (m e : Z) : bool :=
  if m =? 0 then true
  else if 0 <=? e then false
  else Z.abs m * 2 ^ 1075 <=? 10 ^ (- e).

(** JavaScript truthiness ([!v] is its negation). *)
Definition truthy (v : JSRef) : bool :=
  match v with
  | None | Some JNull => false
  | Some (JBool b) => b
  | Some (JNumber m e) => negb (roundsToZero m e)
  | Some (JString s) => nonEmpty s
  | Some (JArray _) | Some (JObject _) => true
  end.

(** Own property lookup in an object built by [JSON.parse]: of two members
    with one key the later wins. *)
Fixpoint lookupMember (key : jsstring) (members : list (jsstring * JSValue))
  : JSRef :=
  match members with
  | [] => None
  | (k, v) :: rest =>
      match lookupMember key rest with
      | Some v' => Some v'
      | None => if decide (k = key) then Some v else None
      end
  end.

(** [v.name] on a value that is neither [null] nor [undefined], for a
    property name that is not an index and not [length]: only objects carry
    such members. *)
Definition getProp (name : string) (v : JSValue) : JSRef :=
  match v with
  | JObject members => lookupMember (js name) members
  | _ => None
  end.

(** [v[i]] on a value that is neither [null] nor [undefined]. *)
Definition getIndex (i : nat) (v : JSValue) : JSRef :=
  match v with
  | JArray items => items !! i
  | JString s => (fun c => JString [c]) <$> s !! i
  | JObject members => lookupMember (js (pretty i)) members
  | _ => None
  end.

(** [r?.name] and [r?.[i]] *)
Definition optProp (name : string) (r : JSRef) : JSRef :=
  match r with
  | None | Some JNull => None
  | Some v => getProp name v
  end.

Definition optIndex (i : nat) (r : JSRef) : JSRef :=
  match r with
  | None | Some JNull => None
  | Some v => getIndex i v
  end.

(** [a ?? b] *)
Definition nullish (a : JSRef) (b : JSValue) : JSValue :=
  match a with
  | None | Some JNull => b
  | Some v => v
  end.

(** [a ?? b] where [b] may itself be [undefined]. *)
Definition nullishRef (a b : JSRef) : JSRef :=
  match a with
  | None | Some JNull => b
  | Some v => Some v
  end.

(** The message of the [TypeError] raised by reading a property of [null]
    (V8's wording). *)
Definition nullPropertyMessage (name : string) : jsstring :=
  js "Cannot read properties of null (reading '" ++ js name ++ js "')".

(** [v.name] where [v] came from [JSON.parse]: throws on [null]. *)
Definition plainProp (name : string) (v : JSValue) : Thrown + JSRef :=
  match v with
  | JNull => inl (ErrorInstance (nullPropertyMessage name))
  | _ => inr (getProp name v)
  end.

(** ** [JSON.parse] *)

Module JSON.

Definition isWS (c : N) : bool :=
  ((c =? 9) || (c =? 10) || (c =? 13) || (c =? 32))%N.

Fixpoint skipWS (s : jsstring) : jsstring :=
  match s with
  | c :: s' => if isWS c then skipWS s' else s
  | [] => []
  end.

Definition isDigit (c : N) : bool := ((48 <=? c) && (c <=? 57))%N.

Definition hexValue (c : N) : option N :=
  if isDigit c then Some (c - 48)%N
  else if ((65 <=? c) && (c <=? 70))%N then Some (c - 55)%N
  else if ((97 <=? c) && (c <=? 102))%N then Some (c - 87)%N
  else None.

Definition hex4 (a b c d : N) : option N :=
  a' ← hexValue a; b' ← hexValue b; c' ← hexValue c; d' ← hexValue d;
  Some (((a' * 16 + b') * 16 + c') * 16 + d')%N.

(** The code unit denoted by [\c] for a one-letter escape. *)
Definition simpleEscape (c : N) : option N :=
  if (c =? 34)%N then Some 34%N
  else if (c =? 92)%N then Some 92%N
  else if (c =? 47)%N then Some 47%N
  else if (c =? 98)%N then Some 8%N
  else if (c =? 102)%N then Some 12%N
  else if (c =? 110)%N then Some 10%N
  else if (c =? 114)%N then Some 13%N
  else if (c =? 116)%N then Some 9%N
  else None.

(** The rest of a string literal after its opening quote. *)
Fixpoint stringBody (s : jsstring) : option (jsstring * jsstring) :=
  match s with
  | [] => None
  | c :: s1 =>
      if (c =? 34)%N then Some ([], s1)
      else if (c =? 92)%N then
        match s1 with
        | e :: s2 =>
            if (e =? 117)%N then
              match s2 with
              | h1 :: h2 :: h3 :: h4 :: s3 =>
                  u ← hex4 h1 h2 h3 h4;
                  '(body, rest) ← stringBody s3;
                  Some (u :: body, rest)
              | _ => None
              end
            else
              u ← simpleEscape e;
              '(body, rest) ← stringBody s2;
              Some (u :: body, rest)
        | [] => None
        end
      else if (c <? 32)%N then None
      else '(body, rest) ← stringBody s1; Some (c :: body, rest)
  end.

(** The longest run of digits at the front, as a number with its length. *)
Fixpoint digits (acc : Z) (n : nat) (s : jsstring) : Z * nat * jsstring :=
  match s with
  | c :: s' =>
      if isDigit c then digits (10 * acc + Z.of_N (c - 48)) (S n) s'
      else (acc, n, s)
  | [] => (acc, n, s)
  end.

(** [s] without the code unit [c] at its front. *)
Definition startsWith (c : N) (s : jsstring) : option jsstring :=
  match s with
  | d :: t => if (d =? c)%N then Some t else None
  | [] => None
  end.

(** The fraction after the integer part [i]: the number so far and the
    count of digits after the point. *)
Definition fraction (i : Z) (s : jsstring) : option (Z * nat * jsstring) :=
  match startsWith 46 s with
  | Some r1 =>
      let '(m, fl, r2) := digits i 0 r1 in
      if (fl =? 0)%nat then None else Some (m, fl, r2)
  | None => Some (i, 0%nat, s)
  end.

(** The exponent, 0 when there is none. *)
Definition exponent (s : jsstring) : option (Z * jsstring) :=
  match s with
  | e :: r1 =>
      if ((e =? 101) || (e =? 69))%N then
        let '(neg, r2) := match startsWith 45 r1, startsWith 43 r1 with
                          | Some r, _ => (true, r)
                          | None, Some r => (false, r)
                          | None, None => (false, r1)
                          end in
        let '(x, xl, r3) := digits 0 0 r2 in
        if (xl =? 0)%nat then None else Some (if neg then - x else x, r3)
      else Some (0, s)
  | [] => Some (0, s)
  end.

(** [int frac? exp?] after the optional minus sign. *)
Definition unsignedNumber (s : jsstring) : option (Z * Z * jsstring) :=
  match s with
  | c :: s1 =>
      if isDigit c then
        let '(i, rest) := if (c =? 48)%N then (0, s1)
                          else let '(i, _, r) := digits 0 0 s in (i, r) in
        '(m, fl, rest) ← fraction i rest;
        '(x, rest) ← exponent rest;
        Some (m, x - Z.of_nat fl, rest)
      else None
  | [] => None
  end.

Definition number (s : jsstring) : option (JSValue * jsstring) :=
  match startsWith 45 s with
  | Some s1 => '(m, e, rest) ← unsignedNumber s1; Some (JNumber (- m) e, rest)
  | None => '(m, e, rest) ← unsignedNumber s; Some (JNumber m e, rest)
  end.

(** [s] without the literal [w] at its front. *)
Definition keyword (w : string) (s : jsstring) : option jsstring :=
  let k := js w in
  if decide (take (length k) s = k) then Some (drop (length k) s) else None.

Fixpoint value (fuel : nat) (s : jsstring) : option (JSValue * jsstring) :=
  match fuel with
  | O => None
  | S fuel =>
      match skipWS s with
      | [] => None
      | c :: s1 =>
          if (c =? 123)%N then
            match startsWith 125 (skipWS s1) with
            | Some rest => Some (JObject [], rest)
            | None => '(ms, rest) ← members fuel s1; Some (JObject ms, rest)
            end
          else if (c =? 91)%N then
            match startsWith 93 (skipWS s1) with
            | Some rest => Some (JArray [], rest)
            | None => '(vs, rest) ← elements fuel s1; Some (JArray vs, rest)
            end
          else if (c =? 34)%N then
            '(str, rest) ← stringBody s1; Some (JString str, rest)
          else if (c =? 116)%N then
            rest ← keyword "true" (c :: s1); Some (JBool true, rest)
          else if (c =? 102)%N then
            rest ← keyword "false" (c :: s1); Some (JBool false, rest)
          else if (c =? 110)%N then
            rest ← keyword "null" (c :: s1); Some (JNull, rest)
          else number (c :: s1)
      end
  end
with elements (fuel : nat) (s : jsstring) : option (list JSValue * jsstring) :=
  match fuel with
  | O => None
  | S fuel =>
      '(v, rest) ← value fuel s;
      match startsWith 44 (skipWS rest) with
      | Some rest' => '(vs, rest'') ← elements fuel rest'; Some (v :: vs, rest'')
      | None => rest' ← startsWith 93 (skipWS rest); Some ([v], rest')
      end
  end
with members (fuel : nat) (s : jsstring)
    : option (list (jsstring * JSValue) * jsstring) :=
  match fuel with
  | O => None
  | S fuel =>
      s1 ← startsWith 34 (skipWS s);
      '(k, rest) ← stringBody s1;
      rest1 ← startsWith 58 (skipWS rest);
      '(v, rest2) ← value fuel rest1;
      match startsWith 44 (skipWS rest2) with
      | Some rest3 => '(ms, rest4) ← members fuel rest3; Some ((k, v) :: ms, rest4)
      | None => rest3 ← startsWith 125 (skipWS rest2); Some ([(k, v)], rest3)
      end
  end.

(** Twice the length is enough fuel ([parse_fuel_enough]): a value inside
    a container costs two calls, and at least one code unit was consumed
    before it. *)
Definition parseFuel (s : jsstring) : nat := (2 * length s + 2)%nat.

(** The [SyntaxError] of [JSON.parse]; engines word it differently. *)
Definition syntaxError : Thrown :=
  ErrorInstance (js "Unexpected token in JSON").

(** [JSON.parse(s)] *)
Definition parse (s : jsstring) : Thrown + JSValue :=
  match value (parseFuel s) s with
  | Some (v, rest) =>
      match skipWS rest with
      | [] => inr v
      | _ :: _ => inl syntaxError
      end
  | None => inl syntaxError
  end.

End JSON.

(** ** [JSON.stringify] *)

Module Stringify.

Definition isHighSurrogate (c : N) : bool := ((55296 <=? c) && (c <=? 56319))%N.
Definition isLowSurrogate (c : N) : bool := ((56320 <=? c) && (c <=? 57343))%N.

Definition hexDigit (d : N) : N := (if d <? 10 then 48 + d else 87 + d)%N.

(** [\uXXXX] with lower-case digits. *)
Definition unicodeEscape (c : N) : jsstring :=
  [92; 117; hexDigit (c / 4096 mod 16); hexDigit (c / 256 mod 16);
   hexDigit (c / 16 mod 16); hexDigit (c mod 16)]%N.

(** A code unit that is not a surrogate, as it stands inside the quotes. *)
Definition escapeUnit (c : N) : jsstring :=
  if (c =? 8)%N then [92; 98]%N
  else if (c =? 9)%N then [92; 116]%N
  else if (c =? 10)%N then [92; 110]%N
  else if (c =? 12)%N then [92; 102]%N
  else if (c =? 13)%N then [92; 114]%N
  else if (c =? 34)%N then [92; 34]%N
  else if (c =? 92)%N then [92; 92]%N
  else if (c <? 32)%N then unicodeEscape c
  else [c].

(** The text between the quotes: surrogate pairs stay, a lone surrogate is
    escaped. *)
Fixpoint quoteBody (s : jsstring) : jsstring :=
  match s with
  | [] => []
  | c :: s1 =>
      if isHighSurrogate c then
        match s1 with
        | d :: s2 =>
            if isLowSurrogate d then c :: d :: quoteBody s2
            else unicodeEscape c ++ quoteBody s1
        | [] => unicodeEscape c
        end
      else if isLowSurrogate c then unicodeEscape c ++ quoteBody s1
      else escapeUnit c ++ quoteBody s1
  end.

(** [JSON.stringify(s)] for a string. *)
Definition quote (s : jsstring) : jsstring := [34%N] ++ quoteBody s ++ [34%N].

(** [, "key": ] as [JSON.stringify] writes it, without the comma. *)
Definition key (name : string) : jsstring := quote (js name) ++ [58%N].

Definition entryType (t : EntryType) : jsstring :=
  match t with
  | user => js "user"
  | ai => js "ai"
  end.

(** Members come in the order in which the object literal lists them. *)
Definition entry (e : HistoryEntry.t) : jsstring :=
  [123%N] ++ key "id" ++ quote (HistoryEntry.id e)
  ++ [44%N] ++ key "type" ++ quote (entryType (HistoryEntry.type e))
  ++ [44%N] ++ key "content" ++ quote (HistoryEntry.content e)
  ++ [44%N] ++ key "timestamp" ++ Number_toString (HistoryEntry.timestamp e)
  ++ [125%N].

Definition story (s : Story.t) : jsstring :=
  [123%N] ++ key "id" ++ quote (Story.id s)
  ++ [44%N] ++ key "title" ++ quote (Story.title s)
  ++ [44%N] ++ key "content" ++ quote (Story.content s)
  ++ [44%N] ++ key "timestamp" ++ Number_toString (Story.timestamp s)
  ++ [125%N].

Fixpoint joined (items : list jsstring) : jsstring :=
  match items with
  | [] => []
  | [x] => x
  | x :: rest => x ++ [44%N] ++ joined rest
  end.

(** [JSON.stringify(l)] for an array whose elements are written by [f]. *)
Definition array {A} (f : A -> jsstring) (l : list A) : jsstring :=
  [91%N] ++ joined (f <$> l) ++ [93%N].

End Stringify.

(** ** Application state ([App.tsx]) *)

(** [localStorage]: [store !! key] is [getItem(key)], [None] being [null]. *)
Abbreviation Storage := (gmap string jsstring).

Module Status.
Inductive t := idle | generating | success | error.
End Status.

(** The [useState] cells of [App] that carry logic, and the textarea behind
    [editorRef]. The theme is kept as the string it is stored as. *)
Record AppState := {
  theme : jsstring;
  status : Status.t;
  error : jsstring;
  stories : list Story.t;
  history : list HistoryEntry.t;
  currentStoryId : option jsstring;
  generatingText : jsstring;
  showClearConfirm : bool;
  editorRef : EditorRef
}.

Definition setTheme (x : jsstring) (st : AppState) : AppState :=
  {| theme := x; status := status st; error := error st; stories := stories st;
     history := history st; currentStoryId := currentStoryId st;
     generatingText := generatingText st;
     showClearConfirm := showClearConfirm st; editorRef := editorRef st |}.

Definition setStatus (x : Status.t) (st : AppState) : AppState :=
  {| theme := theme st; status := x; error := error st; stories := stories st;
     history := history st; currentStoryId := currentStoryId st;
     generatingText := generatingText st;
     showClearConfirm := showClearConfirm st; editorRef := editorRef st |}.

Definition setError (x : jsstring) (st : AppState) : AppState :=
  {| theme := theme st; status := status st; error := x; stories := stories st;
     history := history st; currentStoryId := currentStoryId st;
     generatingText := generatingText st;
     showClearConfirm := showClearConfirm st; editorRef := editorRef st |}.

Definition setStories (x : list Story.t) (st : AppState) : AppState :=
  {| theme := theme st; status := status st; error := error st; stories := x;
     history := history st; currentStoryId := currentStoryId st;
     generatingText := generatingText st;
     showClearConfirm := showClearConfirm st; editorRef := editorRef st |}.

(** [setHistory(f)] with an updater function. *)
Definition setHistory (f : list HistoryEntry.t -> list HistoryEntry.t)
    (st : AppState) : AppState :=
  {| theme := theme st; status := status st; error := error st;
     stories := stories st; history := f (history st);
     currentStoryId := currentStoryId st;
     generatingText := generatingText st;
     showClearConfirm := showClearConfirm st; editorRef := editorRef st |}.

Definition setCurrentStoryId (x : option jsstring) (st : AppState) : AppState :=
  {| theme := theme st; status := status st; error := error st;
     stories := stories st; history := history st; currentStoryId := x;
     generatingText := generatingText st;
     showClearConfirm := showClearConfirm st; editorRef := editorRef st |}.

Definition setGeneratingText (x : jsstring) (st : AppState) : AppState :=
  {| theme := theme st; status := status st; error := error st;
     stories := stories st; history := history st;
     currentStoryId := currentStoryId st; generatingText := x;
     showClearConfirm := showClearConfirm st; editorRef := editorRef st |}.

Definition setShowClearConfirm (x : bool) (st : AppState) : AppState :=
  {| theme := theme st; status := status st; error := error st;
     stories := stories st; history := history st;
     currentStoryId := currentStoryId st;
     generatingText := generatingText st;
     showClearConfirm := x; editorRef := editorRef st |}.

(** A method call through [editorRef.current?.]. *)
Definition withEditor
    (m : ProseMirrorEditor.TextareaRef -> ProseMirrorEditor.TextareaRef)
    (st : AppState) : AppState :=
  {| theme := theme st; status := status st; error := error st;
     stories := stories st; history := history st;
     currentStoryId := currentStoryId st;
     generatingText := generatingText st;
     showClearConfirm := showClearConfirm st;
     editorRef := onEditor m (editorRef st) |}.

(** The user edits the textarea, whose [value] then reads [text]. *)
Definition typed (text : jsstring) (st : AppState) : AppState :=
  withEditor (fun ta => const text <$> ta) st.

(** The state of the first render, with the editor mounted and empty. *)
Definition initialState : AppState :=
  {| theme := js "system"; status := Status.idle; error := [];
     stories := []; history := []; currentStoryId := None;
     generatingText := []; showClearConfirm := false;
     editorRef := Some (Some []) |}.

(** ** Loading persisted state *)

Definition asString (r : JSRef) : option jsstring :=
  match r with
  | Some (JString s) => Some s
  | _ => None
  end.

(** A number that is a safe integer: an integer of magnitude at most 2^53,
    the range in which a double holds every integer exactly. The
    timestamps of the model are such integers, as every [Date.now()] is;
    other numbers are not represented. *)
Definition asInteger (r : JSRef) : option Z :=
  match r with
  | Some (JNumber m e) =>
      z ← (if 0 <=? e then Some (m * 10 ^ e)
           else if m mod 10 ^ (- e) =? 0 then Some (m / 10 ^ (- e))
           else None);
      if Z.abs z <=? 2 ^ 53 then Some z else None
  | _ => None
  end.

Definition asEntryType (r : JSRef) : option EntryType :=
  s ← asString r;
  if decide (s = js "user") then Some user
  else if decide (s = js "ai") then Some ai
  else None.

(** The typed reading of a parsed value as a [Story]; members beyond the
    four of the interface are not represented. *)
Definition storyOfJSON (v : JSValue) : option Story.t :=
  i ← asString (getProp "id" v);
  t ← asString (getProp "title" v);
  c ← asString (getProp "content" v);
  ts ← asInteger (getProp "timestamp" v);
  Some (Story.mk i t c ts).

Definition entryOfJSON (v : JSValue) : option HistoryEntry.t :=
  i ← asString (getProp "id" v);
  ty ← asEntryType (getProp "type" v);
  c ← asString (getProp "content" v);
  ts ← asInteger (getProp "timestamp" v);
  Some (HistoryEntry.mk i ty c ts).

Definition arrayOfJSON {A} (f : JSValue -> option A) (v : JSValue)
  : option (list A) :=
  match v with
  | JArray items => mapM f items
  | _ => None
  end.

(** The outcome of the mount effect: the state it leaves, the error that
    escapes it, or a parsed value that the cell of the model cannot hold:
    one that is not of the declared type of the cell it was stored into,
    or that carries a timestamp other than a safe integer. The code
    installs such a value as it is. *)
Inductive Mount :=
  | Mounted (st : AppState)
  | Crashed (e : Thrown)
  | Untyped (key : string) (v : JSValue).

(** [const saved = localStorage.getItem(key); if (saved) set(JSON.parse(saved))] *)
Definition loadParsed {A} (key : string) (decode : JSValue -> option A)
    (set : A -> AppState -> AppState) (store : Storage) (st : AppState) : Mount :=
  match store !! key with
  | Some saved =>
      if nonEmpty saved then
        match JSON.parse saved with
        | inl e => Crashed e
        | inr v =>
            match decode v with
            | Some x => Mounted (set x st)
            | None => Untyped key v
            end
        end
      else Mounted st
  | None => Mounted st
  end.

Definition loadStories : Storage -> AppState -> Mount :=
  loadParsed "ai-stories" (arrayOfJSON storyOfJSON) setStories.

Definition loadHistory : Storage -> AppState -> Mount :=
  loadParsed "ai-history" (arrayOfJSON entryOfJSON) (fun h => setHistory (fun _ => h)).

Definition loadTheme (store : Storage) (st : AppState) : AppState :=
  match store !! "ai-theme" with
  | Some savedTheme => if nonEmpty savedTheme then setTheme savedTheme st else st
  | None => st
  end.

Definition andThen (m : Mount) (k : AppState -> Mount) : Mount :=
  match m with
  | Mounted st => k st
  | _ => m
  end.

(** The effect run once after the first render. *)
Definition mountEffect (store : Storage) (st : AppState) : Mount :=
  andThen (loadStories store st) (fun st1 =>
  andThen (loadHistory store st1) (fun st2 =>
  Mounted (loadTheme store st2))).

(** ** Saving state *)

(** The effect on [[history]]. *)
Definition persistHistory (st : AppState) (store : Storage) : Storage :=
  match history st with
  | [] => store
  | _ :: _ => <["ai-history" := Stringify.array Stringify.entry (history st)]> store
  end.

(** The effect on [[stories]]. *)
Definition persistStories (st : AppState) (store : Storage) : Storage :=
  match stories st with
  | [] => store
  | _ :: _ => <["ai-stories" := Stringify.array Stringify.story (stories st)]> store
  end.

(** The effect on [[theme]]. *)
Definition persistTheme (st : AppState) (store : Storage) : Storage :=
  <["ai-theme" := theme st]> store.

(** ** Stories *)

(** [content.split('\n')[0].slice(0, 50) || 'Untitled Story'] *)
Definition titleOf (content : jsstring) : jsstring :=
  orElse (slice0 50 (firstLine content)) (js "Untitled Story").

(** [{ ...s, content, title }] *)
Definition resave (content title : jsstring) (s : Story.t) : Story.t :=
  {| Story.id := Story.id s; Story.title := title;
     Story.content := content; Story.timestamp := Story.timestamp s |}.

(** [editorRef.current?.getText() || ''] *)
Definition editorContent (st : AppState) : jsstring :=
  match editorText (editorRef st) with
  | Some text => orElse text []
  | None => []
  end.

(** [saveStory], reading the clock for the id and for the timestamp of the
    story it may add. *)
Definition saveStory (now1 now2 : Z) (st : AppState) : AppState :=
  let content := editorContent st in
  if negb (nonEmpty (trim content)) then st
  else
    let title := titleOf content in
    let newStory := Story.mk (Number_toString now1) title content now2 in
    match currentStoryId st with
    | Some (c :: cs) =>
        let currentStoryId := c :: cs in
        setStories
          ((fun s => if decide (Story.id s = currentStoryId)
                     then resave content title s else s) <$> stories st) st
    | Some [] | None =>
        setCurrentStoryId (Some (Story.id newStory))
          (setStories (newStory :: stories st) st)
    end.

Definition loadStory (story : Story.t) (st : AppState) : AppState :=
  setCurrentStoryId (Some (Story.id story))
    (withEditor (ProseMirrorEditor.setText (Story.content story)) st).

Definition newStory (st : AppState) : AppState :=
  setCurrentStoryId None (withEditor ProseMirrorEditor.clear st).

Definition deleteStory (id : jsstring) (st : AppState) : AppState :=
  let st' := setStories (filter (fun s => Story.id s ≠ id) (stories st)) st in
  if decide (currentStoryId st = Some id) then newStory st' else st'.

(** [clearHistory]: the cell, and the stored copy. *)
Definition clearHistory (st : AppState) : AppState := setHistory (fun _ => []) st.

Definition clearHistoryStored (store : Storage) : Storage :=
  delete "ai-history" store.

(** ** The completion request *)

(** Two built-ins that word the error of a failed request: [String(v)] and
    [JSON.stringify(v)]. *)
Record Engine := {
  toStringOf : JSValue -> jsstring;
  stringifyOf : JSValue -> jsstring
}.

(** What the code reads of the [Response] of [fetch]; [json] is the outcome
    of [await response.json()]. *)
Record Response := {
  ok : bool;
  httpStatus : Z;
  statusText : jsstring;
  json : Thrown + JSValue
}.

(** The settlement of the promise of [fetch]. *)
Inductive FetchOutcome :=
  | Rejected (e : Thrown)
  | Resolved (response : Response).

(** [String(r)] for a value that was found truthy. *)
Definition stringOfRef (E : Engine) (r : JSRef) : jsstring :=
  match r with
  | Some v => toStringOf E v
  | None => js "undefined"
  end.

(** [data.choices?.[0]?.message?.content] after [data.choices] was read. *)
Definition messageContent (choices : JSRef) : JSRef :=
  optProp "content" (optProp "message" (optIndex 0 choices)).

(** [generateText] from the settlement of its [fetch] on: the value it
    returns, or what it throws. The [catch] of the function logs and
    rethrows. *)
Definition generateText (E : Engine) (outcome : FetchOutcome) : Thrown + JSValue :=
  match outcome with
  | Rejected e => inl e
  | Resolved response =>
      if negb (ok response) then
        let errorMessage :=
          js "HTTP error! status: " ++ Number_toString (httpStatus response) in
        let caught := orElse (statusText response) errorMessage in
        inl (ErrorInstance
          match json response with
          | inl _ => caught
          | inr data =>
              match plainProp "error" data with
              | inl _ => caught
              | inr err =>
                  let m := optProp "message" err in
                  if truthy m then stringOfRef E m
                  else if truthy err then stringOfRef E err
                  else stringifyOf E data
              end
          end)
      else
        match json response with
        | inl e => inl e
        | inr data =>
            match plainProp "choices" data with
            | inl e => inl e
            | inr choices =>
                let text := nullish (messageContent choices) (JString []) in
                if negb (truthy (Some text))
                then inl (ErrorInstance (js "No content returned from API"))
                else inr text
            end
        end
  end.

(** [data?.choices?.[0]] *)
Definition firstChoice (data : JSValue) : JSRef :=
  optIndex 0 (optProp "choices" (Some data)).

(** [requestGrokCompletion] of [lib/api.ts] from the settlement of its
    [fetch] on: the pair [{ raw, text }] it returns, or what it throws. *)
Definition requestGrokCompletion (E : Engine) (outcome : FetchOutcome)
  : Thrown + (JSValue * JSValue) :=
  match outcome with
  | Rejected e => inl e
  | Resolved resp =>
      if negb (ok resp) then
        let err := match json resp with
                   | inl _ => JObject []
                   | inr v => v
                   end in
        match plainProp "error" err with
        | inl e => inl e
        | inr errField =>
            let m := optProp "message" errField in
            inl (ErrorInstance
              (if truthy m then stringOfRef E m
               else js "Request failed " ++ Number_toString (httpStatus resp)))
        end
      else
        match json resp with
        | inl e => inl e
        | inr data =>
            let content :=
              nullish
                (nullishRef (optProp "content" (optProp "message" (firstChoice data)))
                   (optProp "text" (firstChoice data)))
                (JString []) in
            inr (data, content)
        end
  end.

(** ** [handleContinue] *)

(** The [catch] clause of [handleContinue]. *)
Definition catchError (err : Thrown) (st : AppState) : AppState :=
  setGeneratingText []
    (setStatus Status.error
      (setError (match err with
                 | ErrorInstance message => message
                 | NullValue | OtherValue => js "Unknown error"
                 end) st)).

(** From the click to the first [await]: the state, and the text read from
    the editor when the function suspends on the 500 ms pause ([None] when it
    has ended in its [catch]). The clock is read by [addToHistory]. *)
Definition handleContinue_start (now1 now2 : Z) (st : AppState)
  : AppState * option jsstring :=
  let st := setGeneratingText (js "Initializing AI...")
              (setError [] (setStatus Status.generating st)) in
  let currentText := default [] (editorText (editorRef st)) in
  if negb (nonEmpty (trim currentText)) then
    (catchError (ErrorInstance (js "Please write something first!")) st, None)
  else
    (setHistory (addToHistory user currentText now1 now2)
       (setGeneratingText (js "Reading your story...") st),
     Some currentText).

Definition systemPrompt : jsstring :=
  js "You are a creative writing assistant. Continue the story naturally in the same style and tone.".

(** The messages sent to the provider. *)
Definition messagesFor (currentText : jsstring) : list ChatMessage :=
  [ {| role := system; msgContent := systemPrompt |};
    {| role := userRole;
       msgContent := js "Continue this story:" ++ [LF; LF] ++ currentText |} ].

(** From the end of the pause to the [fetch] inside [generateText]: the
    state and the request that is now in flight. *)
Definition handleContinue_request (currentText : jsstring) (st : AppState)
  : AppState * list ChatMessage :=
  (setGeneratingText (js "Generating your continuation...")
     (setGeneratingText (js "AI is thinking...") st),
   messagesFor currentText).

(** The string that [currentVal + prefix + text] appends for [text]. *)
Definition asText (E : Engine) (text : JSValue) : jsstring :=
  match text with
  | JString s => s
  | _ => toStringOf E text
  end.

(** How a call of [handleContinue] ends once the request has settled: in a
    state, with the flag that tells whether the 2 s timer that resets the
    status was started; or, for a reply that is an array, in success with
    the timer started and a log that the model cannot hold: [st] is then
    the state but for the log, whose new head entry carries the array
    [content] where an entry has its string. *)
Inductive Finish :=
  | Finished (st : AppState) (timer : bool)
  | FinishedUntyped (st : AppState) (content : list JSValue).

(** From the settlement of the request to the end of the function.
    [generateText] is declared to return a string and returns whatever
    truthy value the body holds: [insertTextAtEnd] appends its string, and
    [addToHistory] then calls [content.slice(0, 200)], which an array has
    and a number, a boolean or an object has not, so that the call throws
    into the [catch] of [handleContinue]. *)
Definition handleContinue_finish (E : Engine) (outcome : FetchOutcome)
    (now1 now2 : Z) (st : AppState) : Finish :=
  match generateText E outcome with
  | inl err => Finished (catchError err st) false
  | inr generatedText =>
      let st1 :=
        withEditor (ProseMirrorEditor.insertTextAtEnd (asText E generatedText))
          (setGeneratingText (js "Adding text to editor...") st) in
      match generatedText with
      | JString text =>
          Finished
            (setGeneratingText []
               (setStatus Status.success
                  (setHistory (addToHistory ai text now1 now2) st1)))
            true
      | JArray items =>
          FinishedUntyped (setGeneratingText [] (setStatus Status.success st1))
            (slice0 200 items)
      | JNull =>
          Finished (catchError (ErrorInstance (nullPropertyMessage "slice")) st1)
            false
      | JBool _ | JNumber _ _ | JObject _ =>
          Finished
            (catchError (ErrorInstance (js "content.slice is not a function")) st1)
            false
      end
  end.

(** The same for the calls that end in a state of the model; [None] stands
    for a reply that is an array. *)
Definition handleContinue_settle (E : Engine) (outcome : FetchOutcome)
    (now1 now2 : Z) (st : AppState) : option (AppState * bool) :=
  match handleContinue_finish E outcome now1 now2 st with
  | Finished st' timer => Some (st', timer)
  | FinishedUntyped _ _ => None
  end.

(** [handleClear]; the second component tells whether the 3 s timer that
    withdraws the confirmation was started. *)
Definition handleClear (st : AppState) : AppState * bool :=
  if showClearConfirm st then
    (setCurrentStoryId None
       (setShowClearConfirm false (withEditor ProseMirrorEditor.clear st)),
     false)
  else (setShowClearConfirm true st, true).

(** ** The running application *)

(** A call of [handleContinue] that is suspended: on its 500 ms pause, or on
    the request to the provider. *)
Inductive Task :=
  | Pausing (currentText : jsstring)
  | Requesting (messages : list ChatMessage).

(** The component state together with what the event loop holds: the
    suspended calls of [handleContinue] and the pending timers started by
    [handleContinue] (2 s, then [setStatus('idle')]) and by [handleClear]
    (3 s, then [setShowClearConfirm(false)]). *)
Record World := {
  app : AppState;
  tasks : list Task;
  idleTimers : nat;
  confirmTimers : nat
}.

(** What can happen next: a click on one of the buttons or on the [i]-th
    story of the sidebar, typing in the textarea, a timer that fires, a
    request that settles. Events that read the clock carry its values. *)
Inductive Event :=
  | ClickContinue (now1 now2 : Z)
  | PauseElapsed (i : nat)
  | RequestSettled (i : nat) (outcome : FetchOutcome) (now1 now2 : Z)
  | IdleTimer
  | ClickClear
  | ConfirmTimer
  | ClickSave (now1 now2 : Z)
  | ClickStory (i : nat)
  | ClickNewStory
  | ClickDelete (i : nat)
  | ClickClearHistory
  | Typing (text : jsstring).

Definition withApp (f : AppState -> AppState) (w : World) : World :=
  {| app := f (app w); tasks := tasks w;
     idleTimers := idleTimers w; confirmTimers := confirmTimers w |}.

(** The button is rendered with [disabled={status === 'generating'}]. *)
Definition continueDisabled (st : AppState) : bool :=
  match status st with
  | Status.generating => true
  | _ => false
  end.

(** One turn of the event loop; [None] when the event cannot happen in this
    world (the button is disabled, no such story, task or timer), or when a
    reply that is an array arrives. *)
Definition step (E : Engine) (w : World) (ev : Event) : option World :=
  match ev with
  | ClickContinue now1 now2 =>
      if continueDisabled (app w) then None
      else
        let '(st, suspended) := handleContinue_start now1 now2 (app w) in
        Some {| app := st;
                tasks := tasks w ++ match suspended with
                                    | Some currentText => [Pausing currentText]
                                    | None => []
                                    end;
                idleTimers := idleTimers w; confirmTimers := confirmTimers w |}
  | PauseElapsed i =>
      match tasks w !! i with
      | Some (Pausing currentText) =>
          let '(st, messages) := handleContinue_request currentText (app w) in
          Some {| app := st; tasks := <[i := Requesting messages]> (tasks w);
                  idleTimers := idleTimers w; confirmTimers := confirmTimers w |}
      | _ => None
      end
  | RequestSettled i outcome now1 now2 =>
      match tasks w !! i with
      | Some (Requesting _) =>
          '(st, timer) ← handleContinue_settle E outcome now1 now2 (app w);
          Some {| app := st; tasks := delete i (tasks w);
                  idleTimers := (if timer : bool then S (idleTimers w)
                                 else idleTimers w);
                  confirmTimers := confirmTimers w |}
      | _ => None
      end
  | IdleTimer =>
      match idleTimers w with
      | S n => Some {| app := setStatus Status.idle (app w); tasks := tasks w;
                       idleTimers := n; confirmTimers := confirmTimers w |}
      | O => None
      end
  | ClickClear =>
      let '(st, timer) := handleClear (app w) in
      Some {| app := st; tasks := tasks w; idleTimers := idleTimers w;
              confirmTimers := (if timer : bool then S (confirmTimers w)
                                else confirmTimers w) |}
  | ConfirmTimer =>
      match confirmTimers w with
      | S n => Some {| app := setShowClearConfirm false (app w); tasks := tasks w;
                       idleTimers := idleTimers w; confirmTimers := n |}
      | O => None
      end
  | ClickSave now1 now2 => Some (withApp (saveStory now1 now2) w)
  | ClickStory i =>
      story ← stories (app w) !! i; Some (withApp (loadStory story) w)
  | ClickNewStory => Some (withApp newStory w)
  | ClickDelete i =>
      story ← stories (app w) !! i;
      Some (withApp (deleteStory (Story.id story)) w)
  | ClickClearHistory => Some (withApp clearHistory w)
  | Typing text => Some (withApp (typed text) w)
  end.

(** A sequence of events, [None] as soon as one of them cannot happen. *)
Fixpoint run (E : Engine) (w : World) (evs : list Event) : option World :=
  match evs with
  | [] => Some w
  | ev :: evs' => w' ← step E w ev; run E w' evs'
  end.

(** The requests to the provider that have been sent and not yet settled. *)
Definition inFlight (w : World) : list (list ChatMessage) :=
  omap (fun t => match t with
                 | Requesting messages => Some messages
                 | Pausing _ => None
                 end) (tasks w).

(** The world once the mount effect has run on a store it could read. *)
Definition started (st : AppState) : World :=
  {| app := st; tasks := []; idleTimers := 0; confirmTimers := 0 |}.

(** [handleContinue] from the click to its end when nothing else happens in
    between; the clock is read by the first and by the second
    [addToHistory]. *)
Definition handleContinue (E : Engine) (outcome : FetchOutcome)
    (now1 now2 now3 now4 : Z) (st : AppState) : option AppState :=
  match handleContinue_start now1 now2 st with
  | (st1, None) => Some st1
  | (st1, Some currentText) =>
      fst <$> handleContinue_settle E outcome now3 now4
                (handleContinue_request currentText st1).1
  end.

(** ** The state machine ([aiMachine.ts]) *)

Module aiMachine.

Inductive StateValue := idle | generating | success | failure.

Record Context := {
  error : option jsstring;
  lastGenerated : option jsstring
}.

Record GrokInput := { text : jsstring }.

Record GrokResponse := { generatedText : jsstring }.

(** The four events of the machine and the two that the invoked actor
    [callGrok] sends back when its promise settles. *)
Inductive Events :=
  | GENERATE (prompt : option jsstring)
  | CONTINUE
  | RETRY
  | CANCEL
  | done_callGrok (output : GrokResponse)
  | error_callGrok (error : Thrown).

(** A snapshot of the actor: the state value, the context and the invoked
    actors of the state, each with the input it was started on. *)
Record Snapshot := {
  value : StateValue;
  context : Context;
  children : list GrokInput
}.

Definition initial : Snapshot :=
  {| value := idle;
     context := {| error := None; lastGenerated := None |};
     children := [] |}.

(** Entering [generating]: the entry action, then the invocation with
    [{ text: context.lastGenerated || '' }]. *)
Definition enterGenerating (ctx : Context) : Snapshot :=
  let ctx' := {| error := None; lastGenerated := lastGenerated ctx |} in
  {| value := generating;
     context := ctx';
     children := [ {| text := orElse (default [] (lastGenerated ctx')) [] |} ] |}.

(** [(event.error as Error).message || 'Unknown error']; [None] when
    [event.error] is [null] or [undefined], of which reading [message]
    throws a [TypeError]. *)
Definition errorMessage (err : Thrown) : option jsstring :=
  match err with
  | ErrorInstance message => Some (orElse message (js "Unknown error"))
  | NullValue => None
  | OtherValue => Some (js "Unknown error")
  end.

(** One macrostep. An event for which the current state has no transition
    is dropped; leaving [generating] stops the invoked actor. When the
    action of [onError] throws, the transition is not taken: the snapshot
    keeps its state value, its context and its actor. *)
Definition transition (s : Snapshot) (ev : Events) : Snapshot :=
  match value s, ev with
  | idle, GENERATE _ => enterGenerating (context s)
  | generating, done_callGrok output =>
      {| value := success;
         context := {| error := error (context s);
                       lastGenerated := Some (generatedText output) |};
         children := [] |}
  | generating, error_callGrok err =>
      match errorMessage err with
      | Some message =>
          {| value := failure;
             context := {| error := Some message;
                           lastGenerated := lastGenerated (context s) |};
             children := [] |}
      | None => s
      end
  | success, CONTINUE =>
      {| value := idle; context := context s; children := children s |}
  | failure, RETRY => enterGenerating (context s)
  | failure, CANCEL =>
      {| value := idle; context := context s; children := children s |}
  | _, _ => s
  end.

(** The snapshot after a sequence of events. *)
Definition after (evs : list Events) : Snapshot := foldl transition initial evs.

(** The actor registered under [callGrok] by [setup]: it rejects. *)
Definition callGrok (input : GrokInput) : Thrown + GrokResponse :=
  inl (ErrorInstance (js "Not implemented")).

End aiMachine.

(** ** Themes ([App.tsx]) *)

Definition themes : list jsstring := [js "light"; js "dark"; js "system"].

(** [l.indexOf(x)], searching from position [i] on: [-1] when [x] is not
    found. *)
Fixpoint indexOfFrom (i : Z) (x : jsstring) (l : list jsstring) : Z :=
  match l with
  | [] => -1
  | y :: l' => if decide (y = x) then i else indexOfFrom (i + 1) x l'
  end.

Definition indexOf (x : jsstring) (l : list jsstring) : Z := indexOfFrom 0 x l.

(** [themes[(currentIndex + 1) % themes.length]]; [None] is [undefined]. *)
Definition nextTheme (theme : jsstring) : option jsstring :=
  let currentIndex := indexOf theme themes in
  let i := Z.rem (currentIndex + 1) (Z.of_nat (length themes)) in
  if i <? 0 then None else themes !! Z.to_nat i.

(** [cycleTheme]; [None] stands for [setTheme(undefined)]. *)
Definition cycleTheme (st : AppState) : option AppState :=
  next ← nextTheme (theme st); Some (setTheme next st).

(** [updateTheme] of the effect on [[theme]]: the value it gives to
    [setEffectiveTheme], where [isDark] is what the media query
    [(prefers-color-scheme: dark)] reports. *)
Definition updateTheme (isDark : bool) (theme : jsstring) : jsstring :=
  if decide (theme = js "system")
  then (if isDark then js "dark" else js "light")
  else theme.

(** Whether that effect subscribes to changes of the media query. *)
Definition listensToSystem (theme : jsstring) : bool :=
  bool_decide (theme = js "system").

(** [const bg = effectiveTheme === 'dark' ? '#0a0a0a' : '#f9fafb'] *)
Definition bg (effectiveTheme : jsstring) : jsstring :=
  if decide (effectiveTheme = js "dark") then js "#0a0a0a" else js "#f9fafb".

(** The theme that follows in the cycle; light follows what is none of the
    three. *)
Definition themeAfter (theme : jsstring) : jsstring :=
  if decide (theme = js "light") then js "dark"
  else if decide (theme = js "dark") then js "system"
  else js "light".

(** ** The relay ([server/index.js]) *)

Module Server.

(** What the handler sends back: [res.status(code).json(body)]. *)
Record Reply := { code : Z; body : JSValue }.

(** The body of the request to the provider, built from the body of the
    request to the relay; [JSON.stringify] leaves [messages] out when that
    body has none. *)
Definition completionRequest (reqBody : JSValue) : JSValue :=
  JObject ([(js "model", JString (js "llama-3.3-70b-versatile"))]
           ++ match getProp "messages" reqBody with
              | Some messages => [(js "messages", messages)]
              | None => []
              end
           ++ [(js "max_tokens", JNumber 512 0);
               (js "temperature", JNumber 7 (-1))]).

(** The [catch] of the handler, for a thrown [Error]; what follows for
    another thrown value is not represented. *)
Definition proxyError (err : Thrown) : option Reply :=
  match err with
  | ErrorInstance message =>
      Some {| code := 500;
              body := JObject [(js "error", JString (js "proxy error"));
                               (js "details", JString message)] |}
  | NullValue | OtherValue => None
  end.

(** The handler of [POST /api/grok] from the settlement of its [fetch]
    on. *)
Definition respond (outcome : FetchOutcome) : option Reply :=
  match outcome with
  | Rejected err => proxyError err
  | Resolved r =>
      match json r with
      | inl err => proxyError err
      | inr data =>
          if negb (ok r) then Some {| code := httpStatus r; body := data |}
          else Some {| code := 200; body := data |}
      end
  end.

End Server.

(** [response.ok]: the status is one from 200 to 299. *)
Definition okStatus (status : Z) : bool := (200 <=? status) && (status <=? 299).

(** The response that [fetch] builds in the browser from a reply of the
    relay: its status and, as JSON, its body. *)
Definition received (statusText : jsstring) (reply : Server.Reply) : Response :=
  {| ok := okStatus (Server.code reply);
     httpStatus := Server.code reply;
     statusText := statusText;
     json := inr (Server.body reply) |}.

(** ** Specification predicates *)

(** A step into a JSON value: a member of an object or an element. *)
Inductive Access :=
  | Member (name : string)
  | Item (i : nat).

(** The value found by following [path] from [v]; nothing is found past a
    missing member or through [null]. *)
Fixpoint valueAt (path : list Access) (v : JSValue) : JSRef :=
  match path with
  | [] => Some v
  | acc :: path' =>
      match v with
      | JNull => None
      | _ =>
          v' ← match acc with
               | Member name => getProp name v
               | Item i => getIndex i v
               end;
          valueAt path' v'
      end
  end.

(** Where the reply text of a chat completion sits. *)
Definition replyPath : list Access :=
  [Member "choices"; Item 0; Member "message"; Member "content"].


(** [st'] has the stories of [st] in the same order, each with the id and
    the timestamp it had, and those whose id is not [cid] entirely as they
    were. *)
Definition savedInPlace (cid : jsstring) (st st' : AppState) : Prop :=
  length (stories st') = length (stories st)
  ∧ ∀ i s, stories st !! i = Some s →
      ∃ s', stories st' !! i = Some s'
            ∧ Story.id s' = Story.id s
            ∧ Story.timestamp s' = Story.timestamp s
            ∧ (Story.id s ≠ cid → s' = s).

(** The story that [saveStory] builds from the editor and the clock. *)
Definition storyFromEditor (now1 now2 : Z) (st : AppState) : Story.t :=
  Story.mk (Number_toString now1) (titleOf (editorContent st))
    (editorContent st) now2.

(** The current id, when there is one, is the id of a story of the
    collection. *)
Definition currentKnown (st : AppState) : Prop :=
  match currentStoryId st with
  | None => True
  | Some cid => ∃ s, s ∈ stories st ∧ Story.id s = cid
  end.

(** At most one call of [handleContinue] is suspended, and only while the
    status is [generating]. *)
Definition oneAtATime (w : World) : Prop :=
  (length (tasks w) ≤ 1)%nat
  ∧ (tasks w ≠ [] → status (app w) = Status.generating).

(** What holds of every snapshot the machine reaches: an invoked actor runs
    exactly while the state is [generating], and the error is [null] in
    [generating] and [success] and set in [failure]. *)
Definition machineInvariant (s : aiMachine.Snapshot) : Prop :=
  match aiMachine.value s with
  | aiMachine.idle => aiMachine.children s = []
  | aiMachine.generating =>
      aiMachine.error (aiMachine.context s) = None
      ∧ length (aiMachine.children s) = 1%nat
  | aiMachine.success =>
      aiMachine.error (aiMachine.context s) = None
      ∧ aiMachine.children s = []
  | aiMachine.failure =>
      aiMachine.error (aiMachine.context s) ≠ None
      ∧ aiMachine.children s = []
  end.

(** What [stringBody] does with one more unit in front. *)
Definition consBody (c : N) (r : option (jsstring * jsstring))
  : option (jsstring * jsstring) :=
  '(body, rest) ← r; Some (c :: body, rest).

(** One member [name: text] of an object, as [JSON.stringify] writes it. *)
Definition memberText (name : string) (text : jsstring) : jsstring :=
  34%N :: js name ++ 34%N :: 58%N :: text.

(** The value that [JSON.parse] builds for an entry written by
    [JSON.stringify]. *)
Definition entryJSON (e : HistoryEntry.t) : JSValue :=
  JObject [(js "id", JString (HistoryEntry.id e));
           (js "type", JString (Stringify.entryType (HistoryEntry.type e)));
           (js "content", JString (HistoryEntry.content e));
           (js "timestamp", JNumber (HistoryEntry.timestamp e) 0)].

(** The value that [JSON.parse] builds for a story written by
    [JSON.stringify]. *)
Definition storyJSON (s : Story.t) : JSValue :=
  JObject [(js "id", JString (Story.id s));
           (js "title", JString (Story.title s));
           (js "content", JString (Story.content s));
           (js "timestamp", JNumber (Story.timestamp s) 0)].

(** A timestamp that a double holds exactly, as every [Date.now()] is. *)
Definition safeInteger (z : Z) : Prop := Z.abs z ≤ 2 ^ 53.

(** A story as [saveStory] leaves it: an id that is not empty, a content
    that is not blank and the title cut from that content. *)
Definition wellFormed (s : Story.t) : Prop :=
  Story.id s ≠ []
  ∧ trim (Story.content s) ≠ []
  ∧ Story.title s = titleOf (Story.content s).

(** The editor is mounted over its textarea. *)
Definition editorMounted (st : AppState) : Prop :=
  ∃ v, editorRef st = Some (Some v).

(** Where an error body carries its message, and where a completion in the
    older format carries its text. *)
Definition errorPath : list Access := [Member "error"; Member "message"].

Definition textPath : list Access := [Member "choices"; Item 0; Member "text"].

(** [String(s)] is [s] for a string. *)
Definition stringsAsTheyAre (E : Engine) : Prop :=
  ∀ s, toStringOf E (JString s) = s.

(** What [generateText] and [requestGrokCompletion] fall back on when the
    body of a failed response tells nothing. *)
Definition httpErrorMessage (response : Response) : jsstring :=
  orElse (statusText response)
    (js "HTTP error! status: " ++ Number_toString (httpStatus response)).

Definition requestFailedMessage (response : Response) : jsstring :=
  js "Request failed " ++ Number_toString (httpStatus response).

(** The body that a caller posts to the relay: [{ messages }] from
    [generateText], [{ messages, model }] from [requestGrokCompletion]. *)
Definition postedBody (messages : JSValue) (model : option jsstring) : JSValue :=
  JObject ([(js "messages", messages)]
           ++ match model with
              | Some m => [(js "model", JString m)]
              | None => []
              end).

(** An event with the prompt of a GENERATE left out. *)
Definition erasePrompt (ev : aiMachine.Events) : aiMachine.Events :=
  match ev with
  | aiMachine.GENERATE _ => aiMachine.GENERATE None
  | _ => ev
  end.

(** The four events that the application sends, as opposed to the two that
    come from the invoked actor. *)
Definition isUserEvent (ev : aiMachine.Events) : bool :=
  match ev with
  | aiMachine.GENERATE _ | aiMachine.CONTINUE | aiMachine.RETRY
  | aiMachine.CANCEL => true
  | aiMachine.done_callGrok _ | aiMachine.error_callGrok _ => false
  end.

(** The event by which an actor reports how its promise settled. *)
Definition settled (r : Thrown + aiMachine.GrokResponse) : aiMachine.Events :=
  match r with
  | inl e => aiMachine.error_callGrok e
  | inr output => aiMachine.done_callGrok output
  end.

(** An event that is the application's, or the report of a run of
    [actor]. *)
Definition fromActor (actor : aiMachine.GrokInput → Thrown + aiMachine.GrokResponse)
    (ev : aiMachine.Events) : Prop :=
  isUserEvent ev = true ∨ ∃ input, ev = settled (actor input).

(** What holds of every snapshot the machine reaches when its actor is the
    one registered by [setup]. *)
Definition neverGenerated (s : aiMachine.Snapshot) : Prop :=
  aiMachine.value s ≠ aiMachine.success
  ∧ aiMachine.lastGenerated (aiMachine.context s) = None
  ∧ (aiMachine.value s = aiMachine.failure →
     aiMachine.error (aiMachine.context s) = Some (js "Not implemented")).

(** The invoked actors of a snapshot, as the context determines them. *)
Definition actorsOf (s : aiMachine.Snapshot) : list aiMachine.GrokInput :=
  match aiMachine.value s with
  | aiMachine.generating =>
      [ {| aiMachine.text :=
             default [] (aiMachine.lastGenerated (aiMachine.context s)) |} ]
  | _ => []
  end.

(** An entry as [addToHistory] leaves it: at most 200 code units. *)
Definition shortEntry (e : HistoryEntry.t) : Prop :=
  (length (HistoryEntry.content e) ≤ 200)%nat.

(** The log keeps to its bounds. *)
Definition boundedLog (n : nat) (st : AppState) : Prop :=
  (length (history st) ≤ n)%nat ∧ Forall shortEntry (history st).

(** The values of the clock at which the user clicked Save. *)
Definition saveClocks (evs : list Event) : list Z :=
  omap (fun ev => match ev with
                  | ClickSave now1 _ => Some now1
                  | _ => None
                  end) evs.

(** The ids of the collection are distinct and were minted at clock values
    of [used]. *)
Definition mintedAt (used : list Z) (st : AppState) : Prop :=
  NoDup (Story.id <$> stories st)
  ∧ ∀ s, s ∈ stories st → ∃ t, t ∈ used ∧ Story.id s = Number_toString t.

(** ** Example data *)

(** An engine for the examples below, none of which reaches the two
    built-ins on a value where their exact output would matter. *)
Definition exampleEngine : Engine :=
  {| toStringOf := fun v => match v with
                            | JString s => s
                            | _ => js "[object Object]"
                            end;
     stringifyOf := fun _ => js "{}" |}.

(** A success response whose [choices] is empty. *)
Definition emptyChoicesResponse : Response :=
  {| ok := true; httpStatus := 200; statusText := js "OK";
     json := inr (JObject [(js "choices", JArray [])]) |}.


(** A success response that carries [text] as the content of its first
    choice. *)
Definition replyResponse (text : jsstring) : Response :=
  {| ok := true; httpStatus := 200; statusText := js "OK";
     json := inr (JObject
       [(js "choices",
         JArray [JObject [(js "message",
                           JObject [(js "role", JString (js "assistant"));
                                    (js "content", JString text)])]])]) |}.

(** A reply in two lines, with the line break that Windows writes. *)
Definition crReply : jsstring := js "the hero" ++ [CR; LF] ++ js "arrived.".

(** A state with one story, which is the current one, and new text in the
    editor. *)
Definition resaveState : AppState :=
  setCurrentStoryId (Some (js "17"))
    (setStories [Story.mk (js "17") (js "Old") (js "Old") 7;
                 Story.mk (js "18") (js "Other") (js "Other") 8]
       (typed (js "Chapter One") initialState)).

(** A state whose only story, and current one, has the empty string for
    id. *)
Definition emptyIdState : AppState :=
  setCurrentStoryId (Some [])
    (setStories [Story.mk [] (js "Old") (js "Old") 7]
       (typed (js "Chapter One") initialState)).

(** A store that holds that story alone, and the user opening it and
    typing. *)
Definition emptyIdStore : Storage :=
  {["ai-stories" :=
      Stringify.array Stringify.story [Story.mk [] (js "Old") (js "Old") 7]]}.

Definition openAndType : list Event := [ClickStory 0; Typing (js "Chapter One")].

(** The save of a first chapter, then of its revision. *)
Definition chapterOne : jsstring := js "Chapter One" ++ [LF] ++ js "It was raining.".

Definition chapterOneRevised : jsstring :=
  js "Chapter One" ++ [LF] ++ js "It was pouring.".

(** A first chapter typed and saved, then revised in the editor. *)
Definition revising : list Event :=
  [Typing chapterOne; ClickSave 1000 1001; Typing chapterOneRevised].

(** 51 calls of [addToHistory], the [i]-th at time [i] with the decimal of
    [i] for content. *)
Definition numberedCalls : list Append :=
  (fun i => {| app_type := user; app_content := Number_toString i;
               app_now1 := i; app_now2 := i |}) <$> seqZ 0 51.

(** A log of two entries and the store that holds it. *)
Definition exampleLog : list HistoryEntry.t :=
  [newEntry ai (js "the hero arrived.") 1700000000500 1700000000501;
   newEntry user (js "Once upon a time") 1700000000000 1700000000000].

Definition exampleStore : Storage :=
  persistHistory (setHistory (fun _ => exampleLog) initialState) ∅.

(** A store whose history is not JSON. *)
Definition corruptStore : Storage := {["ai-history" := js "{oops"]}.

(** A failed generation that the user cancels. *)
Definition cancelledRun : list aiMachine.Events :=
  [aiMachine.GENERATE None;
   aiMachine.error_callGrok (ErrorInstance (js "Not implemented"));
   aiMachine.CANCEL].

(** The application with a story begun in the editor. *)
Definition writing : World :=
  started (typed (js "Once upon a time") initialState).

(** A generation that succeeds, a second one started a second later, the 2 s
    timer of the first firing while the second request is out, and a third
    click. The clock values are milliseconds on one time line: the first
    reply arrives at 2000, so its timer is due at 4000; the second click is
    at 3000 and its request leaves at 3500; the third click is at 4100 and
    its request leaves at 4600. *)
Definition staleTimerRun : list Event :=
  [ClickContinue 1000 1000;
   PauseElapsed 0;
   RequestSettled 0 (Resolved (replyResponse (js "the hero arrived."))) 2000 2000;
   ClickContinue 3000 3000;
   PauseElapsed 0;
   IdleTimer;
   ClickContinue 4100 4100;
   PauseElapsed 1].

(** A store in which the theme is none of the three. *)
Definition blueStore : Storage := {["ai-theme" := js "blue"]}.

(** A session with one saved story, which is the current one, one entry in
    the log and the dark theme. *)
Definition oneStorySession : AppState :=
  setTheme (js "dark")
    (setHistory (fun _ => [newEntry user (js "Once upon a time") 1000 1001])
       (saveStory 2000 2001 (typed (js "Once upon a time") initialState))).

(** A first story typed and saved, then revised and saved again. *)
Definition twoSaves : list Event :=
  [Typing chapterOne; ClickSave 1000 1001;
   Typing chapterOneRevised; ClickSave 2000 2001].

(** A failed response of the relay, and one whose body is not JSON. *)
Definition rateLimited : Response :=
  {| ok := false; httpStatus := 429; statusText := js "Too Many Requests";
     json := inr (JObject [(js "error",
                            JObject [(js "message", JString (js "Rate limit reached"));
                                     (js "type", JString (js "tokens"))])]) |}.

Definition badGateway : Response :=
  {| ok := false; httpStatus := 502; statusText := js "Bad Gateway";
     json := inl JSON.syntaxError |}.

(** A completion in the older format: the text sits at [choices[0].text]. *)
Definition legacyResponse (text : jsstring) : Response :=
  {| ok := true; httpStatus := 200; statusText := js "OK";
     json := inr (JObject [(js "choices",
                            JArray [JObject [(js "text", JString text)]])]) |}.

(** A generation that succeeds and one that is refused for a blank editor. *)
Definition generateTwice : list Event :=
  [ClickContinue 1000 1001;
   PauseElapsed 0;
   RequestSettled 0 (Resolved (replyResponse (js "the hero arrived."))) 2000 2001;
   IdleTimer;
   Typing (js "  ");
   ClickContinue 3000 3001].

(** Typing goes on while [handleContinue] pauses. *)
Definition typeWhilePausing : list jsstring :=
  [js "Once upon a time,"; js "Once upon a time, in a"].

(** Two stories written one after the other, then the first one deleted. *)
Definition twoStories : list Event :=
  [Typing chapterOne; ClickSave 1000 1001;
   ClickNewStory;
   Typing (js "Another tale"); ClickSave 2000 2001;
   ClickDelete 1].

(** * Properties *)

(** ** Strings *)

Lemma nonEmpty_false (s : jsstring) : nonEmpty s = false ↔ s = [].
Proof. destruct s; simpl; split; congruence. Qed.

Lemma orElse_nil_r (s : jsstring) : orElse s [] = s.
Proof. by destruct s. Qed.

Lemma trimStart_blank (s : jsstring) :
  Forall (fun c => isWhiteSpace c = true) s → trimStart s = [].
Proof.
  induction 1 as [|c s Hc _ IH]; simpl; [done|]. by rewrite Hc.
Qed.

Lemma trimStart_nil_blank (s : jsstring) :
  trimStart s = [] → Forall (fun c => isWhiteSpace c = true) s.
Proof.
  induction s as [|c s IH]; simpl; [constructor|].
  destruct (isWhiteSpace c) eqn:Hc; [|done].
  intros Hs. constructor; auto.
Qed.

Lemma trimStart_head (s : jsstring) (c : N) (t : jsstring) :
  trimStart s = c :: t → isWhiteSpace c = false.
Proof.
  induction s as [|d s IH]; simpl; [done|].
  destruct (isWhiteSpace d) eqn:Hd; [done|]. by intros [= <- _].
Qed.

(** [s.trim()] is empty exactly when [s] is empty or holds white space
    only. *)
Lemma trim_blank (s : jsstring) :
  trim s = [] ↔ Forall (fun c => isWhiteSpace c = true) s.
Proof.
  unfold trim, trimEnd. split.
  - intros H. apply trimStart_nil_blank.
    apply (f_equal reverse) in H. rewrite reverse_involutive in H.
    apply trimStart_nil_blank, Forall_reverse in H.
    rewrite reverse_involutive in H.
    destruct (trimStart s) as [|c t] eqn:Hs; [done|].
    apply trimStart_head in Hs. inversion H; congruence.
  - intros H. by rewrite (trimStart_blank _ H).
Qed.

Lemma list_pair_ind {A} (P : list A → Prop) :
  P [] → (∀ x, P [x]) → (∀ x y l, P l → P (y :: l) → P (x :: y :: l)) →
  ∀ l, P l.
Proof.
  intros H0 H1 H2 l. cut (P l ∧ ∀ x, P (x :: l)); [by intros []|].
  induction l as [|y l [IH1 IH2]]; [by split|]. split; [done|].
  intros x. by apply H2.
Qed.

(** *** Line breaks of a textarea *)

Lemma normalizeNewlines_unfold (c : N) (s1 : jsstring) :
  normalizeNewlines (c :: s1)
  = if (c =? CR)%N then
      LF :: match s1 with
            | d :: s2 =>
                if (d =? LF)%N then normalizeNewlines s2 else normalizeNewlines s1
            | [] => []
            end
    else c :: normalizeNewlines s1.
Proof. reflexivity. Qed.

(** A text without CR is kept as it is. *)
Lemma normalizeNewlines_id (s : jsstring) :
  CR ∉ s → normalizeNewlines s = s.
Proof.
  induction s as [|c s IH]; [done|]. rewrite not_elem_of_cons. intros [Hc Hs].
  rewrite normalizeNewlines_unfold.
  destruct (N.eqb_spec c CR) as [->|_]; [done|]. by rewrite IH.
Qed.

Lemma normalizeNewlines_app (C s : jsstring) :
  CR ∉ C → normalizeNewlines (C ++ s) = C ++ normalizeNewlines s.
Proof.
  induction C as [|c C IH]; [done|]. rewrite not_elem_of_cons. intros [Hc HC].
  rewrite <- !app_comm_cons, normalizeNewlines_unfold.
  destruct (N.eqb_spec c CR) as [->|_]; [done|]. by rewrite IH.
Qed.

(** What a textarea holds has no CR. *)
Lemma normalizeNewlines_no_CR (s : jsstring) : CR ∉ normalizeNewlines s.
Proof.
  induction s as [|c|c d s IH1 IH2] using list_pair_ind.
  - apply not_elem_of_nil.
  - rewrite normalizeNewlines_unfold.
    destruct (N.eqb_spec c CR) as [->|Hc]; rewrite not_elem_of_cons;
      (split; [done|apply not_elem_of_nil]).
  - rewrite normalizeNewlines_unfold.
    destruct (N.eqb_spec c CR) as [->|Hc]; rewrite not_elem_of_cons.
    + split; [done|]. by destruct (d =? LF)%N.
    + split; [congruence|done].
Qed.

Lemma normalizeNewlines_idem (s : jsstring) :
  normalizeNewlines (normalizeNewlines s) = normalizeNewlines s.
Proof. apply normalizeNewlines_id, normalizeNewlines_no_CR. Qed.

Lemma normalizeNewlines_length (s : jsstring) :
  (length (normalizeNewlines s) ≤ length s)%nat.
Proof.
  induction s as [|c|c d s IH1 IH2] using list_pair_ind.
  - done.
  - rewrite normalizeNewlines_unfold. by destruct (c =? CR)%N.
  - rewrite normalizeNewlines_unfold.
    destruct (c =? CR)%N; [destruct (d =? LF)%N|]; simpl in *; lia.
Qed.



(** ** The history log *)

Lemma take_cons_take {A} (n m : nat) (x : A) (l : list A) :
  (n ≤ S m)%nat → take n (x :: take m l) = take n (x :: l).
Proof.
  destruct n as [|n]; [done|]. intros Hn. simpl. f_equal.
  rewrite take_take. f_equal. lia.
Qed.

Lemma append_cons (h : list HistoryEntry.t) (a : Append) :
  append h a = entryOf a :: take 49 h.
Proof. reflexivity. Qed.

Lemma appendAll_snoc (h : list HistoryEntry.t) (calls : list Append) (a : Append) :
  appendAll h (calls ++ [a]) = append (appendAll h calls) a.
Proof. unfold appendAll. by rewrite foldl_app. Qed.

(** The log is the 50 latest entries, newest first. *)
Lemma appendAll_latest (calls : list Append) :
  appendAll [] calls = take 50 (reverse (entryOf <$> calls)).
Proof.
  induction calls as [|a calls IH] using rev_ind; [done|].
  rewrite appendAll_snoc, IH, fmap_app, reverse_app. simpl.
  unfold append, addToHistory, slice0. fold (entryOf a).
  by rewrite take_cons_take by lia.
Qed.

(** Entries are kept as they are or dropped, never rewritten. *)
Lemma appendAll_elem_of (h : list HistoryEntry.t) (calls : list Append)
    (x : HistoryEntry.t) :
  x ∈ appendAll h calls → x ∈ h ∨ x ∈ entryOf <$> calls.
Proof.
  induction calls as [|a calls IH] using rev_ind; [by left|].
  rewrite appendAll_snoc, append_cons, fmap_app. intros Hx.
  apply elem_of_cons in Hx as [->|Hx].
  - right. apply elem_of_app. right. simpl. left.
  - apply elem_of_take in Hx as (i & Hx & _).
    apply list_elem_of_lookup_2 in Hx.
    destruct (IH Hx) as [?|?]; [by left|]. right. apply elem_of_app. by left.
Qed.

(** C1. After N calls of [addToHistory] on an empty log, the log has
    min(N, 50) entries and its head is the entry of the latest call. Each
    call puts its entry in front of the first 49 entries of the log before
    it: from a full log, 49 entries and the oldest behind them, the oldest is
    the one that goes. The log is the 50 latest entries, newest first. *)
Theorem history_bounded (calls : list Append) (a : Append) :
  length (appendAll [] calls) = Nat.min (length calls) 50
  ∧ head (appendAll [] (calls ++ [a])) = Some (entryOf a)
  ∧ appendAll [] (calls ++ [a]) = entryOf a :: take 49 (appendAll [] calls)
  ∧ (∀ kept oldest,
       appendAll [] calls = kept ++ [oldest] → length kept = 49%nat →
       appendAll [] (calls ++ [a]) = entryOf a :: kept)
  ∧ appendAll [] calls = take 50 (reverse (entryOf <$> calls)).
Proof.
  split_and!.
  - rewrite appendAll_latest, length_take, length_reverse, length_fmap. lia.
  - by rewrite appendAll_snoc, append_cons.
  - by rewrite appendAll_snoc, append_cons.
  - intros kept oldest Hfull Hkept.
    rewrite appendAll_snoc, append_cons, Hfull.
    by rewrite take_app_length' by done.
  - apply appendAll_latest.
Qed.

Lemma history_bounded_witness :
  appendAll [] (take 50 numberedCalls)
  = take 49 (appendAll [] (take 50 numberedCalls))
    ++ [newEntry user (js "0") 0 0]
  ∧ length (take 49 (appendAll [] (take 50 numberedCalls))) = 49%nat
  ∧ appendAll [] (take 50 numberedCalls
                  ++ [{| app_type := ai; app_content := js "the hero arrived.";
                         app_now1 := 50; app_now2 := 50 |}])
    = newEntry ai (js "the hero arrived.") 50 50
      :: take 49 (appendAll [] (take 50 numberedCalls)).
Proof.
  assert (H1 : appendAll [] (take 50 numberedCalls)
               = take 49 (appendAll [] (take 50 numberedCalls))
                 ++ [newEntry user (js "0") 0 0]) by (vm_compute; reflexivity).
  assert (H2 : length (take 49 (appendAll [] (take 50 numberedCalls))) = 49%nat)
    by (vm_compute; reflexivity).
  split; [exact H1|]. split; [exact H2|].
  exact (proj1 (proj2 (proj2 (proj2
    (history_bounded (take 50 numberedCalls)
       {| app_type := ai; app_content := js "the hero arrived.";
          app_now1 := 50; app_now2 := 50 |})))) _ _ H1 H2).
Defined.

(** C2. The entry that [addToHistory] puts at the head stores the first 200
    code units of the content: exactly 200 of them, a prefix of the input,
    when the input is longer, and the input itself otherwise. Later calls keep
    or drop the entries of the log and never rewrite one. *)
Theorem history_truncation (type : EntryType) (content : jsstring)
    (now1 now2 : Z) (prev : list HistoryEntry.t) :
  let e := newEntry type content now1 now2 in
  let h := addToHistory type content now1 now2 prev in
  head h = Some e
  ∧ ((200 < length content)%nat →
       length (HistoryEntry.content e) = 200%nat
       ∧ HistoryEntry.content e `prefix_of` content)
  ∧ ((length content ≤ 200)%nat → HistoryEntry.content e = content)
  ∧ (∀ later x, x ∈ appendAll h later → x ∈ h ∨ x ∈ entryOf <$> later).
Proof.
  cbv zeta. unfold newEntry. cbn [HistoryEntry.content]. unfold slice0.
  split_and!.
  - reflexivity.
  - intros Hlen. split; [|apply prefix_take].
    rewrite length_take. lia.
  - intros Hlen. by apply take_ge.
  - intros later x. apply appendAll_elem_of.
Qed.

Lemma history_truncation_witness :
  (200 < length (replicate 201 97%N))%nat
  ∧ length (HistoryEntry.content (newEntry ai (replicate 201 97%N) 5 6)) = 200%nat
  ∧ (length (js "Once upon a time") ≤ 200)%nat
  ∧ HistoryEntry.content (newEntry user (js "Once upon a time") 5 6)
    = js "Once upon a time".
Proof.
  assert (Hlong : (200 < length (replicate 201 97%N))%nat)
    by (rewrite length_replicate; lia).
  assert (Hshort : (length (js "Once upon a time") ≤ 200)%nat)
    by (vm_compute; lia).
  split; [exact Hlong|]. split.
  - exact (proj1 (proj1 (proj2
      (history_truncation ai (replicate 201 97%N) 5 6 [])) Hlong)).
  - split; [exact Hshort|].
    exact (proj1 (proj2 (proj2
      (history_truncation user (js "Once upon a time") 5 6 []))) Hshort).
Defined.

(** ** The editor *)

Lemma separator_LF (C : jsstring) :
  C ≠ [] → last C ≠ Some LF → ProseMirrorEditor.separator C = [LF].
Proof.
  unfold ProseMirrorEditor.separator, endsWithLF.
  destruct C as [|c C]; [done|]. intros _ H. cbn [nonEmpty andb].
  destruct (last (c :: C)) as [d|]; [|done].
  destruct (N.eqb_spec d LF) as [->|Hd]; done.
Qed.

Lemma separator_none (C : jsstring) :
  C = [] ∨ last C = Some LF → ProseMirrorEditor.separator C = [].
Proof.
  unfold ProseMirrorEditor.separator, endsWithLF.
  intros [->|H]; [done|]. rewrite H, N.eqb_refl. by destruct (nonEmpty C).
Qed.

(** A reply that is a string goes to the end of the editor and to the head
    of the history, and the status becomes [success]. *)
Lemma handleContinue_settle_text (E : Engine) (outcome : FetchOutcome)
    (R : jsstring) (now1 now2 : Z) (st : AppState) :
  generateText E outcome = inr (JString R) →
  ∃ st', handleContinue_settle E outcome now1 now2 st = Some (st', true)
    ∧ status st' = Status.success
    ∧ editorRef st' = onEditor (ProseMirrorEditor.insertTextAtEnd R) (editorRef st)
    ∧ history st' = addToHistory ai R now1 now2 (history st).
Proof.
  intros H. unfold handleContinue_settle, handleContinue_finish. rewrite H.
  by eexists.
Qed.

(** C4, as the code has it. On a textarea that holds [C],
    [insertTextAtEnd(R)] leaves [C ++ "\n" ++ R'] when [C] is not empty and
    does not end in a line feed, and [C ++ R'] when [C] is empty or ends in
    a line feed, where [R'] is [R] as the textarea reads it back: with
    every CR LF pair and every other CR turned into one LF, so [R] itself
    when it holds no CR. [handleContinue] inserts the reply in this way and
    then puts it, as it came, at the head of the history. *)
Theorem insertTextAtEnd_joins (C R : jsstring) :
  (CR ∉ C) →
  (C ≠ [] → last C ≠ Some LF →
     ProseMirrorEditor.insertTextAtEnd R (Some C)
     = Some (C ++ [LF] ++ normalizeNewlines R))
  ∧ (C = [] ∨ last C = Some LF →
     ProseMirrorEditor.insertTextAtEnd R (Some C)
     = Some (C ++ normalizeNewlines R))
  ∧ (CR ∉ R → normalizeNewlines R = R)
  ∧ (∀ E outcome now1 now2 st,
       editorRef st = Some (Some C) →
       generateText E outcome = inr (JString R) →
       ∃ st', handleContinue_settle E outcome now1 now2 st = Some (st', true)
         ∧ editorRef st' = Some (ProseMirrorEditor.insertTextAtEnd R (Some C))
         ∧ head (history st') = Some (newEntry ai R now1 now2)).
Proof.
  intros HC. unfold ProseMirrorEditor.insertTextAtEnd. split_and!.
  - intros H1 H2. rewrite separator_LF by done.
    rewrite normalizeNewlines_app by done.
    change ([LF] ++ R) with (LF :: R). rewrite normalizeNewlines_unfold.
    reflexivity.
  - intros H. rewrite separator_none by done.
    by rewrite normalizeNewlines_app.
  - apply normalizeNewlines_id.
  - intros E outcome now1 now2 st Hed Hgen.
    destruct (handleContinue_settle_text E outcome R now1 now2 st Hgen)
      as (st' & Hsettle & _ & Heditor & Hhistory).
    exists st'. split; [done|]. rewrite Heditor, Hhistory, Hed. done.
Qed.

Lemma insertTextAtEnd_joins_witness :
  (CR ∉ js "Once upon a time")
  ∧ js "Once upon a time" ≠ []
  ∧ last (js "Once upon a time") ≠ Some LF
  ∧ ProseMirrorEditor.insertTextAtEnd (js "the hero arrived.")
      (Some (js "Once upon a time"))
    = Some (js "Once upon a time" ++ [LF] ++ js "the hero arrived.").
Proof.
  assert (H0 : CR ∉ js "Once upon a time")
    by (apply (bool_decide_unpack _); vm_compute; exact I).
  assert (H1 : js "Once upon a time" ≠ []) by (vm_compute; discriminate).
  assert (H2 : last (js "Once upon a time") ≠ Some LF)
    by (vm_compute; discriminate).
  assert (H3 : CR ∉ js "the hero arrived.")
    by (apply (bool_decide_unpack _); vm_compute; exact I).
  pose proof (insertTextAtEnd_joins (js "Once upon a time")
                (js "the hero arrived.") H0) as (Ha & _ & Hb & _).
  split; [exact H0|]. split; [exact H1|]. split; [exact H2|].
  rewrite (Ha H1 H2), (Hb H3). reflexivity.
Defined.

(** C4 as the specification words it fails: a reply that holds a CR is not
    in the editor as it came, the textarea reads its line breaks back as
    line feeds. *)
Lemma insertTextAtEnd_CR_counterexample :
  ProseMirrorEditor.insertTextAtEnd crReply (Some (js "Once upon a time"))
  = Some (js "Once upon a time" ++ [LF] ++ js "the hero" ++ [LF] ++ js "arrived.")
  ∧ js "Once upon a time" ++ [LF] ++ crReply
    ≠ js "Once upon a time" ++ [LF] ++ js "the hero" ++ [LF] ++ js "arrived."
  ∧ ¬ (∀ C R, C ≠ [] → last C ≠ Some LF →
         ProseMirrorEditor.insertTextAtEnd R (Some C) = Some (C ++ [LF] ++ R)).
Proof.
  assert (H1 : ProseMirrorEditor.insertTextAtEnd crReply
                 (Some (js "Once upon a time"))
               = Some (js "Once upon a time" ++ [LF] ++ js "the hero" ++ [LF]
                       ++ js "arrived.")) by (vm_compute; reflexivity).
  assert (H2 : js "Once upon a time" ++ [LF] ++ crReply
               ≠ js "Once upon a time" ++ [LF] ++ js "the hero" ++ [LF]
                 ++ js "arrived.") by (vm_compute; discriminate).
  split; [exact H1|]. split; [exact H2|].
  intros H. specialize (H (js "Once upon a time") crReply).
  rewrite H1 in H. apply H2. symmetry.
  assert (js "Once upon a time" ≠ []) as Hne by (vm_compute; discriminate).
  assert (last (js "Once upon a time") ≠ Some LF) as Hl
    by (vm_compute; discriminate).
  by injection (H Hne Hl).
Qed.

(** ** [handleContinue] *)

Lemma catchError_status (err : Thrown) (st : AppState) :
  status (catchError err st) = Status.error
  ∧ history (catchError err st) = history st
  ∧ editorRef (catchError err st) = editorRef st
  ∧ stories (catchError err st) = stories st.
Proof. done. Qed.

(** C3. When the text of the editor is empty or white space only,
    [handleContinue] ends in its [catch] before the first [await]: the status
    is [error] with the message asking for text, the history is as before, no
    call is left suspended and so no request reaches the provider, whatever
    the provider would have answered. *)
Theorem blank_editor_rejected (E : Engine) (st : AppState) (now1 now2 : Z) :
  Forall (fun c => isWhiteSpace c = true) (default [] (editorText (editorRef st))) →
  ∃ st',
    handleContinue_start now1 now2 st = (st', None)
    ∧ status st' = Status.error
    ∧ error st' = js "Please write something first!"
    ∧ history st' = history st
    ∧ (∀ outcome now3 now4,
         handleContinue E outcome now1 now2 now3 now4 st = Some st')
    ∧ (∀ w, app w = st → continueDisabled st = false →
         ∃ w', step E w (ClickContinue now1 now2) = Some w'
               ∧ app w' = st'
               ∧ tasks w' = tasks w
               ∧ inFlight w' = inFlight w
               ∧ idleTimers w' = idleTimers w).
Proof.
  intros Hblank. apply trim_blank in Hblank.
  assert (Hstart : handleContinue_start now1 now2 st
                   = (catchError (ErrorInstance (js "Please write something first!"))
                        (setGeneratingText (js "Initializing AI...")
                           (setError [] (setStatus Status.generating st))), None)).
  { unfold handleContinue_start.
    cbn [editorRef setGeneratingText setError setStatus].
    by rewrite Hblank. }
  eexists. split; [exact Hstart|]. split_and!; try reflexivity.
  - intros outcome now3 now4. unfold handleContinue. by rewrite Hstart.
  - intros w <- Hen.
    exists {| app := catchError (ErrorInstance (js "Please write something first!"))
                       (setGeneratingText (js "Initializing AI...")
                          (setError [] (setStatus Status.generating (app w))));
              tasks := tasks w; idleTimers := idleTimers w;
              confirmTimers := confirmTimers w |}.
    split_and!; try reflexivity.
    unfold step. rewrite Hen, Hstart. by rewrite app_nil_r.
Qed.

Lemma blank_editor_rejected_witness :
  Forall (fun c => isWhiteSpace c = true)
    (default [] (editorText (editorRef (typed (js "  ") initialState))))
  ∧ ∃ st',
      handleContinue_start 5 6 (typed (js "  ") initialState) = (st', None)
      ∧ status st' = Status.error.
Proof.
  assert (H : Forall (fun c => isWhiteSpace c = true)
                (default [] (editorText (editorRef (typed (js "  ") initialState))))).
  { vm_compute. repeat constructor. }
  split; [exact H|].
  destruct (blank_editor_rejected exampleEngine
              (typed (js "  ") initialState) 5 6 H)
    as (st' & Hstart & Hstatus & _).
  exists st'. split; [exact Hstart|exact Hstatus].
Defined.

(** ** The completion request *)

Lemma valueAt_member (name : string) (path : list Access) (r : JSRef) :
  r ≫= valueAt (Member name :: path) = optProp name r ≫= valueAt path.
Proof. destruct r as [[]|]; reflexivity. Qed.

Lemma valueAt_item (i : nat) (path : list Access) (r : JSRef) :
  r ≫= valueAt (Item i :: path) = optIndex i r ≫= valueAt path.
Proof. destruct r as [[]|]; reflexivity. Qed.

(** The optional chain of [generateText] reads the value at
    [choices[0].message.content]. *)
Lemma messageContent_valueAt (data : JSValue) (choices : JSRef) :
  plainProp "choices" data = inr choices →
  messageContent choices = valueAt replyPath data.
Proof.
  intros Hc. unfold messageContent.
  transitivity (optProp "content" (optProp "message" (optIndex 0 choices))
                ≫= valueAt []).
  { by destruct (optProp "content" _). }
  rewrite <- valueAt_member, <- valueAt_member, <- valueAt_item.
  destruct data; simpl in Hc; try discriminate; by injection Hc as <-.
Qed.





(** ** Stories *)


Lemma resave_unmatched (cid content title : jsstring) (l : list Story.t) :
  (∀ s, s ∈ l → Story.id s ≠ cid) →
  (fun s => if decide (Story.id s = cid) then resave content title s else s) <$> l
  = l.
Proof.
  induction l as [|s l IH]; intros H; [done|]. simpl.
  rewrite decide_False by (apply H; left).
  f_equal. apply IH. intros s' Hs'. apply H. by right.
Qed.

Lemma saveStory_blank (now1 now2 : Z) (st : AppState) :
  trim (editorContent st) = [] → saveStory now1 now2 st = st.
Proof. intros H. unfold saveStory. by rewrite H. Qed.

Lemma saveStory_update (now1 now2 : Z) (st : AppState) (cid : jsstring) :
  trim (editorContent st) ≠ [] → currentStoryId st = Some cid → cid ≠ [] →
  saveStory now1 now2 st
  = setStories
      ((fun s => if decide (Story.id s = cid)
                 then resave (editorContent st) (titleOf (editorContent st)) s
                 else s) <$> stories st) st.
Proof.
  intros Hc Hcur Hne. unfold saveStory.
  destruct (trim (editorContent st)); [done|]. cbn [nonEmpty negb].
  rewrite Hcur. by destruct cid.
Qed.

Lemma saveStory_create (now1 now2 : Z) (st : AppState) :
  trim (editorContent st) ≠ [] →
  currentStoryId st = None ∨ currentStoryId st = Some [] →
  saveStory now1 now2 st
  = setCurrentStoryId (Some (Number_toString now1))
      (setStories (storyFromEditor now1 now2 st :: stories st) st).
Proof.
  intros Hc Hcur. unfold saveStory.
  destruct (trim (editorContent st)); [done|]. cbn [nonEmpty negb].
  by destruct Hcur as [-> | ->].
Qed.

(** What [saveStory] does in any state. With text in the editor that is
    not blank: when the current id is a non-empty string the stories with
    that id get the new content and title, in place, the collection keeps
    its size and the current id stays; when the current id is [null] or the
    empty string a story whose id is the decimal of the clock is put in
    front, the collection grows by one and that id becomes the current one.
    With blank text nothing changes. *)
Lemma saveStory_cases (now1 now2 : Z) (st : AppState) :
  let content := editorContent st in
  let st' := saveStory now1 now2 st in
  (trim content = [] → st' = st)
  ∧ (trim content ≠ [] →
     (∀ cid, currentStoryId st = Some cid → cid ≠ [] →
        stories st'
        = (fun s => if decide (Story.id s = cid)
                    then resave content (titleOf content) s else s) <$> stories st
        ∧ length (stories st') = length (stories st)
        ∧ currentStoryId st' = Some cid)
     ∧ (currentStoryId st = None ∨ currentStoryId st = Some [] →
        stories st' = storyFromEditor now1 now2 st :: stories st
        ∧ length (stories st') = S (length (stories st))
        ∧ currentStoryId st' = Some (Number_toString now1))).
Proof.
  cbv zeta. split; [apply saveStory_blank|]. intros Hc. split.
  - intros cid Hcur Hne. rewrite (saveStory_update _ _ _ cid) by done.
    split_and!; [done| |done].
    cbn [stories setStories]. by rewrite length_fmap.
  - intros Hcur. by rewrite saveStory_create.
Qed.

Lemma savedInPlace_refl (cid : jsstring) (st : AppState) : savedInPlace cid st st.
Proof. split; [done|]. intros i s Hs. by exists s. Qed.

(** C10, as the code has it. Saving under a current id that is a non-empty
    string keeps the collection in place: same length and order, every story
    with its id and timestamp, the stories with another id untouched, and
    those with the current id changed in content and title only. The rest of
    the state is as it was. *)
Theorem saveStory_frame (now1 now2 : Z) (st : AppState) (cid : jsstring) :
  currentStoryId st = Some cid → cid ≠ [] →
  (∃ s, s ∈ stories st ∧ Story.id s = cid) →
  let st' := saveStory now1 now2 st in
  savedInPlace cid st st'
  ∧ (∀ i s, stories st !! i = Some s → Story.id s = cid →
       stories st' !! i
       = Some (if decide (trim (editorContent st) = []) then s
               else resave (editorContent st) (titleOf (editorContent st)) s))
  ∧ currentStoryId st' = Some cid
  ∧ history st' = history st
  ∧ editorRef st' = editorRef st
  ∧ status st' = status st
  ∧ error st' = error st.
Proof.
  intros Hcur Hne _. cbv zeta.
  destruct (decide (trim (editorContent st) = [])) as [Hb|Hb].
  { rewrite saveStory_blank by done.
    split_and!; try done. apply savedInPlace_refl. }
  rewrite (saveStory_update _ _ _ cid) by done.
  split_and!; try done.
  - split; [cbn [stories setStories]; by rewrite length_fmap|].
    intros i s Hs. cbn [stories setStories]. rewrite list_lookup_fmap, Hs.
    simpl. case_decide; eexists; split_and!; done.
  - intros i s Hs Hid. cbn [stories setStories].
    rewrite list_lookup_fmap, Hs. simpl.
    by rewrite (decide_True _ _ Hid).
Qed.

Lemma saveStory_frame_witness :
  currentStoryId resaveState = Some (js "17")
  ∧ js "17" ≠ []
  ∧ (∃ s, s ∈ stories resaveState ∧ Story.id s = js "17")
  ∧ savedInPlace (js "17") resaveState (saveStory 42 43 resaveState).
Proof.
  assert (H1 : currentStoryId resaveState = Some (js "17")) by reflexivity.
  assert (H2 : js "17" ≠ []) by (vm_compute; discriminate).
  assert (H3 : ∃ s, s ∈ stories resaveState ∧ Story.id s = js "17").
  { eexists. split; [left|reflexivity]. }
  split; [exact H1|]. split; [exact H2|]. split; [exact H3|].
  exact (proj1 (saveStory_frame 42 43 resaveState (js "17") H1 H2 H3)).
Defined.

(** C10 without the condition on the id fails: under the empty string as
    current id, which a story may carry, saving leaves that story as it is
    and puts a new one in front. *)
Lemma saveStory_empty_id_counterexample :
  currentStoryId emptyIdState = Some []
  ∧ stories emptyIdState = [Story.mk [] (js "Old") (js "Old") 7]
  ∧ stories (saveStory 42 43 emptyIdState)
    = [Story.mk (js "42") (js "Chapter One") (js "Chapter One") 43;
       Story.mk [] (js "Old") (js "Old") 7]
  ∧ ¬ (∀ now1 now2 st cid,
         currentStoryId st = Some cid →
         (∃ s, s ∈ stories st ∧ Story.id s = cid) →
         savedInPlace cid st (saveStory now1 now2 st)).
Proof.
  split; [reflexivity|]. split; [reflexivity|].
  split; [vm_compute; reflexivity|].
  intros H. destruct (H 42 43 emptyIdState []) as [Hlen _].
  - reflexivity.
  - eexists. split; [left|reflexivity].
  - vm_compute in Hlen. discriminate.
Qed.

(** ** Writing and reading back *)

Lemma hexValue_hexDigit (d : N) :
  (d < 16)%N → JSON.hexValue (Stringify.hexDigit d) = Some d.
Proof.
  intros Hd.
  assert (d ∈ (N.of_nat <$> seq 0 16)) as Hin.
  { apply list_elem_of_fmap. exists (N.to_nat d). split; [lia|].
    apply elem_of_seq. lia. }
  simpl in Hin. repeat (apply elem_of_cons in Hin as [->|Hin]; [reflexivity|]).
  inversion Hin.
Qed.

Lemma hex4_unicodeEscape (c : N) :
  (c < 65536)%N →
  JSON.hex4 (Stringify.hexDigit (c / 4096 mod 16)) (Stringify.hexDigit (c / 256 mod 16))
    (Stringify.hexDigit (c / 16 mod 16)) (Stringify.hexDigit (c mod 16))
  = Some c.
Proof.
  intros Hc. unfold JSON.hex4.
  rewrite !hexValue_hexDigit by (apply N.mod_lt; lia). simpl. f_equal.
  pose proof (N.div_mod c 16). pose proof (N.div_mod (c / 16) 16).
  pose proof (N.div_mod (c / 256) 16).
  replace (c / 256)%N with (c / 16 / 16)%N in * by (rewrite N.Div0.div_div; f_equal).
  replace (c / 4096)%N with (c / 16 / 16 / 16)%N by (rewrite !N.Div0.div_div; f_equal).
  assert (c / 16 / 16 / 16 < 16)%N.
  { rewrite !N.Div0.div_div. apply N.Div0.div_lt_upper_bound. lia. }
  rewrite (N.mod_small (c / 16 / 16 / 16) 16) by done.
  pose proof (N.mod_lt c 16). pose proof (N.mod_lt (c / 16) 16).
  pose proof (N.mod_lt (c / 16 / 16) 16).
  pose proof (N.div_mod (c / 16 / 16) 16).
  lia.
Qed.

Lemma stringBody_raw (c : N) (t : jsstring) :
  (32 ≤ c)%N → c ≠ 34%N → c ≠ 92%N →
  JSON.stringBody (c :: t) = consBody c (JSON.stringBody t).
Proof.
  intros H1 H2 H3. cbn [JSON.stringBody].
  apply N.eqb_neq in H2, H3. rewrite H2, H3.
  by replace (c <? 32)%N with false by (symmetry; apply N.ltb_ge; lia).
Qed.

Lemma stringBody_unicodeEscape (c : N) (t : jsstring) :
  (c < 65536)%N →
  JSON.stringBody (Stringify.unicodeEscape c ++ t)
  = consBody c (JSON.stringBody t).
Proof.
  intros Hc. unfold Stringify.unicodeEscape.
  change (JSON.stringBody (_ ++ t))
    with (u ← JSON.hex4 (Stringify.hexDigit (c / 4096 mod 16))
                (Stringify.hexDigit (c / 256 mod 16))
                (Stringify.hexDigit (c / 16 mod 16))
                (Stringify.hexDigit (c mod 16));
          '(body, rest) ← JSON.stringBody t; Some (u :: body, rest)).
  by rewrite hex4_unicodeEscape.
Qed.

Lemma stringBody_escapeUnit (c : N) (t : jsstring) :
  Stringify.isHighSurrogate c = false → Stringify.isLowSurrogate c = false →
  JSON.stringBody (Stringify.escapeUnit c ++ t)
  = consBody c (JSON.stringBody t).
Proof.
  intros _ _. unfold Stringify.escapeUnit.
  destruct (N.eqb_spec c 8) as [->|?]; [reflexivity|].
  destruct (N.eqb_spec c 9) as [->|?]; [reflexivity|].
  destruct (N.eqb_spec c 10) as [->|?]; [reflexivity|].
  destruct (N.eqb_spec c 12) as [->|?]; [reflexivity|].
  destruct (N.eqb_spec c 13) as [->|?]; [reflexivity|].
  destruct (N.eqb_spec c 34) as [->|?]; [reflexivity|].
  destruct (N.eqb_spec c 92) as [->|?]; [reflexivity|].
  destruct (N.ltb_spec c 32).
  - apply stringBody_unicodeEscape. lia.
  - by apply stringBody_raw.
Qed.

Lemma stringBody_surrogate (c : N) (t : jsstring) :
  Stringify.isHighSurrogate c = true ∨ Stringify.isLowSurrogate c = true →
  (c < 65536)%N ∧ JSON.stringBody (c :: t) = consBody c (JSON.stringBody t).
Proof.
  unfold Stringify.isHighSurrogate, Stringify.isLowSurrogate. intros H.
  rewrite !andb_true_iff, !N.leb_le in H.
  assert (55296 ≤ c ≤ 57343)%N as Hc by lia.
  split; [lia|]. apply stringBody_raw; lia.
Qed.

(** [stringBody] reads back what [quoteBody] wrote. *)
Lemma stringBody_quoteBody (s rest : jsstring) :
  JSON.stringBody (Stringify.quoteBody s ++ 34%N :: rest) = Some (s, rest).
Proof.
  revert rest. induction s as [|c|c d s IH1 IH2] using list_pair_ind; intros rest.
  - reflexivity.
  - cbn [Stringify.quoteBody].
    destruct (Stringify.isHighSurrogate c) eqn:Hh.
    { destruct (stringBody_surrogate c [] (or_introl Hh)) as [Hc _].
      by rewrite stringBody_unicodeEscape. }
    destruct (Stringify.isLowSurrogate c) eqn:Hl.
    { destruct (stringBody_surrogate c [] (or_intror Hl)) as [Hc _].
      rewrite <- app_assoc. by rewrite stringBody_unicodeEscape. }
    rewrite <- app_assoc. by rewrite stringBody_escapeUnit.
  - change (Stringify.quoteBody (c :: d :: s))
      with (if Stringify.isHighSurrogate c then
              if Stringify.isLowSurrogate d then c :: d :: Stringify.quoteBody s
              else Stringify.unicodeEscape c ++ Stringify.quoteBody (d :: s)
            else if Stringify.isLowSurrogate c
                 then Stringify.unicodeEscape c ++ Stringify.quoteBody (d :: s)
                 else Stringify.escapeUnit c ++ Stringify.quoteBody (d :: s)).
    destruct (Stringify.isHighSurrogate c) eqn:Hh.
    { destruct (stringBody_surrogate c [] (or_introl Hh)) as [Hc _].
      destruct (Stringify.isLowSurrogate d) eqn:Hd.
      - rewrite <- !app_comm_cons.
        rewrite (proj2 (stringBody_surrogate c _ (or_introl Hh))).
        rewrite (proj2 (stringBody_surrogate d _ (or_intror Hd))).
        by rewrite IH1.
      - rewrite <- app_assoc, stringBody_unicodeEscape by done. by rewrite IH2. }
    destruct (Stringify.isLowSurrogate c) eqn:Hl.
    { destruct (stringBody_surrogate c [] (or_intror Hl)) as [Hc _].
      rewrite <- app_assoc, stringBody_unicodeEscape by done. by rewrite IH2. }
    rewrite <- app_assoc, stringBody_escapeUnit by done. by rewrite IH2.
Qed.

Lemma N_of_pretty_char (d : N) :
  (d < 10)%N → N_of_ascii (pretty_N_char d) = (48 + d)%N.
Proof.
  intros Hd.
  assert (d ∈ (N.of_nat <$> seq 0 10)) as Hin.
  { apply list_elem_of_fmap. exists (N.to_nat d). split; [lia|].
    apply elem_of_seq. lia. }
  simpl in Hin. repeat (apply elem_of_cons in Hin as [->|Hin]; [reflexivity|]).
  inversion Hin.
Qed.

Lemma digits_digit (acc : Z) (n : nat) (d : N) (t : jsstring) :
  (d < 10)%N →
  JSON.digits acc n ((48 + d)%N :: t)
  = JSON.digits (10 * acc + Z.of_N d) (S n) t.
Proof.
  intros Hd. cbn [JSON.digits]. unfold JSON.isDigit.
  replace ((48 <=? 48 + d) && (48 + d <=? 57))%N with true
    by (symmetry; apply andb_true_iff; split; apply N.leb_le; lia).
  do 2 f_equal. lia.
Qed.

(** Reading the digits that [pretty] wrote gives the number back. *)
Lemma digits_pretty_go (x : N) (s : string) (acc : Z) (n : nat) (rest : jsstring) :
  ∃ k, JSON.digits acc n (js (pretty_N_go x s) ++ rest)
       = JSON.digits (acc * 10 ^ Z.of_nat k + Z.of_N x) (n + k) (js s ++ rest).
Proof.
  revert s acc n. induction (N.lt_wf_0 x) as [x _ IH]. intros s acc n.
  destruct (decide (x = 0)%N) as [->|Hx].
  { exists 0%nat. rewrite pretty_N_go_0. do 2 f_equal; lia. }
  rewrite pretty_N_go_step by lia.
  destruct (IH (x `div` 10)%N) with
    (s := String (pretty_N_char (x `mod` 10)) s) (acc := acc) (n := n)
    as [k Hk]; [apply N.div_lt; lia|].
  exists (S k). rewrite Hk.
  change (js (String (pretty_N_char (x `mod` 10)) s))
    with (N_of_ascii (pretty_N_char (x `mod` 10)) :: js s).
  rewrite N_of_pretty_char by (apply N.mod_lt; lia).
  rewrite <- app_comm_cons, digits_digit by (apply N.mod_lt; lia).
  f_equal; [|lia].
  rewrite Nat2Z.inj_succ, Z.pow_succ_r by lia.
  assert (Z.of_N x = 10 * Z.of_N (x `div` 10) + Z.of_N (x `mod` 10)) as ->.
  { pose proof (N.div_mod x 10 ltac:(lia)). lia. }
  ring.
Qed.

Lemma pretty_go_head (x : N) (s : string) :
  (0 < x)%N →
  ∃ c t, js (pretty_N_go x s) = c :: t ∧ JSON.isDigit c = true ∧ c ≠ 48%N.
Proof.
  revert s. induction (N.lt_wf_0 x) as [x _ IH]. intros s Hx.
  rewrite pretty_N_go_step by done.
  destruct (decide (x `div` 10 = 0)%N) as [Hsmall|Hbig].
  - rewrite Hsmall, pretty_N_go_0.
    assert (x < 10)%N.
    { pose proof (N.div_mod x 10 ltac:(lia)).
      pose proof (N.mod_lt x 10 ltac:(lia)). lia. }
    rewrite N.mod_small by done.
    exists (48 + x)%N, (js s).
    change (js (String (pretty_N_char x) s))
      with (N_of_ascii (pretty_N_char x) :: js s).
    rewrite N_of_pretty_char by done. split; [done|]. split; [|lia].
    unfold JSON.isDigit. apply andb_true_iff; split; apply N.leb_le; lia.
  - apply IH.
    + apply N.div_lt; lia.
    + destruct (x `div` 10)%N; [done|lia].
Qed.

Lemma unsignedNumber_pretty (x : N) (rest : jsstring) :
  JSON.unsignedNumber (js (pretty x) ++ 125%N :: rest)
  = Some (Z.of_N x, 0, 125%N :: rest).
Proof.
  unfold pretty, pretty_N. case_decide as Hx; [by subst|].
  destruct (pretty_go_head x "" ltac:(lia)) as (c & t & Heq & Hc & Hnz).
  destruct (digits_pretty_go x "" 0 0 (125%N :: rest)) as [k Hk].
  rewrite Heq in *. unfold JSON.unsignedNumber.
  rewrite <- app_comm_cons, Hc. apply N.eqb_neq in Hnz. rewrite Hnz.
  rewrite app_comm_cons, Hk. simpl. repeat f_equal; lia.
Qed.

Lemma isDigit_range (c : N) : JSON.isDigit c = true → (48 ≤ c ≤ 57)%N.
Proof. unfold JSON.isDigit. rewrite andb_true_iff, !N.leb_le. lia. Qed.

(** A decimal starts with a digit or with the minus sign. *)
Lemma Number_toString_head (z : Z) :
  ∃ c t, Number_toString z = c :: t ∧ (c = 45%N ∨ (48 ≤ c ≤ 57)%N).
Proof.
  unfold Number_toString, pretty, pretty_Z. destruct z as [|p|p].
  - by eexists _, _; split; [|right].
  - unfold pretty, pretty_positive, pretty, pretty_N.
    case_decide; [done|].
    destruct (pretty_go_head (N.pos p) "" ltac:(lia)) as (c & t & Heq & Hc & _).
    exists c, t. split; [done|]. right. by apply isDigit_range.
  - by eexists _, _; split; [|left].
Qed.

Lemma number_toString (z : Z) (rest : jsstring) :
  JSON.number (Number_toString z ++ 125%N :: rest)
  = Some (JNumber z 0, 125%N :: rest).
Proof.
  unfold Number_toString, pretty, pretty_Z. destruct z as [|p|p].
  - reflexivity.
  - change (js (pretty p)) with (js (pretty (N.pos p))).
    pose proof (unsignedNumber_pretty (N.pos p) rest) as Hu.
    assert (∃ c t, js (pretty (N.pos p)) = c :: t ∧ (48 ≤ c ≤ 57)%N)
      as (c & t & Heq & Hc).
    { unfold pretty, pretty_N. case_decide; [done|].
      destruct (pretty_go_head (N.pos p) "" ltac:(lia)) as (c & t & Heq & Hc & _).
      exists c, t. split; [done|]. by apply isDigit_range. }
    rewrite Heq in *. unfold JSON.number, JSON.startsWith.
    rewrite <- app_comm_cons in *.
    replace (c =? 45)%N with false by (symmetry; apply N.eqb_neq; lia).
    by rewrite Hu.
  - change (js ("-" +:+ pretty p)) with (45%N :: js (pretty (N.pos p))).
    unfold JSON.number, JSON.startsWith. rewrite <- app_comm_cons.
    cbn [N.eqb Pos.eqb]. by rewrite unsignedNumber_pretty.
Qed.

Lemma value_quote (f : nat) (s rest : jsstring) :
  JSON.value (S f) (Stringify.quote s ++ rest) = Some (JString s, rest).
Proof.
  unfold Stringify.quote. rewrite <- !app_assoc.
  change (JSON.value (S f) ([34%N] ++ ?t))
    with ('(str, rest) ← JSON.stringBody t; Some (JString str, rest)).
  change ([34%N] ++ rest) with (34%N :: rest).
  by rewrite stringBody_quoteBody.
Qed.

Lemma value_number (f : nat) (z : Z) (rest : jsstring) :
  JSON.value (S f) (Number_toString z ++ 125%N :: rest)
  = Some (JNumber z 0, 125%N :: rest).
Proof.
  pose proof (number_toString z rest) as Hn.
  destruct (Number_toString_head z) as (c & t & Heq & Hc).
  rewrite Heq in *. rewrite <- app_comm_cons in *.
  assert (JSON.isWS c = false) as Hws.
  { unfold JSON.isWS. destruct Hc as [->|Hc]; [done|].
    repeat (apply orb_false_iff; split); apply N.eqb_neq; lia. }
  cbn [JSON.value JSON.skipWS]. rewrite Hws.
  replace (c =? 123)%N with false by (symmetry; apply N.eqb_neq; lia).
  replace (c =? 91)%N with false by (symmetry; apply N.eqb_neq; lia).
  replace (c =? 34)%N with false by (symmetry; apply N.eqb_neq; lia).
  replace (c =? 116)%N with false by (symmetry; apply N.eqb_neq; lia).
  replace (c =? 102)%N with false by (symmetry; apply N.eqb_neq; lia).
  replace (c =? 110)%N with false by (symmetry; apply N.eqb_neq; lia).
  done.
Qed.

Lemma members_more (f : nat) (name : string) (text : jsstring) (v : JSValue)
    (r : jsstring) (ms : list (jsstring * JSValue)) (rest : jsstring) :
  JSON.stringBody (js name ++ 34%N :: 58%N :: text ++ 44%N :: r)
  = Some (js name, 58%N :: text ++ 44%N :: r) →
  JSON.value f (text ++ 44%N :: r) = Some (v, 44%N :: r) →
  JSON.members f r = Some (ms, rest) →
  JSON.members (S f) (memberText name (text ++ 44%N :: r))
  = Some ((js name, v) :: ms, rest).
Proof.
  intros Hk Hv Hm. unfold memberText.
  cbn [JSON.members JSON.skipWS JSON.isWS JSON.startsWith N.eqb Pos.eqb orb
       mbind option_bind].
  rewrite Hk.
  cbn [mbind option_bind JSON.skipWS JSON.isWS JSON.startsWith N.eqb Pos.eqb orb].
  rewrite Hv.
  cbn [mbind option_bind JSON.skipWS JSON.isWS JSON.startsWith N.eqb Pos.eqb orb].
  by rewrite Hm.
Qed.

Lemma members_last (f : nat) (name : string) (text : jsstring) (v : JSValue)
    (rest : jsstring) :
  JSON.stringBody (js name ++ 34%N :: 58%N :: text ++ 125%N :: rest)
  = Some (js name, 58%N :: text ++ 125%N :: rest) →
  JSON.value f (text ++ 125%N :: rest) = Some (v, 125%N :: rest) →
  JSON.members (S f) (memberText name (text ++ 125%N :: rest))
  = Some ([(js name, v)], rest).
Proof.
  intros Hk Hv. unfold memberText.
  cbn [JSON.members JSON.skipWS JSON.isWS JSON.startsWith N.eqb Pos.eqb orb
       mbind option_bind].
  rewrite Hk.
  cbn [mbind option_bind JSON.skipWS JSON.isWS JSON.startsWith N.eqb Pos.eqb orb].
  by rewrite Hv.
Qed.

Lemma entry_text (e : HistoryEntry.t) (rest : jsstring) :
  Stringify.entry e ++ rest
  = 123%N ::
    memberText "id" (Stringify.quote (HistoryEntry.id e) ++ 44%N ::
    memberText "type"
      (Stringify.quote (Stringify.entryType (HistoryEntry.type e)) ++ 44%N ::
    memberText "content" (Stringify.quote (HistoryEntry.content e) ++ 44%N ::
    memberText "timestamp"
      (Number_toString (HistoryEntry.timestamp e) ++ 125%N :: rest)))).
Proof.
  unfold Stringify.entry, memberText, Stringify.key.
  rewrite <- !app_assoc. reflexivity.
Qed.

Lemma value_entry (f : nat) (e : HistoryEntry.t) (rest : jsstring) :
  JSON.value (6 + f) (Stringify.entry e ++ rest) = Some (entryJSON e, rest).
Proof.
  rewrite entry_text.
  change (6 + f)%nat with (S (S (S (S (S (S f)))))).
  change (JSON.value (S ?n) (123%N :: ?s))
    with ('(ms, rest) ← JSON.members n s; Some (JObject ms, rest)).
  erewrite members_more; [reflexivity|reflexivity|apply value_quote|].
  erewrite members_more; [reflexivity|reflexivity|apply value_quote|].
  erewrite members_more; [reflexivity|reflexivity|apply value_quote|].
  apply members_last; [reflexivity|apply value_number].
Qed.

Lemma elements_unfold (f : nat) (s : jsstring) :
  JSON.elements (S f) s
  = '(v, rest) ← JSON.value f s;
    match JSON.startsWith 44 (JSON.skipWS rest) with
    | Some rest' =>
        '(vs, rest'') ← JSON.elements f rest'; Some (v :: vs, rest'')
    | None => rest' ← JSON.startsWith 93 (JSON.skipWS rest); Some ([v], rest')
    end.
Proof. reflexivity. Qed.

Lemma elements_joined (h : list HistoryEntry.t) (f : nat) (rest : jsstring) :
  h ≠ [] →
  JSON.elements (length h + 6 + f)
    (Stringify.joined (Stringify.entry <$> h) ++ 93%N :: rest)
  = Some (entryJSON <$> h, rest).
Proof.
  revert f. induction h as [|e h IH]; intros f Hne; [done|].
  change (length (e :: h) + 6 + f)%nat with (S (length h + 6 + f)).
  rewrite elements_unfold.
  destruct h as [|e' h].
  - change (Stringify.joined (Stringify.entry <$> [e])) with (Stringify.entry e).
    change (length [] + 6 + f)%nat with (6 + f)%nat.
    by rewrite value_entry.
  - change (Stringify.joined (Stringify.entry <$> e :: e' :: h) ++ 93%N :: rest)
      with ((Stringify.entry e ++ [44%N]
             ++ Stringify.joined (Stringify.entry <$> e' :: h)) ++ 93%N :: rest).
    rewrite <- !app_assoc.
    replace (length (e' :: h) + 6 + f)%nat with (6 + (length (e' :: h) + f))%nat
      at 1 by lia.
    rewrite value_entry.
    specialize (IH f ltac:(done)).
    change ([44%N] ++ ?x) with (44%N :: x).
    cbn [mbind option_bind].
    cbn [JSON.skipWS JSON.isWS JSON.startsWith N.eqb Pos.eqb orb].
    by rewrite IH.
Qed.

Lemma joined_length (l : list jsstring) :
  Forall (fun x => x ≠ []) l → (length l ≤ length (Stringify.joined l))%nat.
Proof.
  induction 1 as [|x l Hx _ IH]; [done|].
  destruct x as [|c x]; [done|]. destruct l as [|y l]; [simpl; lia|].
  change (Stringify.joined ((c :: x) :: y :: l))
    with ((c :: x) ++ [44%N] ++ Stringify.joined (y :: l)).
  rewrite !length_app. simpl in *. lia.
Qed.

(** [JSON.parse] reads back the array that [JSON.stringify] wrote for a
    log. *)
Lemma parse_stringify_history (h : list HistoryEntry.t) :
  h ≠ [] →
  JSON.parse (Stringify.array Stringify.entry h) = inr (JArray (entryJSON <$> h)).
Proof.
  intros Hne. unfold JSON.parse, Stringify.array.
  assert (∃ f, JSON.parseFuel
                 ([91%N] ++ Stringify.joined (Stringify.entry <$> h) ++ [93%N])
               = S (length h + 6 + f)) as [f ->].
  { unfold JSON.parseFuel. rewrite !length_app.
    pose proof (joined_length (Stringify.entry <$> h)) as Hlen.
    rewrite length_fmap in Hlen.
    assert (length h ≠ 0)%nat by (by destruct h).
    exists (2 * length (Stringify.joined (Stringify.entry <$> h)) - length h - 1)%nat.
    simpl.
    cut (length h ≤ length (Stringify.joined (Stringify.entry <$> h)))%nat; [lia|].
    apply Hlen, Forall_fmap, Forall_forall. intros e _. by destruct e. }
  assert (∃ t, Stringify.joined (Stringify.entry <$> h) ++ [93%N] = 123%N :: t)
    as [t Ht].
  { destruct h as [|e [|e' h]]; [done|..].
    - eexists.
      change (Stringify.joined (Stringify.entry <$> [e])) with (Stringify.entry e).
      rewrite entry_text. reflexivity.
    - eexists.
      change (Stringify.joined (Stringify.entry <$> e :: e' :: h))
        with (Stringify.entry e ++ [44%N]
              ++ Stringify.joined (Stringify.entry <$> e' :: h)).
      rewrite <- !app_assoc, entry_text. reflexivity. }
  change (JSON.value (S ?n) ([91%N] ++ ?s))
    with (match JSON.startsWith 93 (JSON.skipWS s) with
          | Some rest => Some (JArray [], rest)
          | None => '(vs, rest) ← JSON.elements n s; Some (JArray vs, rest)
          end).
  rewrite Ht. cbn [JSON.skipWS JSON.isWS JSON.startsWith N.eqb Pos.eqb orb].
  rewrite <- Ht, elements_joined by done. reflexivity.
Qed.

Lemma asEntryType_entryType (ty : EntryType) :
  asEntryType (Some (JString (Stringify.entryType ty))) = Some ty.
Proof. destruct ty; vm_compute; reflexivity. Qed.

Lemma entryOfJSON_entryJSON (e : HistoryEntry.t) :
  Z.abs (HistoryEntry.timestamp e) ≤ 2 ^ 53 →
  entryOfJSON (entryJSON e) = Some e.
Proof.
  destruct e as [i ty c ts]. cbn [HistoryEntry.timestamp]. intros Hts.
  unfold entryOfJSON, entryJSON.
  cbn [HistoryEntry.id HistoryEntry.type HistoryEntry.content HistoryEntry.timestamp].
  change (getProp "id" _) with (Some (JString i)).
  change (getProp "type" _) with (Some (JString (Stringify.entryType ty))).
  change (getProp "content" _) with (Some (JString c)).
  change (getProp "timestamp" _) with (Some (JNumber ts 0)).
  cbn [asString mbind option_bind].
  rewrite asEntryType_entryType.
  cbn [mbind option_bind]. unfold asInteger.
  change (0 <=? 0) with true. cbn [mbind option_bind].
  change (10 ^ 0) with 1. rewrite Z.mul_1_r.
  apply Z.leb_le in Hts. by rewrite Hts.
Qed.

Lemma historyOfJSON_entryJSON (h : list HistoryEntry.t) :
  Forall (fun e => Z.abs (HistoryEntry.timestamp e) ≤ 2 ^ 53) h →
  arrayOfJSON entryOfJSON (JArray (entryJSON <$> h)) = Some h.
Proof.
  intros Hh. unfold arrayOfJSON. apply mapM_Some. apply Forall2_fmap_l.
  apply Forall_Forall2_diag. eapply Forall_impl; [exact Hh|].
  intros e He. by apply entryOfJSON_entryJSON.
Qed.

(** What the saving effect stored, the mount effect loads: the log comes
    back as it was. *)
Lemma persist_load_history (st st0 : AppState) (store : Storage) :
  history st ≠ [] →
  Forall (fun e => Z.abs (HistoryEntry.timestamp e) ≤ 2 ^ 53) (history st) →
  loadHistory (persistHistory st store) st0
  = Mounted (setHistory (fun _ => history st) st0).
Proof.
  intros Hne Hsafe. unfold loadHistory, loadParsed, persistHistory.
  destruct (history st) as [|e h] eqn:Hh; [done|].
  rewrite lookup_insert_eq.
  rewrite parse_stringify_history, historyOfJSON_entryJSON by done.
  reflexivity.
Qed.

(** ** The fuel of the parser *)

Lemma skipWS_length (s : jsstring) : (length (JSON.skipWS s) ≤ length s)%nat.
Proof.
  induction s as [|c s IH]; simpl; [lia|]. destruct (JSON.isWS c); simpl; lia.
Qed.

Lemma startsWith_length (c : N) (s t : jsstring) :
  JSON.startsWith c s = Some t → length s = S (length t).
Proof.
  destruct s as [|d s]; simpl; [done|]. destruct (d =? c)%N; [|done].
  by intros [= ->].
Qed.

Lemma stringBody_length (s body rest : jsstring) :
  JSON.stringBody s = Some (body, rest) → (length rest < length s)%nat.
Proof.
  remember (length s) as n eqn:Hn. revert s body rest Hn.
  induction (lt_wf n) as [n _ IH]. intros s body rest -> H.
  destruct s as [|c s1]; [done|]. cbn [JSON.stringBody] in H.
  destruct (c =? 34)%N.
  { injection H as _ ->. simpl. lia. }
  destruct (c =? 92)%N.
  - destruct s1 as [|e s2]; [done|]. destruct (e =? 117)%N.
    + destruct s2 as [|h1 [|h2 [|h3 [|h4 s3]]]]; try done.
      destruct (JSON.hex4 h1 h2 h3 h4); [|done]. simpl in H.
      destruct (JSON.stringBody s3) as [[b r]|] eqn:Hs3; [|done].
      injection H as _ ->.
      pose proof (IH (length s3) ltac:(simpl; lia) s3 b rest eq_refl Hs3).
      simpl. lia.
    + destruct (JSON.simpleEscape e); [|done]. simpl in H.
      destruct (JSON.stringBody s2) as [[b r]|] eqn:Hs2; [|done].
      injection H as _ ->.
      pose proof (IH (length s2) ltac:(simpl; lia) s2 b rest eq_refl Hs2).
      simpl. lia.
  - destruct (c <? 32)%N; [done|].
    destruct (JSON.stringBody s1) as [[b r]|] eqn:Hs1; [|done].
    injection H as _ ->.
    pose proof (IH (length s1) ltac:(simpl; lia) s1 b rest eq_refl Hs1).
    simpl. lia.
Qed.

Lemma digits_length (acc : Z) (n : nat) (s : jsstring) :
  (length (JSON.digits acc n s).2 ≤ length s)%nat.
Proof.
  revert acc n. induction s as [|c s IH]; intros acc n; simpl; [lia|].
  destruct (JSON.isDigit c); simpl; [|lia].
  specialize (IH (10 * acc + Z.of_N (c - 48)) (S n)). lia.
Qed.

Lemma fraction_length (i : Z) (s : jsstring) (m : Z) (fl : nat) (r : jsstring) :
  JSON.fraction i s = Some (m, fl, r) → (length r ≤ length s)%nat.
Proof.
  unfold JSON.fraction.
  destruct (JSON.startsWith 46 s) as [r1|] eqn:H1.
  - apply startsWith_length in H1. pose proof (digits_length i 0 r1) as Hd.
    destruct (JSON.digits i 0 r1) as [[m' fl'] r2]. simpl in Hd.
    destruct (fl' =? 0)%nat; [done|]. intros [= _ _ <-]. lia.
  - by intros [= _ _ <-].
Qed.

Lemma exponent_length (s : jsstring) (x : Z) (r : jsstring) :
  JSON.exponent s = Some (x, r) → (length r ≤ length s)%nat.
Proof.
  unfold JSON.exponent. destruct s as [|e r1]; [by intros [= _ <-]|].
  destruct ((e =? 101) || (e =? 69))%N; [|by intros [= _ <-]].
  assert (∀ neg r2, (length r2 ≤ length r1)%nat →
            (let '(x, xl, r3) := JSON.digits 0 0 r2 in
             if (xl =? 0)%nat then None else Some (if neg : bool then - x else x, r3))
            = Some (x, r) → (length r ≤ length (e :: r1))%nat) as Hgen.
  { intros neg r2 Hr2. pose proof (digits_length 0 0 r2) as Hd.
    destruct (JSON.digits 0 0 r2) as [[x' xl] r3]. simpl in Hd.
    destruct (xl =? 0)%nat; [done|]. intros [= _ <-]. simpl. lia. }
  destruct (JSON.startsWith 45 r1) as [r2|] eqn:H45.
  { apply startsWith_length in H45. apply (Hgen true). lia. }
  destruct (JSON.startsWith 43 r1) as [r2|] eqn:H43.
  { apply startsWith_length in H43. apply (Hgen false). lia. }
  by apply (Hgen false).
Qed.

Lemma unsignedNumber_length (s : jsstring) (m e : Z) (r : jsstring) :
  JSON.unsignedNumber s = Some (m, e, r) → (length r < length s)%nat.
Proof.
  unfold JSON.unsignedNumber. destruct s as [|c s1]; [done|].
  destruct (JSON.isDigit c) eqn:Hc; [|done].
  assert (∀ i rest, (length rest ≤ length s1)%nat →
            ('(m, fl, rest) ← JSON.fraction i rest;
             '(x, rest) ← JSON.exponent rest; Some (m, x - Z.of_nat fl, rest))
            = Some (m, e, r) → (length r < length (c :: s1))%nat) as Hgen.
  { intros i rest Hrest H.
    destruct (JSON.fraction i rest) as [[[m' fl] rest1]|] eqn:Hf; [|done].
    apply fraction_length in Hf. simpl in H.
    destruct (JSON.exponent rest1) as [[x rest2]|] eqn:He; [|done].
    apply exponent_length in He. injection H as _ _ <-. simpl. lia. }
  destruct (c =? 48)%N; [by apply Hgen|].
  pose proof (digits_length (10 * 0 + Z.of_N (c - 48)) 1 s1) as Hd.
  cbn [JSON.digits]. rewrite Hc.
  destruct (JSON.digits _ 1 s1) as [[i n] rest]. simpl in Hd. by apply Hgen.
Qed.

Lemma number_length (s : jsstring) (v : JSValue) (r : jsstring) :
  JSON.number s = Some (v, r) → (length r < length s)%nat.
Proof.
  unfold JSON.number. destruct (JSON.startsWith 45 s) as [s1|] eqn:H45.
  - apply startsWith_length in H45.
    destruct (JSON.unsignedNumber s1) as [[[m e] rest]|] eqn:Hu; [|done].
    apply unsignedNumber_length in Hu. intros [= _ <-]. lia.
  - destruct (JSON.unsignedNumber s) as [[[m e] rest]|] eqn:Hu; [|done].
    apply unsignedNumber_length in Hu. by intros [= _ <-].
Qed.

Lemma keyword_length (w : string) (s r : jsstring) :
  js w ≠ [] → JSON.keyword w s = Some r → (length r < length s)%nat.
Proof.
  unfold JSON.keyword. intros Hw. case_decide as Ht; [|done]. intros [= <-].
  apply (f_equal length) in Ht. rewrite length_take in Ht. rewrite length_drop.
  destruct (js w); [done|]. cbn [length] in *. lia.
Qed.

Lemma value_unfold (f : nat) (s : jsstring) :
  JSON.value (S f) s
  = match JSON.skipWS s with
    | [] => None
    | c :: s1 =>
        if (c =? 123)%N then
          match JSON.startsWith 125 (JSON.skipWS s1) with
          | Some rest => Some (JObject [], rest)
          | None => '(ms, rest) ← JSON.members f s1; Some (JObject ms, rest)
          end
        else if (c =? 91)%N then
          match JSON.startsWith 93 (JSON.skipWS s1) with
          | Some rest => Some (JArray [], rest)
          | None => '(vs, rest) ← JSON.elements f s1; Some (JArray vs, rest)
          end
        else if (c =? 34)%N then
          '(str, rest) ← JSON.stringBody s1; Some (JString str, rest)
        else if (c =? 116)%N then
          rest ← JSON.keyword "true" (c :: s1); Some (JBool true, rest)
        else if (c =? 102)%N then
          rest ← JSON.keyword "false" (c :: s1); Some (JBool false, rest)
        else if (c =? 110)%N then
          rest ← JSON.keyword "null" (c :: s1); Some (JNull, rest)
        else JSON.number (c :: s1)
    end.
Proof. reflexivity. Qed.

Lemma members_unfold (f : nat) (s : jsstring) :
  JSON.members (S f) s
  = s1 ← JSON.startsWith 34 (JSON.skipWS s);
    '(k, rest) ← JSON.stringBody s1;
    rest1 ← JSON.startsWith 58 (JSON.skipWS rest);
    '(v, rest2) ← JSON.value f rest1;
    match JSON.startsWith 44 (JSON.skipWS rest2) with
    | Some rest3 =>
        '(ms, rest4) ← JSON.members f rest3; Some ((k, v) :: ms, rest4)
    | None => rest3 ← JSON.startsWith 125 (JSON.skipWS rest2); Some ([(k, v)], rest3)
    end.
Proof. reflexivity. Qed.

(** A result obtained with some fuel is obtained with twice the number of
    code units it consumed, and with any more. *)
Lemma fuel_adequate (f : nat) :
  (∀ s v r, JSON.value f s = Some (v, r) →
     (length r < length s)%nat
     ∧ ∀ g, (2 * (length s - length r) ≤ g)%nat → JSON.value g s = Some (v, r))
  ∧ (∀ s vs r, JSON.elements f s = Some (vs, r) →
     (length r < length s)%nat
     ∧ ∀ g, (2 * (length s - length r) + 1 ≤ g)%nat →
            JSON.elements g s = Some (vs, r))
  ∧ (∀ s ms r, JSON.members f s = Some (ms, r) →
     (length r < length s)%nat
     ∧ ∀ g, (2 * (length s - length r) + 1 ≤ g)%nat →
            JSON.members g s = Some (ms, r)).
Proof.
  induction f as [|f (IHv & IHe & IHm)]; [by split_and!|].
  split_and!.
  - intros s v r. rewrite value_unfold.
    pose proof (skipWS_length s) as Hws.
    destruct (JSON.skipWS s) as [|c s1] eqn:Hs; [done|]. cbn [length] in Hws.
    destruct (c =? 123)%N eqn:H123.
    { pose proof (skipWS_length s1) as Hws1.
      destruct (JSON.startsWith 125 (JSON.skipWS s1)) as [rest|] eqn:H125.
      - intros [= <- <-]. apply startsWith_length in H125 as Hlen.
        split; [lia|]. intros [|g] Hg; [lia|].
        by rewrite value_unfold, Hs, H123, H125.
      - destruct (JSON.members f s1) as [[ms rest]|] eqn:Hm; [|done].
        intros [= <- <-]. destruct (IHm _ _ _ Hm) as [Hlen Hfuel].
        split; [lia|]. intros [|g] Hg; [lia|].
        rewrite value_unfold, Hs, H123, H125, Hfuel by lia. done. }
    destruct (c =? 91)%N eqn:H91.
    { pose proof (skipWS_length s1) as Hws1.
      destruct (JSON.startsWith 93 (JSON.skipWS s1)) as [rest|] eqn:H93.
      - intros [= <- <-]. apply startsWith_length in H93 as Hlen.
        split; [lia|]. intros [|g] Hg; [lia|].
        by rewrite value_unfold, Hs, H123, H91, H93.
      - destruct (JSON.elements f s1) as [[vs rest]|] eqn:He; [|done].
        intros [= <- <-]. destruct (IHe _ _ _ He) as [Hlen Hfuel].
        split; [lia|]. intros [|g] Hg; [lia|].
        rewrite value_unfold, Hs, H123, H91, H93, Hfuel by lia. done. }
    destruct (c =? 34)%N eqn:H34.
    { destruct (JSON.stringBody s1) as [[str rest]|] eqn:Hb; [|done].
      intros [= <- <-]. apply stringBody_length in Hb as Hlen.
      split; [lia|]. intros [|g] Hg; [lia|].
      by rewrite value_unfold, Hs, H123, H91, H34, Hb. }
    destruct (c =? 116)%N eqn:H116.
    { destruct (JSON.keyword "true" (c :: s1)) as [rest|] eqn:Hk; [|done].
      intros [= <- <-]. apply keyword_length in Hk as Hlen; [|done].
      cbn [length] in Hlen.
      split; [lia|]. intros [|g] Hg; [lia|].
      by rewrite value_unfold, Hs, H123, H91, H34, H116, Hk. }
    destruct (c =? 102)%N eqn:H102.
    { destruct (JSON.keyword "false" (c :: s1)) as [rest|] eqn:Hk; [|done].
      intros [= <- <-]. apply keyword_length in Hk as Hlen; [|done].
      cbn [length] in Hlen.
      split; [lia|]. intros [|g] Hg; [lia|].
      by rewrite value_unfold, Hs, H123, H91, H34, H116, H102, Hk. }
    destruct (c =? 110)%N eqn:H110.
    { destruct (JSON.keyword "null" (c :: s1)) as [rest|] eqn:Hk; [|done].
      intros [= <- <-]. apply keyword_length in Hk as Hlen; [|done].
      cbn [length] in Hlen.
      split; [lia|]. intros [|g] Hg; [lia|].
      by rewrite value_unfold, Hs, H123, H91, H34, H116, H102, H110, Hk. }
    intros Hn. apply number_length in Hn as Hlen. cbn [length] in Hlen.
    split; [lia|]. intros [|g] Hg; [lia|].
    by rewrite value_unfold, Hs, H123, H91, H34, H116, H102, H110.
  - intros s vs r. rewrite elements_unfold.
    destruct (JSON.value f s) as [[v rest]|] eqn:Hv; [|done].
    destruct (IHv _ _ _ Hv) as [Hlen Hfuel]. cbn [mbind option_bind].
    pose proof (skipWS_length rest) as Hws.
    destruct (JSON.startsWith 44 (JSON.skipWS rest)) as [rest'|] eqn:H44.
    + apply startsWith_length in H44 as Hlen'.
      destruct (JSON.elements f rest') as [[vs' r']|] eqn:He; [|done].
      intros [= <- <-]. destruct (IHe _ _ _ He) as [Hlen2 Hfuel2].
      split; [lia|]. intros [|g] Hg; [lia|].
      rewrite elements_unfold, Hfuel by lia. cbn [mbind option_bind].
      rewrite H44, Hfuel2 by lia. done.
    + destruct (JSON.startsWith 93 (JSON.skipWS rest)) as [rest'|] eqn:H93; [|done].
      apply startsWith_length in H93 as Hlen'. intros [= <- <-].
      split; [lia|]. intros [|g] Hg; [lia|].
      rewrite elements_unfold, Hfuel by lia. cbn [mbind option_bind].
      by rewrite H44, H93.
  - intros s ms r. rewrite members_unfold.
    pose proof (skipWS_length s) as Hws.
    destruct (JSON.startsWith 34 (JSON.skipWS s)) as [s1|] eqn:H34; [|done].
    apply startsWith_length in H34 as Hlen1. cbn [mbind option_bind].
    destruct (JSON.stringBody s1) as [[k rest]|] eqn:Hk; [|done].
    apply stringBody_length in Hk as Hlen2. cbn [mbind option_bind].
    pose proof (skipWS_length rest) as Hws2.
    destruct (JSON.startsWith 58 (JSON.skipWS rest)) as [rest1|] eqn:H58; [|done].
    apply startsWith_length in H58 as Hlen3. cbn [mbind option_bind].
    destruct (JSON.value f rest1) as [[v rest2]|] eqn:Hv; [|done].
    destruct (IHv _ _ _ Hv) as [Hlen4 Hfuel]. cbn [mbind option_bind].
    pose proof (skipWS_length rest2) as Hws3.
    destruct (JSON.startsWith 44 (JSON.skipWS rest2)) as [rest3|] eqn:H44.
    + apply startsWith_length in H44 as Hlen5.
      destruct (JSON.members f rest3) as [[ms' r']|] eqn:Hm; [|done].
      intros [= <- <-]. destruct (IHm _ _ _ Hm) as [Hlen6 Hfuel2].
      split; [lia|]. intros [|g] Hg; [lia|].
      rewrite members_unfold, H34. cbn [mbind option_bind].
      rewrite Hk. cbn [mbind option_bind]. rewrite H58. cbn [mbind option_bind].
      rewrite Hfuel by lia. cbn [mbind option_bind].
      rewrite H44, Hfuel2 by lia. done.
    + destruct (JSON.startsWith 125 (JSON.skipWS rest2)) as [rest3|] eqn:H125;
        [|done].
      apply startsWith_length in H125 as Hlen5. intros [= <- <-].
      split; [lia|]. intros [|g] Hg; [lia|].
      rewrite members_unfold, H34. cbn [mbind option_bind].
      rewrite Hk. cbn [mbind option_bind]. rewrite H58. cbn [mbind option_bind].
      rewrite Hfuel by lia. cbn [mbind option_bind].
      by rewrite H44, H125.
Qed.

(** [JSON.parse] never fails for want of fuel: a value that some fuel
    reads, [parseFuel] reads as well. *)
Theorem parse_fuel_enough (f : nat) (s : jsstring) (v : JSValue) (r : jsstring) :
  JSON.value f s = Some (v, r) → JSON.value (JSON.parseFuel s) s = Some (v, r).
Proof.
  intros H. destruct (fuel_adequate f) as (Hv & _ & _).
  destruct (Hv s v r H) as [Hlen Hfuel]. apply Hfuel.
  unfold JSON.parseFuel. lia.
Qed.

(** ** Loading the history *)

Lemma loadParsed_cases {A} (key : string) (decode : JSValue → option A)
    (set : A → AppState → AppState) (store : Storage) (st : AppState) :
  (store !! key = None ∨ store !! key = Some [] →
     loadParsed key decode set store st = Mounted st)
  ∧ (∀ saved v x, store !! key = Some saved → saved ≠ [] →
       JSON.parse saved = inr v → decode v = Some x →
       loadParsed key decode set store st = Mounted (set x st))
  ∧ (∀ saved e, store !! key = Some saved → saved ≠ [] →
       JSON.parse saved = inl e →
       loadParsed key decode set store st = Crashed e).
Proof.
  unfold loadParsed. split_and!.
  - intros [H | H]; by rewrite H.
  - intros saved v x Hs Hne Hp Hd. rewrite Hs, Hp, Hd. by destruct saved.
  - intros saved e Hs Hne Hp. rewrite Hs, Hp. by destruct saved.
Qed.

(** C7, as the code has it. Loading the history leaves the log empty when
    the key is absent or holds the empty string, and installs the stored log
    when the value parses to one; a value that is not empty and does not
    parse makes [JSON.parse] throw inside the effect, which nothing catches:
    the load fails with that error, and so does the whole mount effect once
    the stories were read. *)
Theorem loadHistory_outcome (store : Storage) (st : AppState) :
  (store !! "ai-history" = None ∨ store !! "ai-history" = Some [] →
     loadHistory store st = Mounted st)
  ∧ (∀ saved v h, store !! "ai-history" = Some saved → saved ≠ [] →
       JSON.parse saved = inr v → arrayOfJSON entryOfJSON v = Some h →
       loadHistory store st = Mounted (setHistory (fun _ => h) st)
       ∧ history (setHistory (fun _ => h) st) = h)
  ∧ (∀ st1 store1, history st1 ≠ [] →
       Forall (fun e => Z.abs (HistoryEntry.timestamp e) ≤ 2 ^ 53) (history st1) →
       loadHistory (persistHistory st1 store1) st
       = Mounted (setHistory (fun _ => history st1) st))
  ∧ (∀ saved e, store !! "ai-history" = Some saved → saved ≠ [] →
       JSON.parse saved = inl e →
       loadHistory store st = Crashed e
       ∧ ∀ st0, loadStories store st0 = Mounted st →
                mountEffect store st0 = Crashed e).
Proof.
  destruct (loadParsed_cases "ai-history" (arrayOfJSON entryOfJSON)
              (fun h => setHistory (fun _ => h)) store st) as (H1 & H2 & H3).
  split_and!; [done| | |].
  - intros saved v h ? ? ? ?. split; [by eapply H2|done].
  - intros st1 store1. apply persist_load_history.
  - intros saved e Hs Hne He. split; [by eapply H3|].
    intros st0 Hst. unfold mountEffect. rewrite Hst. simpl.
    unfold loadHistory. by rewrite (H3 saved e).
Qed.

Lemma loadHistory_outcome_witness :
  (∃ saved v, exampleStore !! "ai-history" = Some saved ∧ saved ≠ []
     ∧ JSON.parse saved = inr v ∧ arrayOfJSON entryOfJSON v = Some exampleLog)
  ∧ loadHistory exampleStore initialState
    = Mounted (setHistory (fun _ => exampleLog) initialState).
Proof.
  assert (H : ∃ saved v, exampleStore !! "ai-history" = Some saved ∧ saved ≠ []
     ∧ JSON.parse saved = inr v ∧ arrayOfJSON entryOfJSON v = Some exampleLog).
  { eexists _, _. split_and!.
    - vm_compute. reflexivity.
    - discriminate.
    - vm_compute. reflexivity.
    - vm_compute. reflexivity. }
  split; [exact H|].
  destruct H as (saved & v & H1 & H2 & H3 & H4).
  exact (proj1 (proj1 (proj2 (loadHistory_outcome exampleStore initialState))
                  saved v exampleLog H1 H2 H3 H4)).
Defined.

(** C7 as the specification words it fails: a stored history that does not
    parse is not read as an empty log, the load throws. *)
Lemma loadHistory_corrupt_counterexample :
  JSON.parse (js "{oops") = inl JSON.syntaxError
  ∧ corruptStore !! "ai-history" = Some (js "{oops")
  ∧ loadHistory corruptStore initialState = Crashed JSON.syntaxError
  ∧ mountEffect corruptStore initialState = Crashed JSON.syntaxError
  ∧ ¬ (∀ store st saved e,
         store !! "ai-history" = Some saved → JSON.parse saved = inl e →
         ∃ st', loadHistory store st = Mounted st' ∧ history st' = []).
Proof.
  assert (H1 : JSON.parse (js "{oops") = inl JSON.syntaxError)
    by (vm_compute; reflexivity).
  assert (H2 : corruptStore !! "ai-history" = Some (js "{oops"))
    by (vm_compute; reflexivity).
  assert (H3 : loadHistory corruptStore initialState = Crashed JSON.syntaxError)
    by (vm_compute; reflexivity).
  assert (H4 : mountEffect corruptStore initialState = Crashed JSON.syntaxError)
    by (vm_compute; reflexivity).
  split; [exact H1|]. split; [exact H2|]. split; [exact H3|]. split; [exact H4|].
  intros H. destruct (H corruptStore initialState _ _ H2 H1) as (st' & Hst' & _).
  rewrite H3 in Hst'. discriminate.
Qed.

(** ** The state machine *)

Lemma machineInvariant_transition (s : aiMachine.Snapshot) (ev : aiMachine.Events) :
  machineInvariant s → machineInvariant (aiMachine.transition s ev).
Proof.
  unfold machineInvariant, aiMachine.transition.
  destruct s as [v ctx ch]. cbn [aiMachine.value aiMachine.context aiMachine.children].
  destruct v, ev as [| | | | |[]]; simpl; intros H; try done; try tauto.
Qed.

Lemma machineInvariant_after (evs : list aiMachine.Events) :
  machineInvariant (aiMachine.after evs).
Proof.
  unfold aiMachine.after.
  induction evs as [|ev evs IH] using rev_ind; [done|].
  rewrite foldl_app. by apply machineInvariant_transition.
Qed.

(** C8, as the code has it. In every snapshot the machine reaches, the error
    is set only in [failure] or in [idle], where it stays after a CANCEL
    until the next GENERATE; it is set in [failure] and [null] in
    [generating] and in [success]. Every transition that ends in
    [generating] leaves the error [null]. CANCEL keeps the context, error
    included. *)
Theorem error_only_after_failure (evs : list aiMachine.Events) :
  let s := aiMachine.after evs in
  (aiMachine.error (aiMachine.context s) ≠ None →
     aiMachine.value s = aiMachine.failure ∨ aiMachine.value s = aiMachine.idle)
  ∧ (aiMachine.value s = aiMachine.failure →
     aiMachine.error (aiMachine.context s) ≠ None)
  ∧ (∀ ev, aiMachine.value (aiMachine.transition s ev) = aiMachine.generating →
       aiMachine.error (aiMachine.context (aiMachine.transition s ev)) = None)
  ∧ aiMachine.context (aiMachine.transition s aiMachine.CANCEL)
    = aiMachine.context s
  ∧ (aiMachine.value s = aiMachine.failure →
     aiMachine.value (aiMachine.transition s aiMachine.CANCEL) = aiMachine.idle
     ∧ aiMachine.error
         (aiMachine.context (aiMachine.transition s aiMachine.CANCEL)) ≠ None).
Proof.
  cbv zeta. split_and!.
  - pose proof (machineInvariant_after evs) as H. unfold machineInvariant in H.
    destruct (aiMachine.value (aiMachine.after evs)); intros Herr;
      try (by left); try (by right); by destruct H.
  - pose proof (machineInvariant_after evs) as H. unfold machineInvariant in H.
    intros Hv. rewrite Hv in H. by destruct H.
  - intros ev Hv.
    pose proof (machineInvariant_after (evs ++ [ev])) as H.
    unfold aiMachine.after in H. rewrite foldl_app in H. simpl in H.
    fold (aiMachine.after evs) in H.
    unfold machineInvariant in H. rewrite Hv in H. by destruct H.
  - unfold aiMachine.transition.
    by destruct (aiMachine.value (aiMachine.after evs)).
  - pose proof (machineInvariant_after evs) as H. unfold machineInvariant in H.
    intros Hv. unfold aiMachine.transition. rewrite Hv in *. by destruct H.
Qed.

Lemma error_only_after_failure_witness :
  aiMachine.value (aiMachine.after
    [aiMachine.GENERATE None;
     aiMachine.error_callGrok (ErrorInstance (js "Not implemented"))])
  = aiMachine.failure
  ∧ aiMachine.error (aiMachine.context (aiMachine.after
      [aiMachine.GENERATE None;
       aiMachine.error_callGrok (ErrorInstance (js "Not implemented"))])) ≠ None.
Proof.
  assert (H : aiMachine.value (aiMachine.after
    [aiMachine.GENERATE None;
     aiMachine.error_callGrok (ErrorInstance (js "Not implemented"))])
    = aiMachine.failure) by reflexivity.
  split; [exact H|].
  exact (proj1 (proj2 (error_only_after_failure
    [aiMachine.GENERATE None;
     aiMachine.error_callGrok (ErrorInstance (js "Not implemented"))])) H).
Defined.

(** C8 as the specification words it fails: after a failure and a CANCEL the
    machine is in [idle] with the error still set. *)
Lemma cancel_keeps_error_counterexample :
  aiMachine.value (aiMachine.after cancelledRun) = aiMachine.idle
  ∧ aiMachine.error (aiMachine.context (aiMachine.after cancelledRun))
    = Some (js "Not implemented")
  ∧ ¬ (∀ evs,
         aiMachine.error (aiMachine.context (aiMachine.after evs)) ≠ None →
         aiMachine.value (aiMachine.after evs) = aiMachine.failure).
Proof.
  split; [reflexivity|]. split; [reflexivity|].
  intros H. specialize (H cancelledRun). discriminate H. discriminate.
Qed.

(** The machine keeps to one invocation: in every snapshot it reaches at
    most one actor runs, and in [generating] a GENERATE changes nothing. *)
Lemma machine_single_flight (evs : list aiMachine.Events) (prompt : option jsstring) :
  (length (aiMachine.children (aiMachine.after evs)) ≤ 1)%nat
  ∧ (aiMachine.value (aiMachine.after evs) = aiMachine.generating →
     aiMachine.transition (aiMachine.after evs) (aiMachine.GENERATE prompt)
     = aiMachine.after evs).
Proof.
  split.
  - pose proof (machineInvariant_after evs) as H. unfold machineInvariant in H.
    destruct (aiMachine.value (aiMachine.after evs)).
    + rewrite H. simpl. lia.
    + destruct H as [_ ->]. lia.
    + destruct H as [_ ->]. simpl. lia.
    + destruct H as [_ ->]. simpl. lia.
  - intros Hv. unfold aiMachine.transition. by rewrite Hv.
Qed.

(** ** One request at a time *)

(** While the status is [generating] the button is disabled: a click on it
    is not an event of the world. *)
Lemma continue_disabled_while_generating (E : Engine) (w : World) (now1 now2 : Z) :
  status (app w) = Status.generating →
  step E w (ClickContinue now1 now2) = None.
Proof. intros H. unfold step, continueDisabled. by rewrite H. Qed.

Lemma saveStory_status (now1 now2 : Z) (st : AppState) :
  status (saveStory now1 now2 st) = status st.
Proof.
  unfold saveStory. destruct (negb _); [done|].
  by destruct (currentStoryId st) as [[]|].
Qed.

Lemma deleteStory_status (id : jsstring) (st : AppState) :
  status (deleteStory id st) = status st.
Proof. unfold deleteStory. by case_decide. Qed.

Lemma inFlight_length (w : World) : (length (inFlight w) ≤ length (tasks w))%nat.
Proof.
  unfold inFlight. induction (tasks w) as [|t ts IH]; [done|].
  destruct t; cbn [omap list_omap length] in *; lia.
Qed.

(** As long as the timer of a success does not fire while a call is
    suspended, the disabled button does keep the calls apart. *)
Lemma step_oneAtATime (E : Engine) (w : World) (ev : Event) (w' : World) :
  (ev = IdleTimer → tasks w = []) →
  oneAtATime w → step E w ev = Some w' → oneAtATime w'.
Proof.
  unfold oneAtATime. intros Htimer [Hlen Hgen]. unfold step.
  destruct ev as [now1 now2|i|i outcome now1 now2| | | |now1 now2|i| |i| |text].
  - unfold continueDisabled.
    destruct (status (app w)) eqn:Hst; try done;
      (destruct (tasks w) as [|t ts] eqn:Hts; [|by specialize (Hgen ltac:(done))]);
      unfold handleContinue_start;
      destruct (negb _); intros [= <-]; simpl; split; (lia || done).
  - destruct (tasks w !! i) as [[]|] eqn:Hi; try done.
    intros [= <-]. simpl. rewrite length_insert. split; [done|].
    intros _. apply Hgen. intros Hnil. by rewrite Hnil in Hi.
  - destruct (tasks w !! i) as [[]|] eqn:Hi; try done.
    destruct (handleContinue_settle E outcome now1 now2 (app w))
      as [[st timer]|]; [|done].
    intros [= <-]. simpl.
    assert (delete i (tasks w) = []) as ->.
    { destruct (tasks w) as [|t [|t' ts]]; simpl in *; [done| |lia].
      by destruct i. }
    split; [simpl; lia|done].
  - destruct (idleTimers w); [done|]. intros [= <-]. simpl.
    rewrite (Htimer eq_refl). split; [simpl; lia|done].
  - unfold handleClear. by destruct (showClearConfirm (app w)); intros [= <-].
  - destruct (confirmTimers w); [done|]. by intros [= <-].
  - intros [= <-]. simpl. by rewrite saveStory_status.
  - destruct (stories (app w) !! i); [|done]. by intros [= <-].
  - by intros [= <-].
  - destruct (stories (app w) !! i); [|done]. intros [= <-]. simpl.
    by rewrite deleteStory_status.
  - by intros [= <-].
  - by intros [= <-].
Qed.

Lemma run_oneAtATime (E : Engine) (evs : list Event) (w0 w : World) :
  IdleTimer ∉ evs → oneAtATime w0 → run E w0 evs = Some w → oneAtATime w.
Proof.
  revert w0. induction evs as [|ev evs IH]; intros w0 Hno H0; simpl.
  - by intros [= <-].
  - destruct (step E w0 ev) as [w1|] eqn:Hstep; [|done]. simpl.
    apply IH.
    + intros Hin. apply Hno. by right.
    + eapply step_oneAtATime; [|done|done].
      intros ->. exfalso. apply Hno. left.
Qed.

(** X1. While no timer of a success fires, the disabled button keeps the
    calls of [handleContinue] apart: whatever else happens, at most one
    request to the provider is out at any time. *)
Lemma single_flight_without_timer (E : Engine) (st : AppState)
    (evs : list Event) (w : World) :
  IdleTimer ∉ evs → run E (started st) evs = Some w →
  (length (inFlight w) ≤ 1)%nat.
Proof.
  intros Hno Hrun.
  destruct (run_oneAtATime E evs (started st) w Hno) as [Hlen _]; [|done|].
  - split; [simpl; lia|done].
  - etrans; [apply inFlight_length|done].
Qed.

Lemma single_flight_without_timer_witness :
  ∃ w, run exampleEngine writing [ClickContinue 1000 1001; PauseElapsed 0] = Some w
    ∧ (length (inFlight w) ≤ 1)%nat.
Proof.
  assert (H1 : IdleTimer ∉ [ClickContinue 1000 1001; PauseElapsed 0]).
  { rewrite !elem_of_cons, elem_of_nil. intros [H| [H|[]]]; discriminate. }
  assert (H2 : ∃ w, run exampleEngine writing [ClickContinue 1000 1001; PauseElapsed 0]
                    = Some w).
  { eexists. vm_compute. reflexivity. }
  destruct H2 as [w H2]. exists w. split; [exact H2|].
  exact (single_flight_without_timer exampleEngine
           (typed (js "Once upon a time") initialState) _ w H1 H2).
Defined.

(** C9 at the failing run: the timer started by a success is never
    cancelled, so it resets the status to [idle] while a later request is
    out; the button is enabled again and the next click sends a second
    request next to the first. *)
Theorem stale_timer_second_request (E : Engine) :
  ∃ w, run E writing staleTimerRun = Some w
       ∧ status (app w) = Status.generating
       ∧ length (inFlight w) = 2%nat.
Proof.
  eexists. split; [|split].
  - vm_compute. reflexivity.
  - reflexivity.
  - reflexivity.
Qed.

(** ** The current story *)

Lemma run_invariant (E : Engine) (P : World → Prop) :
  (∀ w ev w', P w → step E w ev = Some w' → P w') →
  ∀ evs w w', P w → run E w evs = Some w' → P w'.
Proof.
  intros Hstep. induction evs as [|ev evs IH]; simpl; intros w w' HP Hrun.
  - by injection Hrun as <-.
  - destruct (step E w ev) as [w1|] eqn:Hw1; [|done]. simpl in Hrun.
    eapply IH; [|done]. by eapply Hstep.
Qed.

Lemma handleContinue_start_stories (now1 now2 : Z) (st : AppState) :
  stories (handleContinue_start now1 now2 st).1 = stories st
  ∧ currentStoryId (handleContinue_start now1 now2 st).1 = currentStoryId st.
Proof.
  unfold handleContinue_start. by destruct (negb _).
Qed.

Lemma handleContinue_settle_stories (E : Engine) (outcome : FetchOutcome)
    (now1 now2 : Z) (st st' : AppState) (timer : bool) :
  handleContinue_settle E outcome now1 now2 st = Some (st', timer) →
  stories st' = stories st ∧ currentStoryId st' = currentStoryId st.
Proof.
  unfold handleContinue_settle, handleContinue_finish.
  destruct (generateText E outcome) as [err|[]]; try done; by intros [= <- _].
Qed.

Lemma saveStory_currentKnown (now1 now2 : Z) (st : AppState) :
  currentKnown st → currentKnown (saveStory now1 now2 st).
Proof.
  unfold currentKnown. intros H.
  destruct (decide (trim (editorContent st) = [])) as [Hb|Hb].
  { by rewrite saveStory_blank. }
  destruct (currentStoryId st) as [[|c cid]|] eqn:Hcur.
  - rewrite saveStory_create by auto. simpl. eexists. split; [left|done].
  - rewrite (saveStory_update _ _ _ (c :: cid)) by done.
    cbn [currentStoryId stories setStories]. rewrite Hcur.
    destruct H as (s & Hs & Hid). eexists. split.
    + apply list_elem_of_fmap. by exists s.
    + simpl. by case_decide.
  - rewrite saveStory_create by auto. simpl. eexists. split; [left|done].
Qed.

Lemma deleteStory_currentKnown (id : jsstring) (st : AppState) :
  currentKnown st → currentKnown (deleteStory id st).
Proof.
  unfold currentKnown, deleteStory. intros H. case_decide as Hid; [done|].
  cbn [currentStoryId stories setStories].
  destruct (currentStoryId st) as [cid|]; [|done].
  destruct H as (s & Hs & Hs'). exists s. split; [|done].
  apply list_elem_of_filter. split; [|done]. congruence.
Qed.

Lemma step_currentKnown (E : Engine) (w : World) (ev : Event) (w' : World) :
  currentKnown (app w) → step E w ev = Some w' → currentKnown (app w').
Proof.
  intros H. unfold step.
  destruct ev as [now1 now2|i|i outcome now1 now2| | | |now1 now2|i| |i| |text].
  - destruct (continueDisabled (app w)); [done|].
    pose proof (handleContinue_start_stories now1 now2 (app w)) as [H1 H2].
    destruct (handleContinue_start now1 now2 (app w)) as [st suspended].
    intros [= <-]. unfold currentKnown in *. simpl in *. by rewrite H1, H2.
  - destruct (tasks w !! i) as [[]|]; try done. by intros [= <-].
  - destruct (tasks w !! i) as [[]|]; try done.
    destruct (handleContinue_settle E outcome now1 now2 (app w))
      as [[st timer]|] eqn:Hsettle; [|done].
    apply handleContinue_settle_stories in Hsettle as [H1 H2].
    intros [= <-]. unfold currentKnown in *. simpl. by rewrite H1, H2.
  - destruct (idleTimers w); [done|]. by intros [= <-].
  - unfold handleClear. destruct (showClearConfirm (app w)); by intros [= <-].
  - destruct (confirmTimers w); [done|]. by intros [= <-].
  - intros [= <-]. by apply saveStory_currentKnown.
  - destruct (stories (app w) !! i) as [story|] eqn:Hi; [|done].
    intros [= <-]. unfold currentKnown. simpl. exists story.
    split; [|done]. by eapply list_elem_of_lookup_2.
  - by intros [= <-].
  - destruct (stories (app w) !! i) as [story|]; [|done].
    intros [= <-]. by apply deleteStory_currentKnown.
  - by intros [= <-].
  - by intros [= <-].
Qed.

(** X2. From a start without a current story, whatever happens, the current id
    is [null] or the id of a story of the collection: [saveStory] never runs
    with a current id that no story carries. *)
Theorem current_story_exists (E : Engine) (st : AppState) (evs : list Event)
    (w : World) :
  currentStoryId st = None → run E (started st) evs = Some w →
  currentKnown (app w).
Proof.
  intros H0 Hrun.
  apply (run_invariant E (fun w => currentKnown (app w)) (step_currentKnown E)
           evs (started st) w); [|done].
  unfold currentKnown. simpl. by rewrite H0.
Qed.

Lemma current_story_exists_witness :
  ∃ w, run exampleEngine (started initialState) twoSaves = Some w
    ∧ currentStoryId (app w) = Some (js "1000")
    ∧ currentKnown (app w).
Proof.
  assert (H : ∃ w, run exampleEngine (started initialState) twoSaves = Some w
                   ∧ currentStoryId (app w) = Some (js "1000")).
  { eexists. split; vm_compute; reflexivity. }
  destruct H as (w & H1 & H2). exists w. split; [exact H1|]. split; [exact H2|].
  exact (current_story_exists exampleEngine initialState twoSaves w eq_refl H1).
Defined.

(** ** Scenarios *)

(** The editor holds "Once upon a time" and the provider answers "the hero
    arrived.": the editor then holds both, on two lines, the log has the
    reply in front of the submitted text, and the status is [success]. *)
Example scenario_continue :
  ∃ st, handleContinue exampleEngine
          (Resolved (replyResponse (js "the hero arrived."))) 1000 1001 2000 2001
          (typed (js "Once upon a time") initialState) = Some st
    ∧ editorRef st
      = Some (Some (js "Once upon a time" ++ [LF] ++ js "the hero arrived."))
    ∧ history st = [newEntry ai (js "the hero arrived.") 2000 2001;
                    newEntry user (js "Once upon a time") 1000 1001]
    ∧ status st = Status.success.
Proof. eexists. split_and!; [vm_compute; reflexivity|reflexivity..]. Qed.

(** After 51 calls the log has 50 entries, from the 51st down to the
    second. *)
Example scenario_fifty_one :
  length (appendAll [] numberedCalls) = 50%nat
  ∧ HistoryEntry.content <$> head (appendAll [] numberedCalls) = Some (js "50")
  ∧ HistoryEntry.content <$> last (appendAll [] numberedCalls) = Some (js "1").
Proof. vm_compute. done. Qed.

(** A first save creates the story, titled by its first line, and a second
    save under the id it returned rewrites that story in place. *)
Example scenario_save_twice :
  let st1 := saveStory 1000 1001 (typed chapterOne initialState) in
  let st2 := saveStory 2000 2001 (typed chapterOneRevised st1) in
  stories st1 = [Story.mk (js "1000") (js "Chapter One") chapterOne 1001]
  ∧ currentStoryId st1 = Some (js "1000")
  ∧ stories st2 = [Story.mk (js "1000") (js "Chapter One") chapterOneRevised 1001]
  ∧ currentStoryId st2 = Some (js "1000").
Proof. vm_compute. done. Qed.

(** [requestGrokCompletion], which nothing calls, resolves with an empty
    text where [generateText] throws. *)
Remark requestGrokCompletion_empty_text (E : Engine) :
  ∃ raw, requestGrokCompletion E (Resolved emptyChoicesResponse)
         = inr (raw, JString [])
    ∧ ∃ err, generateText E (Resolved emptyChoicesResponse) = inl err.
Proof. eexists. split; [reflexivity|]. by eexists. Qed.

(** ** Fresh ids *)

Lemma js_inj (a b : string) : js a = js b → a = b.
Proof.
  unfold js. intros H.
  rewrite <- (string_of_list_ascii_of_string a), <- (string_of_list_ascii_of_string b).
  f_equal. revert H. generalize (list_ascii_of_string a) (list_ascii_of_string b).
  induction l as [|x l IH]; intros [|y l']; simpl; try done.
  intros [= Hxy Hl]. f_equal; [|by apply IH].
  rewrite <- (ascii_N_embedding x), <- (ascii_N_embedding y). by rewrite Hxy.
Qed.

Lemma Number_toString_inj (a b : Z) :
  Number_toString a = Number_toString b → a = b.
Proof. intros H. apply js_inj in H. by apply (inj pretty) in H. Qed.

(** The id of a new story is new as far as the clock is: it differs from
    every id that was minted at another time. *)
Lemma saveStory_fresh_id (now1 : Z) (l : list Story.t) :
  (∀ s, s ∈ l → ∃ t, Story.id s = Number_toString t ∧ t ≠ now1) →
  ∀ s, s ∈ l → Story.id s ≠ Number_toString now1.
Proof.
  intros H s Hs Heq. destruct (H s Hs) as (t & Ht & Hne).
  rewrite Ht in Heq. by apply Number_toString_inj in Heq.
Qed.

(** ** Saving a story *)

(** C5, as the code has it, in every state that the application reaches
    from a page without a current story. With text in the editor that is
    not blank: when the current id is a non-empty string, it is the id of
    a story, and the stories with that id get the new content and title, in
    place, the collection keeps its size and the current id stays; when the
    current id is [null], is the empty string, or matches no story, a new
    story is put in front, the collection grows by one and its id becomes
    the current one. That id is fresh: it is the decimal of the clock, which
    no story carries whose id was minted at another time. With blank text
    nothing changes. *)
Theorem saveStory_upsert (E : Engine) (st0 : AppState) (evs : list Event)
    (w : World) (now1 now2 : Z) :
  currentStoryId st0 = None → run E (started st0) evs = Some w →
  let st := app w in
  let content := editorContent st in
  let st' := saveStory now1 now2 st in
  (trim content = [] → st' = st)
  ∧ (trim content ≠ [] →
     (∀ cid, currentStoryId st = Some cid → cid ≠ [] →
        (∃ s, s ∈ stories st ∧ Story.id s = cid)
        ∧ stories st'
          = (fun s => if decide (Story.id s = cid)
                      then resave content (titleOf content) s else s)
            <$> stories st
        ∧ length (stories st') = length (stories st)
        ∧ currentStoryId st' = Some cid)
     ∧ (currentStoryId st = None ∨ currentStoryId st = Some []
        ∨ (∀ s, s ∈ stories st → Some (Story.id s) ≠ currentStoryId st) →
        stories st' = storyFromEditor now1 now2 st :: stories st
        ∧ length (stories st') = S (length (stories st))
        ∧ currentStoryId st' = Some (Number_toString now1)
        ∧ Story.id (storyFromEditor now1 now2 st) = Number_toString now1
        ∧ ((∀ s, s ∈ stories st →
              ∃ t, Story.id s = Number_toString t ∧ t ≠ now1) →
           ∀ s, s ∈ stories st → Story.id s ≠ Number_toString now1))).
Proof.
  intros H0 Hrun. cbv zeta.
  assert (currentKnown (app w)) as Hk.
  { apply (run_invariant E (fun w => currentKnown (app w)) (step_currentKnown E)
             evs (started st0) w); [|done].
    unfold currentKnown. simpl. by rewrite H0. }
  destruct (saveStory_cases now1 now2 (app w)) as [Hblank Hsave].
  split; [exact Hblank|]. intros Hc. destruct (Hsave Hc) as [Hupdate Hcreate].
  split.
  - intros cid Hcur Hne. split; [|by apply Hupdate].
    unfold currentKnown in Hk. by rewrite Hcur in Hk.
  - intros Hcur.
    assert (currentStoryId (app w) = None ∨ currentStoryId (app w) = Some [])
      as Hcur'.
    { destruct Hcur as [?| [?|Hno]]; [by left|by right|]. left.
      unfold currentKnown in Hk.
      destruct (currentStoryId (app w)) as [cid|]; [|done].
      destruct Hk as (s & Hs & Hid). destruct (Hno s Hs). by rewrite Hid. }
    destruct (Hcreate Hcur') as (H1 & H2 & H3).
    split_and!; [done|done|done|done|apply saveStory_fresh_id].
Qed.

Lemma saveStory_upsert_witness :
  ∃ w, run exampleEngine (started initialState) revising = Some w
    ∧ currentStoryId (app w) = Some (js "1000")
    ∧ stories (saveStory 2000 2001 (app w))
      = [Story.mk (js "1000") (js "Chapter One") chapterOneRevised 1001].
Proof.
  assert (Hrun : ∃ w, run exampleEngine (started initialState) revising = Some w
                      ∧ currentStoryId (app w) = Some (js "1000")
                      ∧ trim (editorContent (app w)) ≠ []
                      ∧ (fun s => if decide (Story.id s = js "1000")
                                  then resave (editorContent (app w))
                                         (titleOf (editorContent (app w))) s
                                  else s) <$> stories (app w)
                        = [Story.mk (js "1000") (js "Chapter One")
                             chapterOneRevised 1001]).
  { eexists. split; [vm_compute; reflexivity|]. split; [reflexivity|].
    split; [vm_compute; discriminate|vm_compute; reflexivity]. }
  destruct Hrun as (w & Hrun & Hcur & Hne & Hst).
  exists w. split; [exact Hrun|]. split; [exact Hcur|].
  destruct (proj1 (proj2 (saveStory_upsert exampleEngine initialState revising w
                            2000 2001 eq_refl Hrun) Hne)
              (js "1000") Hcur ltac:(discriminate)) as (_ & Heq & _).
  rewrite Heq. exact Hst.
Defined.

(** C5 as the specification words it fails. The store holds a story whose
    id is the empty string; the user opens it, which makes the empty string
    the current id, types and saves: the current id refers to a story of
    the collection, and the save adds a story where the claim has it
    update that one. *)
Lemma saveStory_opened_empty_id_counterexample :
  mountEffect emptyIdStore initialState
  = Mounted (setStories [Story.mk [] (js "Old") (js "Old") 7] initialState)
  ∧ run exampleEngine
      (started (setStories [Story.mk [] (js "Old") (js "Old") 7] initialState))
      openAndType
    = Some (started emptyIdState)
  ∧ trim (editorContent emptyIdState) ≠ []
  ∧ (∃ s, s ∈ stories emptyIdState
          ∧ Some (Story.id s) = currentStoryId emptyIdState)
  ∧ length (stories emptyIdState) = 1%nat
  ∧ length (stories (saveStory 42 43 emptyIdState)) = 2%nat
  ∧ ¬ (∀ now1 now2 st,
         trim (editorContent st) ≠ [] →
         (∃ s, s ∈ stories st ∧ Some (Story.id s) = currentStoryId st) →
         length (stories (saveStory now1 now2 st)) = length (stories st)).
Proof.
  assert (H1 : mountEffect emptyIdStore initialState
               = Mounted (setStories [Story.mk [] (js "Old") (js "Old") 7]
                            initialState)) by (vm_compute; reflexivity).
  assert (H2 : run exampleEngine
                 (started (setStories [Story.mk [] (js "Old") (js "Old") 7]
                             initialState)) openAndType
               = Some (started emptyIdState)) by (vm_compute; reflexivity).
  assert (H3 : trim (editorContent emptyIdState) ≠ [])
    by (vm_compute; discriminate).
  assert (H4 : ∃ s, s ∈ stories emptyIdState
                    ∧ Some (Story.id s) = currentStoryId emptyIdState).
  { exists (Story.mk [] (js "Old") (js "Old") 7). split; [left|reflexivity]. }
  assert (H5 : length (stories (saveStory 42 43 emptyIdState)) = 2%nat)
    by (vm_compute; reflexivity).
  split; [exact H1|]. split; [exact H2|]. split; [exact H3|]. split; [exact H4|].
  split; [reflexivity|]. split; [exact H5|].
  intros H. specialize (H 42 43 emptyIdState H3 H4). rewrite H5 in H.
  discriminate.
Qed.

(** ** Themes *)

Lemma setTheme_same (st : AppState) : setTheme (theme st) st = st.
Proof. by destruct st. Qed.

Lemma setTheme_setTheme (a b : jsstring) (st : AppState) :
  setTheme a (setTheme b st) = setTheme a st.
Proof. done. Qed.

Lemma elem_of_themes (t : jsstring) :
  t ∈ themes ↔ t = js "light" ∨ t = js "dark" ∨ t = js "system".
Proof.
  unfold themes. rewrite !elem_of_cons, elem_of_nil. tauto.
Qed.

Lemma nextTheme_cases (t : jsstring) : nextTheme t = Some (themeAfter t).
Proof.
  unfold nextTheme, themeAfter, indexOf, themes. cbn [indexOfFrom].
  destruct (decide (js "light" = t)) as [<-|H1].
  { rewrite decide_True by done. reflexivity. }
  rewrite (decide_False (P := t = js "light")) by done.
  destruct (decide (js "dark" = t)) as [<-|H2].
  { rewrite decide_True by done. reflexivity. }
  rewrite (decide_False (P := t = js "dark")) by done.
  destruct (decide (js "system" = t)) as [<-|H3]; reflexivity.
Qed.

Lemma themeAfter_themes (t : jsstring) : themeAfter t ∈ themes.
Proof. apply elem_of_themes. unfold themeAfter. repeat case_decide; auto. Qed.

Lemma themeAfter_thrice (t : jsstring) :
  t ∈ themes → themeAfter (themeAfter (themeAfter t)) = t.
Proof.
  rewrite elem_of_themes. intros [->| [->| ->]]; vm_compute; reflexivity.
Qed.

Lemma cycleTheme_setTheme (st : AppState) :
  cycleTheme st = Some (setTheme (themeAfter (theme st)) st).
Proof. unfold cycleTheme. by rewrite nextTheme_cases. Qed.

(** X3. [cycleTheme] always finds a next theme, one of the three. It goes
    from light to dark, from dark to system and from system to light, so
    three clicks come back to the theme they started from; from a theme
    that is none of the three (one read from the store) it goes to light.
    Nothing but the theme changes. *)
Theorem cycleTheme_cycles (st : AppState) :
  ∃ st1, cycleTheme st = Some st1
    ∧ theme st1 ∈ themes
    ∧ (theme st = js "light" → theme st1 = js "dark")
    ∧ (theme st = js "dark" → theme st1 = js "system")
    ∧ (theme st = js "system" → theme st1 = js "light")
    ∧ (theme st ∉ themes → theme st1 = js "light")
    ∧ (cycleTheme st1 ≫= cycleTheme) ≫= cycleTheme = Some st1
    ∧ (theme st ∈ themes → cycleTheme st1 ≫= cycleTheme = Some st)
    ∧ setTheme (theme st) st1 = st.
Proof.
  rewrite cycleTheme_setTheme.
  exists (setTheme (themeAfter (theme st)) st). split; [reflexivity|].
  assert (∀ x s, theme (setTheme x s) = x) as Hth by done.
  rewrite Hth. split_and!.
  - apply themeAfter_themes.
  - intros ->. reflexivity.
  - intros ->. reflexivity.
  - intros ->. reflexivity.
  - intros Hout. unfold themeAfter. rewrite !decide_False; [done|..];
      intros Heq; apply Hout, elem_of_themes; auto.
  - rewrite cycleTheme_setTheme, Hth. cbn [mbind option_bind].
    rewrite cycleTheme_setTheme, !Hth, !setTheme_setTheme. cbn [mbind option_bind].
    rewrite cycleTheme_setTheme, !Hth, !setTheme_setTheme.
    by rewrite themeAfter_thrice by apply themeAfter_themes.
  - intros Hin. rewrite cycleTheme_setTheme, Hth. cbn [mbind option_bind].
    rewrite cycleTheme_setTheme, !Hth, !setTheme_setTheme.
    rewrite themeAfter_thrice by done. by rewrite setTheme_same.
  - rewrite setTheme_setTheme. apply setTheme_same.
Qed.

Lemma cycleTheme_cycles_witness :
  ∃ st1, cycleTheme initialState = Some st1
    ∧ theme st1 = js "light"
    ∧ cycleTheme st1 ≫= cycleTheme = Some initialState.
Proof.
  assert (H : theme initialState ∈ themes) by (apply elem_of_themes; auto).
  destruct (cycleTheme_cycles initialState)
    as (st1 & H1 & _ & _ & _ & H2 & _ & _ & H3 & _).
  exists st1. split; [exact H1|]. split; [exact (H2 eq_refl)|exact (H3 H)].
Defined.

(** X4. The stored theme is installed as it is read, whatever it is. The
    effective theme is light or dark exactly when the theme is one of the
    three; a stored theme that is none of them is passed on unchanged, the
    page then takes the light background, and the system preference is not
    listened to. *)
Theorem stored_theme_unchecked (store : Storage) (st : AppState)
    (saved : jsstring) (isDark : bool) :
  store !! "ai-theme" = Some saved → saved ≠ [] →
  theme (loadTheme store st) = saved
  ∧ (updateTheme isDark saved ∈ [js "light"; js "dark"] ↔ saved ∈ themes)
  ∧ (saved ∉ themes →
     updateTheme isDark saved = saved
     ∧ bg (updateTheme isDark saved) = bg (js "light")
     ∧ listensToSystem saved = false).
Proof.
  intros Hs Hne. split_and!.
  - unfold loadTheme. rewrite Hs. by destruct saved.
  - rewrite elem_of_themes, !elem_of_cons, elem_of_nil.
    unfold updateTheme. case_decide as Hsys.
    + split; [auto|]. intros _. destruct isDark; auto.
    + split; [intros [?| [?|[]]]; auto|]. intros [?| [?|?]]; auto.
  - rewrite elem_of_themes. intros Hout.
    assert (saved ≠ js "system") as Hsys by auto.
    assert (saved ≠ js "dark") as Hdark by auto.
    unfold updateTheme, listensToSystem, bg.
    rewrite (decide_False (P := saved = js "system")) by done.
    rewrite (decide_False (P := saved = js "dark")) by done.
    rewrite bool_decide_eq_false_2 by done. done.
Qed.

Lemma stored_theme_unchecked_witness :
  theme (loadTheme blueStore initialState) = js "blue"
  ∧ bg (updateTheme true (js "blue")) = bg (js "light").
Proof.
  assert (H1 : blueStore !! "ai-theme" = Some (js "blue")) by (vm_compute; reflexivity).
  assert (H2 : js "blue" ≠ []) by discriminate.
  assert (H3 : js "blue" ∉ themes).
  { rewrite elem_of_themes. intros [H| [H|H]]; discriminate. }
  pose proof (stored_theme_unchecked blueStore initialState (js "blue") true H1 H2)
    as (Ha & _ & Hb).
  split; [exact Ha|]. exact (proj1 (proj2 (Hb H3))).
Defined.

(** ** Stories in the store *)

Lemma story_text (s : Story.t) (rest : jsstring) :
  Stringify.story s ++ rest
  = 123%N ::
    memberText "id" (Stringify.quote (Story.id s) ++ 44%N ::
    memberText "title" (Stringify.quote (Story.title s) ++ 44%N ::
    memberText "content" (Stringify.quote (Story.content s) ++ 44%N ::
    memberText "timestamp"
      (Number_toString (Story.timestamp s) ++ 125%N :: rest)))).
Proof.
  unfold Stringify.story, memberText, Stringify.key.
  rewrite <- !app_assoc. reflexivity.
Qed.

Lemma value_story (f : nat) (s : Story.t) (rest : jsstring) :
  JSON.value (6 + f) (Stringify.story s ++ rest) = Some (storyJSON s, rest).
Proof.
  rewrite story_text.
  change (6 + f)%nat with (S (S (S (S (S (S f)))))).
  change (JSON.value (S ?n) (123%N :: ?s))
    with ('(ms, rest) ← JSON.members n s; Some (JObject ms, rest)).
  erewrite members_more; [reflexivity|reflexivity|apply value_quote|].
  erewrite members_more; [reflexivity|reflexivity|apply value_quote|].
  erewrite members_more; [reflexivity|reflexivity|apply value_quote|].
  apply members_last; [reflexivity|apply value_number].
Qed.

Section arrays.
Context {A : Type} (write : A → jsstring) (read : A → JSValue).
Hypothesis value_write : ∀ f x rest,
  JSON.value (6 + f) (write x ++ rest) = Some (read x, rest).
Hypothesis write_brace : ∀ x, ∃ t, write x = 123%N :: t.

Lemma elements_written (l : list A) (f : nat) (rest : jsstring) :
  l ≠ [] →
  JSON.elements (length l + 6 + f)
    (Stringify.joined (write <$> l) ++ 93%N :: rest)
  = Some (read <$> l, rest).
Proof.
  revert f. induction l as [|e l IH]; intros f Hne; [done|].
  change (length (e :: l) + 6 + f)%nat with (S (length l + 6 + f)).
  rewrite elements_unfold.
  destruct l as [|e' l].
  - change (Stringify.joined (write <$> [e])) with (write e).
    change (length [] + 6 + f)%nat with (6 + f)%nat.
    by rewrite value_write.
  - change (Stringify.joined (write <$> e :: e' :: l) ++ 93%N :: rest)
      with ((write e ++ [44%N]
             ++ Stringify.joined (write <$> e' :: l)) ++ 93%N :: rest).
    rewrite <- !app_assoc.
    replace (length (e' :: l) + 6 + f)%nat with (6 + (length (e' :: l) + f))%nat
      at 1 by lia.
    rewrite value_write.
    specialize (IH f ltac:(done)).
    change ([44%N] ++ ?x) with (44%N :: x).
    cbn [mbind option_bind].
    cbn [JSON.skipWS JSON.isWS JSON.startsWith N.eqb Pos.eqb orb].
    by rewrite IH.
Qed.

(** [JSON.parse] reads back the array that [JSON.stringify] wrote. *)
Lemma parse_written (l : list A) :
  l ≠ [] →
  JSON.parse (Stringify.array write l) = inr (JArray (read <$> l)).
Proof.
  intros Hne. unfold JSON.parse, Stringify.array.
  assert (∃ f, JSON.parseFuel
                 ([91%N] ++ Stringify.joined (write <$> l) ++ [93%N])
               = S (length l + 6 + f)) as [f ->].
  { unfold JSON.parseFuel. rewrite !length_app.
    pose proof (joined_length (write <$> l)) as Hlen.
    rewrite length_fmap in Hlen.
    assert (length l ≠ 0)%nat by (by destruct l).
    exists (2 * length (Stringify.joined (write <$> l)) - length l - 1)%nat.
    simpl.
    cut (length l ≤ length (Stringify.joined (write <$> l)))%nat; [lia|].
    apply Hlen, Forall_fmap, Forall_forall. intros e _.
    destruct (write_brace e) as [t Ht]. simpl. by rewrite Ht. }
  assert (∃ t, Stringify.joined (write <$> l) ++ [93%N] = 123%N :: t)
    as [t Ht].
  { destruct l as [|e [|e' l]]; [done|..].
    - destruct (write_brace e) as [t Ht]. eexists.
      change (Stringify.joined (write <$> [e])) with (write e).
      rewrite Ht. reflexivity.
    - destruct (write_brace e) as [t Ht]. eexists.
      change (Stringify.joined (write <$> e :: e' :: l))
        with (write e ++ [44%N] ++ Stringify.joined (write <$> e' :: l)).
      rewrite Ht. reflexivity. }
  change (JSON.value (S ?n) ([91%N] ++ ?s))
    with (match JSON.startsWith 93 (JSON.skipWS s) with
          | Some rest => Some (JArray [], rest)
          | None => '(vs, rest) ← JSON.elements n s; Some (JArray vs, rest)
          end).
  rewrite Ht. cbn [JSON.skipWS JSON.isWS JSON.startsWith N.eqb Pos.eqb orb].
  rewrite <- Ht, elements_written by done. reflexivity.
Qed.

End arrays.

Lemma parse_stringify_stories (l : list Story.t) :
  l ≠ [] →
  JSON.parse (Stringify.array Stringify.story l) = inr (JArray (storyJSON <$> l)).
Proof.
  apply parse_written.
  - intros f x rest. apply value_story.
  - intros x. eexists. rewrite <- (app_nil_r (Stringify.story x)), story_text.
    reflexivity.
Qed.

Lemma storyOfJSON_storyJSON (s : Story.t) :
  safeInteger (Story.timestamp s) → storyOfJSON (storyJSON s) = Some s.
Proof.
  destruct s as [i t c ts]. unfold safeInteger. cbn [Story.timestamp]. intros Hts.
  unfold storyOfJSON, storyJSON.
  cbn [Story.id Story.title Story.content Story.timestamp].
  change (getProp "id" _) with (Some (JString i)).
  change (getProp "title" _) with (Some (JString t)).
  change (getProp "content" _) with (Some (JString c)).
  change (getProp "timestamp" _) with (Some (JNumber ts 0)).
  cbn [asString mbind option_bind]. unfold asInteger.
  change (0 <=? 0) with true. cbn [mbind option_bind].
  change (10 ^ 0) with 1. rewrite Z.mul_1_r.
  apply Z.leb_le in Hts. by rewrite Hts.
Qed.

Lemma storiesOfJSON_storyJSON (l : list Story.t) :
  Forall (fun s => safeInteger (Story.timestamp s)) l →
  arrayOfJSON storyOfJSON (JArray (storyJSON <$> l)) = Some l.
Proof.
  intros Hl. unfold arrayOfJSON. apply mapM_Some. apply Forall2_fmap_l.
  apply Forall_Forall2_diag. eapply Forall_impl; [exact Hl|].
  intros s Hs. by apply storyOfJSON_storyJSON.
Qed.

Lemma persist_load_stories (st st0 : AppState) (store : Storage) :
  stories st ≠ [] →
  Forall (fun s => safeInteger (Story.timestamp s)) (stories st) →
  loadStories (persistStories st store) st0 = Mounted (setStories (stories st) st0).
Proof.
  intros Hne Hsafe. unfold loadStories, loadParsed, persistStories.
  destruct (stories st) as [|s l] eqn:Hs; [done|].
  rewrite lookup_insert_eq.
  rewrite parse_stringify_stories, storiesOfJSON_storyJSON by done.
  reflexivity.
Qed.

(** X5. What the effect on the stories stored, the mount effect loads: a
    collection that is not empty comes back as it was, story by story and in
    the same order, whatever the titles and contents hold (quotes, line
    feeds, control characters, lone surrogates). *)
Theorem stories_survive_reload (st st0 : AppState) (store : Storage) :
  stories st ≠ [] →
  Forall (fun s => safeInteger (Story.timestamp s)) (stories st) →
  ∃ st', loadStories (persistStories st store) st0 = Mounted st'
    ∧ stories st' = stories st
    ∧ history st' = history st0
    ∧ currentStoryId st' = currentStoryId st0
    ∧ editorRef st' = editorRef st0.
Proof.
  intros Hne Hsafe. eexists. split; [by apply persist_load_stories|done].
Qed.

Lemma stories_survive_reload_witness :
  ∃ st', loadStories (persistStories oneStorySession ∅) initialState = Mounted st'
    ∧ stories st'
      = [Story.mk (js "2000") (js "Once upon a time") (js "Once upon a time") 2001].
Proof.
  assert (H1 : stories oneStorySession ≠ []) by (vm_compute; discriminate).
  assert (H2 : Forall (fun s => safeInteger (Story.timestamp s))
                 (stories oneStorySession)).
  { repeat constructor. vm_compute. discriminate. }
  destruct (stories_survive_reload oneStorySession initialState ∅ H1 H2)
    as (st' & Hload & Hst & _).
  exists st'. split; [exact Hload|]. rewrite Hst. vm_compute. reflexivity.
Defined.

Lemma persistHistory_other (st : AppState) (store : Storage) (key : string) :
  key ≠ "ai-history" → persistHistory st store !! key = store !! key.
Proof.
  intros Hk. unfold persistHistory. destruct (history st); [done|].
  by rewrite lookup_insert_ne.
Qed.

Lemma persistStories_other (st : AppState) (store : Storage) (key : string) :
  key ≠ "ai-stories" → persistStories st store !! key = store !! key.
Proof.
  intros Hk. unfold persistStories. destruct (stories st); [done|].
  by rewrite lookup_insert_ne.
Qed.

Lemma loadParsed_same_key {A} (key : string) (decode : JSValue → option A)
    (set : A → AppState → AppState) (store store' : Storage) (st : AppState) :
  store' !! key = store !! key →
  loadParsed key decode set store' st = loadParsed key decode set store st.
Proof. unfold loadParsed. by intros ->. Qed.

(** X6. A reload restores the session that the three saving effects stored:
    the stories, the log and the theme come back as they were. The text in
    the editor and the current story are not stored: after the reload the
    editor and the current id are those of the fresh page. *)
Theorem session_survives_reload (st st0 : AppState) (store : Storage) :
  stories st ≠ [] → history st ≠ [] → theme st ≠ [] →
  Forall (fun s => safeInteger (Story.timestamp s)) (stories st) →
  Forall (fun e => safeInteger (HistoryEntry.timestamp e)) (history st) →
  ∃ st', mountEffect (persistTheme st (persistHistory st (persistStories st store))) st0
         = Mounted st'
    ∧ stories st' = stories st
    ∧ history st' = history st
    ∧ theme st' = theme st
    ∧ currentStoryId st' = currentStoryId st0
    ∧ editorRef st' = editorRef st0
    ∧ status st' = status st0.
Proof.
  intros Hs Hh Ht Hss Hsh. unfold mountEffect.
  unfold loadStories at 1.
  erewrite loadParsed_same_key; last first.
  { unfold persistTheme. rewrite lookup_insert_ne by done.
    by rewrite persistHistory_other. }
  fold loadStories. rewrite persist_load_stories by done.
  cbn [andThen]. unfold loadHistory at 1.
  erewrite loadParsed_same_key; last first.
  { unfold persistTheme. by rewrite lookup_insert_ne. }
  fold loadHistory. rewrite persist_load_history by done.
  cbn [andThen]. eexists. split; [reflexivity|].
  unfold loadTheme, persistTheme. rewrite lookup_insert_eq.
  destruct (theme st) as [|c t] eqn:Hth; [done|]. done.
Qed.

Lemma session_survives_reload_witness :
  ∃ st', mountEffect
           (persistTheme oneStorySession
              (persistHistory oneStorySession (persistStories oneStorySession ∅)))
           initialState = Mounted st'
    ∧ stories st' = stories oneStorySession
    ∧ history st' = history oneStorySession
    ∧ theme st' = js "dark"
    ∧ currentStoryId st' = None.
Proof.
  assert (H1 : stories oneStorySession ≠ []) by (vm_compute; discriminate).
  assert (H2 : history oneStorySession ≠ []) by (vm_compute; discriminate).
  assert (H3 : theme oneStorySession ≠ []) by (vm_compute; discriminate).
  assert (H4 : Forall (fun s => safeInteger (Story.timestamp s))
                 (stories oneStorySession)).
  { repeat constructor. vm_compute. discriminate. }
  assert (H5 : Forall (fun e => safeInteger (HistoryEntry.timestamp e))
                 (history oneStorySession)).
  { repeat constructor. vm_compute. discriminate. }
  destruct (session_survives_reload oneStorySession initialState ∅ H1 H2 H3 H4 H5)
    as (st' & Hm & Hs & Hh & Ht & Hc & _).
  exists st'. split_and!; [exact Hm|exact Hs|exact Hh|exact Ht|exact Hc].
Defined.

Lemma deleteStory_stories (id : jsstring) (st : AppState) :
  stories (deleteStory id st) = filter (fun s => Story.id s ≠ id) (stories st).
Proof. unfold deleteStory. by case_decide. Qed.

Lemma Forall_filter_keep {A} (P Q : A → Prop) `{!∀ x, Decision (P x)} (l : list A) :
  Forall Q l → Forall Q (filter P l).
Proof.
  rewrite !Forall_forall. intros HQ x Hx.
  apply list_elem_of_filter in Hx as [_ Hx]. by apply HQ.
Qed.

Lemma filter_none {A} (P : A → Prop) `{!∀ x, Decision (P x)} (l : list A) :
  (∀ x, x ∈ l → ¬ P x) → filter P l = [].
Proof.
  intros Hno. destruct (filter P l) as [|x l'] eqn:Hf; [done|].
  assert (x ∈ filter P l) as Hx by (rewrite Hf; left).
  apply list_elem_of_filter in Hx as [HP Hx]. by destruct (Hno x Hx).
Qed.

(** X7. A delete reaches the store only while a story is left. When stories
    remain, the effect stores them and a reload shows them; when the delete
    empties the collection, the effect writes nothing, the store keeps what
    it held, and a reload brings the deleted stories back. *)
Theorem deleted_last_story_returns (id : jsstring) (st st0 : AppState)
    (store : Storage) :
  Forall (fun s => safeInteger (Story.timestamp s)) (stories st) →
  let stored := persistStories st store in
  let st1 := deleteStory id st in
  (stories st1 ≠ [] →
     loadStories (persistStories st1 stored) st0
     = Mounted (setStories (stories st1) st0))
  ∧ (stories st ≠ [] → (∀ s, s ∈ stories st → Story.id s = id) →
     stories st1 = []
     ∧ persistStories st1 stored = stored
     ∧ loadStories (persistStories st1 stored) st0
       = Mounted (setStories (stories st) st0)).
Proof.
  intros Hsafe. cbv zeta. split.
  - intros Hne. apply persist_load_stories; [done|].
    rewrite deleteStory_stories. by apply Forall_filter_keep.
  - intros Hne Hall.
    assert (stories (deleteStory id st) = []) as Hnil.
    { rewrite deleteStory_stories. apply filter_none.
      intros s Hs Hid. by apply Hid, Hall. }
    assert (persistStories (deleteStory id st) (persistStories st store)
            = persistStories st store) as Hkeep.
    { unfold persistStories at 1. by rewrite Hnil. }
    split; [done|]. split; [done|].
    rewrite Hkeep. by apply persist_load_stories.
Qed.

Lemma deleted_last_story_returns_witness :
  stories (deleteStory (js "2000") oneStorySession) = []
  ∧ loadStories
      (persistStories (deleteStory (js "2000") oneStorySession)
         (persistStories oneStorySession ∅)) initialState
    = Mounted (setStories (stories oneStorySession) initialState).
Proof.
  assert (H1 : Forall (fun s => safeInteger (Story.timestamp s))
                 (stories oneStorySession)).
  { repeat constructor. vm_compute. discriminate. }
  assert (H2 : stories oneStorySession ≠ []) by (vm_compute; discriminate).
  assert (H3 : ∀ s, s ∈ stories oneStorySession → Story.id s = js "2000").
  { intros s Hs.
    change (stories oneStorySession)
      with [Story.mk (js "2000") (js "Once upon a time") (js "Once upon a time") 2001]
      in Hs.
    apply list_elem_of_singleton in Hs. by subst s. }
  destruct (proj2 (deleted_last_story_returns (js "2000") oneStorySession
                     initialState ∅ H1) H2 H3) as (Ha & _ & Hb).
  split; [exact Ha|exact Hb].
Defined.

(** X8. [clearHistory] empties the log and removes its stored copy, and the
    effect on the emptied log writes nothing, in whichever order the two
    happen: a reload starts with an empty log. The other keys of the store
    stay as they were. *)
Theorem clearHistory_forgets (st st0 : AppState) (store : Storage) :
  history (clearHistory st) = []
  ∧ stories (clearHistory st) = stories st
  ∧ editorRef (clearHistory st) = editorRef st
  ∧ persistHistory (clearHistory st) (clearHistoryStored store)
    = clearHistoryStored store
  ∧ clearHistoryStored (persistHistory (clearHistory st) store)
    = clearHistoryStored store
  ∧ loadHistory (clearHistoryStored store) st0 = Mounted st0
  ∧ (∀ key, key ≠ "ai-history" → clearHistoryStored store !! key = store !! key).
Proof.
  split_and!; try done.
  - unfold loadHistory, loadParsed, clearHistoryStored.
    by rewrite lookup_delete_eq.
  - intros key Hk. unfold clearHistoryStored. by rewrite lookup_delete_ne.
Qed.

Lemma clearHistory_forgets_witness :
  clearHistoryStored (persistTheme oneStorySession exampleStore) !! "ai-theme"
  = Some (js "dark")
  ∧ loadHistory (clearHistoryStored (persistTheme oneStorySession exampleStore))
      initialState = Mounted initialState.
Proof.
  assert (H : "ai-theme" ≠ "ai-history") by discriminate.
  destruct (clearHistory_forgets initialState initialState
              (persistTheme oneStorySession exampleStore))
    as (_ & _ & _ & _ & _ & H1 & H2).
  split; [|exact H1]. rewrite (H2 "ai-theme" H). vm_compute. reflexivity.
Defined.

(** ** The story collection *)

(** X9. [deleteStory] keeps exactly the stories whose id is not the given
    one, in their order; when one story carries the id, that story alone
    goes. It starts a new story (editor cleared, no current id) exactly when
    the deleted id was the current one, and leaves the editor and the
    current id alone otherwise. *)
Theorem deleteStory_removes (id : jsstring) (st : AppState) :
  let st' := deleteStory id st in
  (∀ s, s ∈ stories st' ↔ s ∈ stories st ∧ Story.id s ≠ id)
  ∧ stories st' `sublist_of` stories st
  ∧ (∀ l1 s l2, stories st = l1 ++ s :: l2 → Story.id s = id →
       (∀ x, x ∈ l1 ++ l2 → Story.id x ≠ id) → stories st' = l1 ++ l2)
  ∧ (currentStoryId st = Some id →
       currentStoryId st' = None
       ∧ editorRef st' = onEditor ProseMirrorEditor.clear (editorRef st)
       ∧ editorContent st' = [])
  ∧ (currentStoryId st ≠ Some id →
       currentStoryId st' = currentStoryId st ∧ editorRef st' = editorRef st)
  ∧ history st' = history st.
Proof.
  cbv zeta. split_and!.
  - intros s. rewrite deleteStory_stories, list_elem_of_filter. tauto.
  - rewrite deleteStory_stories. apply sublist_filter.
  - intros l1 s l2 Hst Hs Hrest. rewrite deleteStory_stories, Hst.
    rewrite filter_app, filter_cons, decide_False by (intros H; by apply H).
    rewrite <- filter_app.
    induction (l1 ++ l2) as [|x l IH]; [done|].
    rewrite filter_cons, decide_True by (apply Hrest; left).
    f_equal. apply IH. intros y Hy. apply Hrest. by right.
  - intros Hcur. unfold deleteStory. rewrite decide_True by done.
    split; [done|]. split; [done|].
    unfold editorContent, newStory. cbn [editorRef setCurrentStoryId withEditor setStories].
    by destruct (editorRef st) as [[v|]|].
  - intros Hcur. unfold deleteStory. by rewrite decide_False.
  - unfold deleteStory. by case_decide.
Qed.

Lemma deleteStory_removes_witness :
  currentStoryId (deleteStory (js "17") resaveState) = None
  ∧ editorContent (deleteStory (js "17") resaveState) = []
  ∧ stories (deleteStory (js "17") resaveState)
    = [Story.mk (js "18") (js "Other") (js "Other") 8].
Proof.
  destruct (deleteStory_removes (js "17") resaveState)
    as (_ & _ & H1 & H2 & _).
  destruct (H2 eq_refl) as (Ha & _ & Hb).
  split; [exact Ha|]. split; [exact Hb|].
  apply (H1 [] (Story.mk (js "17") (js "Old") (js "Old") 7)
            [Story.mk (js "18") (js "Other") (js "Other") 8] eq_refl eq_refl).
  intros x Hx. apply list_elem_of_singleton in Hx. subst x. discriminate.
Defined.

Lemma firstLine_no_LF (s : jsstring) : LF ∉ firstLine s.
Proof.
  induction s as [|c s IH]; simpl; [by apply not_elem_of_nil|].
  destruct (N.eqb_spec c LF) as [->|Hc]; [by apply not_elem_of_nil|].
  rewrite not_elem_of_cons. split; [done|exact IH].
Qed.

Lemma firstLine_prefix (s : jsstring) : firstLine s `prefix_of` s.
Proof.
  induction s as [|c s IH]; simpl; [done|].
  destruct (c =? LF)%N; [apply prefix_nil|]. by apply prefix_cons.
Qed.

Lemma firstLine_nil (s : jsstring) :
  firstLine s = [] ↔ s = [] ∨ head s = Some LF.
Proof.
  destruct s as [|c s]; simpl; [split; auto|].
  destruct (N.eqb_spec c LF) as [->|Hc].
  - split; [by right|done].
  - split; [done|]. intros [?|[= ?]]; done.
Qed.

(** X10. The title that [saveStory] gives a story is never empty, has at most
    50 code units and holds no line feed. It is the beginning of the content
    unless the content is empty or begins with a line feed, and then it is
    [Untitled Story]. *)
Theorem titleOf_shape (content : jsstring) :
  titleOf content ≠ []
  ∧ (length (titleOf content) ≤ 50)%nat
  ∧ (LF ∉ titleOf content)
  ∧ (content ≠ [] → head content ≠ Some LF →
     titleOf content = take 50 (firstLine content)
     ∧ titleOf content `prefix_of` content)
  ∧ (content = [] ∨ head content = Some LF → titleOf content = js "Untitled Story").
Proof.
  unfold titleOf, slice0, orElse.
  destruct (take 50 (firstLine content)) as [|c t] eqn:Ht.
  - cbn [nonEmpty]. split_and!.
    + discriminate.
    + vm_compute. lia.
    + intros H. vm_compute in H. by repeat (apply elem_of_cons in H as [H|H]; [done|]);
        apply elem_of_nil in H.
    + intros Hne Hhd. exfalso.
      destruct (firstLine content) as [|d u] eqn:Hf; [|done].
      apply firstLine_nil in Hf as [?|?]; done.
    + done.
  - cbn [nonEmpty]. rewrite <- Ht. split_and!.
    + by rewrite Ht.
    + rewrite length_take. lia.
    + intros H. apply (firstLine_no_LF content).
      eapply elem_of_prefix; [exact H|apply prefix_take].
    + intros _ _. split; [done|].
      etrans; [apply prefix_take|apply firstLine_prefix].
    + intros H. apply firstLine_nil in H. by rewrite H in Ht.
Qed.

Lemma titleOf_shape_witness :
  titleOf chapterOne = js "Chapter One"
  ∧ titleOf chapterOne `prefix_of` chapterOne
  ∧ titleOf (LF :: chapterOne) = js "Untitled Story".
Proof.
  destruct (titleOf_shape chapterOne) as (_ & _ & _ & H1 & _).
  destruct (titleOf_shape (LF :: chapterOne)) as (_ & _ & _ & _ & H2).
  destruct (H1 ltac:(discriminate) ltac:(discriminate)) as [Ha Hb].
  split; [rewrite Ha; vm_compute; reflexivity|].
  split; [exact Hb|]. apply H2. by right.
Defined.

Lemma Number_toString_nonempty (z : Z) : Number_toString z ≠ [].
Proof. destruct (Number_toString_head z) as (c & t & -> & _). done. Qed.

Lemma saveStory_wellFormed (now1 now2 : Z) (st : AppState) :
  Forall wellFormed (stories st) →
  Forall wellFormed (stories (saveStory now1 now2 st)).
Proof.
  intros H.
  destruct (decide (trim (editorContent st) = [])) as [Hb|Hb].
  { by rewrite saveStory_blank. }
  destruct (currentStoryId st) as [[|c cid]|] eqn:Hcur.
  - rewrite saveStory_create by auto. cbn [stories setStories setCurrentStoryId].
    constructor; [|done]. split; [apply Number_toString_nonempty|done].
  - rewrite (saveStory_update _ _ _ (c :: cid)) by done.
    cbn [stories setStories]. apply Forall_fmap.
    eapply Forall_impl; [exact H|]. intros s (Hid & Hc & Ht). simpl.
    case_decide; [|done]. done.
  - rewrite saveStory_create by auto. cbn [stories setStories setCurrentStoryId].
    constructor; [|done]. split; [apply Number_toString_nonempty|done].
Qed.

Lemma step_wellFormed (E : Engine) (w : World) (ev : Event) (w' : World) :
  Forall wellFormed (stories (app w)) → step E w ev = Some w' →
  Forall wellFormed (stories (app w')).
Proof.
  intros H. unfold step.
  destruct ev as [now1 now2|i|i outcome now1 now2| | | |now1 now2|i| |i| |text].
  - destruct (continueDisabled (app w)); [done|].
    pose proof (handleContinue_start_stories now1 now2 (app w)) as [H1 _].
    destruct (handleContinue_start now1 now2 (app w)) as [st suspended].
    intros [= <-]. simpl in *. by rewrite H1.
  - destruct (tasks w !! i) as [[]|]; try done. by intros [= <-].
  - destruct (tasks w !! i) as [[]|]; try done.
    destruct (handleContinue_settle E outcome now1 now2 (app w))
      as [[st timer]|] eqn:Hsettle; [|done].
    apply handleContinue_settle_stories in Hsettle as [H1 _].
    intros [= <-]. simpl. by rewrite H1.
  - destruct (idleTimers w); [done|]. by intros [= <-].
  - unfold handleClear. destruct (showClearConfirm (app w)); by intros [= <-].
  - destruct (confirmTimers w); [done|]. by intros [= <-].
  - intros [= <-]. by apply saveStory_wellFormed.
  - destruct (stories (app w) !! i) as [story|] eqn:Hi; [|done].
    by intros [= <-].
  - by intros [= <-].
  - destruct (stories (app w) !! i) as [story|]; [|done].
    intros [= <-]. simpl. rewrite deleteStory_stories.
    by apply Forall_filter_keep.
  - by intros [= <-].
  - by intros [= <-].
Qed.

(** X11. Whatever happens in the application, every story of the collection
    stays as [saveStory] makes them: its id is not empty, its content is not
    blank and its title is the one cut from its content. So, from a start
    without a current story, the current id is never the empty string, the
    one id that [saveStory] takes for no id. *)
Theorem stories_stay_well_formed (E : Engine) (st : AppState) (evs : list Event)
    (w : World) :
  Forall wellFormed (stories st) → run E (started st) evs = Some w →
  Forall wellFormed (stories (app w))
  ∧ (currentStoryId st = None → currentStoryId (app w) ≠ Some []).
Proof.
  intros H0 Hrun. split.
  - by apply (run_invariant E (fun w => Forall wellFormed (stories (app w)))
                (step_wellFormed E) evs (started st) w).
  - intros Hcur Hempty.
    assert (currentKnown (app w)) as Hk.
    { apply (run_invariant E (fun w => currentKnown (app w)) (step_currentKnown E)
               evs (started st) w); [|done].
      unfold currentKnown. simpl. by rewrite Hcur. }
    assert (Forall wellFormed (stories (app w))) as Hwf.
    { by apply (run_invariant E (fun w => Forall wellFormed (stories (app w)))
                  (step_wellFormed E) evs (started st) w). }
    unfold currentKnown in Hk. rewrite Hempty in Hk.
    destruct Hk as (s & Hs & Hid).
    rewrite Forall_forall in Hwf. by destruct (Hwf s Hs) as [? _].
Qed.

Lemma stories_stay_well_formed_witness :
  ∃ w, run exampleEngine (started initialState) twoSaves = Some w
    ∧ Forall wellFormed (stories (app w))
    ∧ stories (app w)
      = [Story.mk (js "1000") (js "Chapter One") chapterOneRevised 1001].
Proof.
  assert (H0 : Forall wellFormed (stories initialState)) by constructor.
  assert (Hrun : ∃ w, run exampleEngine (started initialState) twoSaves = Some w
            ∧ stories (app w)
              = [Story.mk (js "1000") (js "Chapter One") chapterOneRevised 1001]).
  { eexists. split; vm_compute; reflexivity. }
  destruct Hrun as (w & Hrun & Hst).
  exists w. split; [exact Hrun|]. split; [|exact Hst].
  exact (proj1 (stories_stay_well_formed exampleEngine initialState twoSaves w
                  H0 Hrun)).
Defined.

(** ** Clearing the editor *)

(** X12. Clear takes two clicks. The first only arms the confirmation and
    starts its timer: the editor, the current story and the collection stay.
    The second, while armed, empties the editor, drops the current id and
    disarms, without a timer; the saved stories and the log stay. When the
    timer fires in between, the next click arms again and clears nothing. *)
Theorem handleClear_two_clicks (st : AppState) :
  showClearConfirm st = false →
  ∃ st1 st2,
    handleClear st = (st1, true)
    ∧ handleClear st1 = (st2, false)
    ∧ showClearConfirm st1 = true
    ∧ editorRef st1 = editorRef st
    ∧ currentStoryId st1 = currentStoryId st
    ∧ showClearConfirm st2 = false
    ∧ editorContent st2 = []
    ∧ currentStoryId st2 = None
    ∧ stories st2 = stories st
    ∧ history st2 = history st
    ∧ handleClear (setShowClearConfirm false st1) = (st1, true).
Proof.
  intros Hc. unfold handleClear. rewrite Hc. eexists _, _.
  split; [reflexivity|]. cbn [showClearConfirm setShowClearConfirm].
  split; [reflexivity|]. split_and!; try done.
  unfold editorContent. simpl. by destruct (editorRef st) as [[v|]|].
Qed.

Lemma handleClear_two_clicks_witness :
  ∃ st1 st2,
    handleClear resaveState = (st1, true)
    ∧ handleClear st1 = (st2, false)
    ∧ editorContent st2 = []
    ∧ currentStoryId st2 = None
    ∧ stories st2 = stories resaveState.
Proof.
  destruct (handleClear_two_clicks resaveState eq_refl)
    as (st1 & st2 & H1 & H2 & _ & _ & _ & _ & H3 & H4 & H5 & _).
  exists st1, st2. split_and!; [exact H1|exact H2|exact H3|exact H4|exact H5].
Defined.

(** X13. The timer of the first Clear click is never cancelled: after a
    confirmed clear, a third click arms the confirmation again, and the
    timer left over from the first click withdraws it while the timer of
    the third is still pending. *)
Theorem confirm_timer_not_cancelled (E : Engine) (w : World) :
  showClearConfirm (app w) = false →
  ∃ w3 w4,
    run E w [ClickClear; ClickClear; ClickClear] = Some w3
    ∧ showClearConfirm (app w3) = true
    ∧ confirmTimers w3 = S (S (confirmTimers w))
    ∧ step E w3 ConfirmTimer = Some w4
    ∧ showClearConfirm (app w4) = false
    ∧ confirmTimers w4 = S (confirmTimers w)
    ∧ editorRef (app w4) = onEditor ProseMirrorEditor.clear (editorRef (app w)).
Proof.
  intros Hc. destruct w as [st ts it ct]. cbn [app] in Hc.
  unfold run, step, handleClear. cbn [app tasks idleTimers confirmTimers].
  rewrite Hc. cbn [mbind option_bind app tasks idleTimers confirmTimers
                   showClearConfirm setShowClearConfirm setCurrentStoryId withEditor].
  eexists _, _. split; [reflexivity|]. cbn [app confirmTimers showClearConfirm].
  split; [reflexivity|]. split; [reflexivity|]. split; [reflexivity|].
  split; [reflexivity|]. split; reflexivity.
Qed.

Lemma confirm_timer_not_cancelled_witness :
  ∃ w3 w4,
    run exampleEngine writing [ClickClear; ClickClear; ClickClear] = Some w3
    ∧ showClearConfirm (app w3) = true
    ∧ step exampleEngine w3 ConfirmTimer = Some w4
    ∧ showClearConfirm (app w4) = false
    ∧ confirmTimers w4 = 1%nat.
Proof.
  destruct (confirm_timer_not_cancelled exampleEngine writing eq_refl)
    as (w3 & w4 & H1 & H2 & _ & H3 & H4 & H5 & _).
  exists w3, w4. split_and!; [exact H1|exact H2|exact H3|exact H4|exact H5].
Defined.

(** ** Saving after New Story and after opening a story *)

Lemma editorContent_typed (text : jsstring) (st : AppState) :
  editorMounted st → editorContent (typed text st) = text.
Proof.
  intros [v Hv]. unfold editorContent, typed, editorText. simpl. rewrite Hv. simpl.
  by rewrite !orElse_nil_r.
Qed.

Lemma editorMounted_newStory (st : AppState) :
  editorMounted st → editorMounted (newStory st).
Proof. intros [v Hv]. exists []. simpl. by rewrite Hv. Qed.



(** X14. After New Story the editor is empty and there is no current story:
    a save right away does nothing, and a save of a text typed since adds
    that text as a new story in front of the collection, every earlier
    story kept as it was, and makes it the current one. *)
Theorem newStory_then_save_creates (text : jsstring) (now1 now2 : Z)
    (st : AppState) :
  editorMounted st → trim text ≠ [] →
  saveStory now1 now2 (newStory st) = newStory st
  ∧ stories (saveStory now1 now2 (typed text (newStory st)))
    = Story.mk (Number_toString now1) (titleOf text) text now2 :: stories st
  ∧ currentStoryId (saveStory now1 now2 (typed text (newStory st)))
    = Some (Number_toString now1).
Proof.
  intros Hm Hne.
  assert (editorContent (typed text (newStory st)) = text) as Hc.
  { by apply editorContent_typed, editorMounted_newStory. }
  split; [|split].
  - apply saveStory_blank. destruct Hm as [v Hv].
    unfold editorContent, newStory, editorText. simpl. by rewrite Hv.
  - rewrite saveStory_create; [|by rewrite Hc|by left].
    unfold storyFromEditor. by rewrite Hc.
  - rewrite saveStory_create; [done|by rewrite Hc|by left].
Qed.

Lemma newStory_then_save_creates_witness :
  stories (saveStory 3000 3001 (typed (js "Chapter Two") (newStory resaveState)))
  = Story.mk (js "3000") (js "Chapter Two") (js "Chapter Two") 3001
    :: stories resaveState.
Proof.
  assert (H1 : editorMounted resaveState) by (eexists; reflexivity).
  assert (H2 : trim (js "Chapter Two") ≠ []) by (vm_compute; discriminate).
  exact (proj1 (proj2 (newStory_then_save_creates (js "Chapter Two") 3000 3001
                         resaveState H1 H2))).
Defined.




(** ** Failed and successful requests *)

Lemma errorMessage_valueAt (data : JSValue) (err : JSRef) :
  plainProp "error" data = inr err →
  optProp "message" err = valueAt errorPath data.
Proof.
  intros Hc.
  transitivity (optProp "message" err ≫= valueAt []).
  { by destruct (optProp "message" _). }
  rewrite <- valueAt_member.
  destruct data; simpl in Hc; try discriminate; by injection Hc as <-.
Qed.

(** X16. On a response that is not a success [generateText] always throws
    an [Error], whatever the body holds. Its message is the status text, or
    the status code when that is empty, if the body is not JSON or is
    [null]; it is the string at [error.message] of the body when there is
    one that is not empty. *)
Theorem generateText_http_error (E : Engine) (response : Response) :
  ok response = false →
  ∃ message,
    generateText E (Resolved response) = inl (ErrorInstance message)
    ∧ (∀ e, json response = inl e → message = httpErrorMessage response)
    ∧ (json response = inr JNull → message = httpErrorMessage response)
    ∧ (statusText response = [] →
       httpErrorMessage response
       = js "HTTP error! status: " ++ Number_toString (httpStatus response))
    ∧ (∀ data m, json response = inr data →
         valueAt errorPath data = Some (JString m) → m ≠ [] →
         stringsAsTheyAre E → message = m).
Proof.
  intros Hok. unfold generateText. rewrite Hok. cbn [negb].
  eexists. split; [reflexivity|]. split_and!.
  - intros e ->. reflexivity.
  - intros ->. reflexivity.
  - intros Hst. unfold httpErrorMessage. by rewrite Hst.
  - intros data m -> Hm Hne HE.
    destruct (plainProp "error" data) as [e|err] eqn:Hp.
    { destruct data; simpl in Hp; discriminate. }
    rewrite (errorMessage_valueAt data err Hp), Hm.
    cbn [truthy stringOfRef]. destruct m; [done|]. cbn [nonEmpty]. apply HE.
Qed.

Lemma generateText_http_error_witness :
  generateText exampleEngine (Resolved rateLimited)
  = inl (ErrorInstance (js "Rate limit reached"))
  ∧ generateText exampleEngine (Resolved badGateway)
    = inl (ErrorInstance (js "Bad Gateway")).
Proof.
  destruct (generateText_http_error exampleEngine rateLimited eq_refl)
    as (m1 & H1 & _ & _ & _ & H1').
  destruct (generateText_http_error exampleEngine badGateway eq_refl)
    as (m2 & H2 & H2' & _).
  rewrite H1, H2.
  rewrite (H1' _ (js "Rate limit reached") eq_refl eq_refl ltac:(discriminate)
             (fun s => eq_refl)).
  rewrite (H2' _ eq_refl). split; reflexivity.
Defined.

(** X17. On a success whose body holds at [choices[0].message.content] a
    value that JavaScript takes for non-empty, [generateText] returns that
    value: with the failure on an empty reply, it returns exactly when there
    is a reply, and then [handleContinue] ends in [success] with the 2 s
    timer started. *)
Theorem generateText_returns_reply (E : Engine) (response : Response)
    (data v : JSValue) :
  ok response = true → json response = inr data →
  valueAt replyPath data = Some v → truthy (Some v) = true →
  generateText E (Resolved response) = inr v
  ∧ ∀ R now1 now2 st, v = JString R →
      ∃ st', handleContinue_settle E (Resolved response) now1 now2 st
             = Some (st', true)
        ∧ status st' = Status.success
        ∧ history st' = addToHistory ai R now1 now2 (history st).
Proof.
  intros Hok Hj Hv Ht.
  assert (generateText E (Resolved response) = inr v) as Hg.
  { unfold generateText. rewrite Hok, Hj. cbn [negb].
    destruct (plainProp "choices" data) as [e|choices] eqn:Hp.
    { destruct data; simpl in Hp; discriminate. }
    rewrite (messageContent_valueAt data choices Hp), Hv.
    assert (nullish (Some v) (JString []) = v) as -> by (by destruct v).
    by rewrite Ht. }
  split; [exact Hg|].
  intros R now1 now2 st ->.
  destruct (handleContinue_settle_text E (Resolved response) R now1 now2 st Hg)
    as (st' & H1 & H2 & _ & H3).
  by exists st'.
Qed.

Lemma generateText_returns_reply_witness :
  generateText exampleEngine (Resolved (replyResponse (js "the hero arrived.")))
  = inr (JString (js "the hero arrived.")).
Proof.
  exact (proj1 (generateText_returns_reply exampleEngine
                  (replyResponse (js "the hero arrived.")) _
                  (JString (js "the hero arrived.")) eq_refl eq_refl eq_refl eq_refl)).
Defined.

Lemma handleContinue_start_text (now1 now2 : Z) (st : AppState) (text : jsstring) :
  editorText (editorRef st) = Some text → trim text ≠ [] →
  ∃ st1, handleContinue_start now1 now2 st = (st1, Some text)
    ∧ status st1 = Status.generating
    ∧ error st1 = []
    ∧ editorRef st1 = editorRef st
    ∧ stories st1 = stories st
    ∧ currentStoryId st1 = currentStoryId st
    ∧ history st1 = addToHistory user text now1 now2 (history st).
Proof.
  intros Ht Hne. unfold handleContinue_start. cbn [editorRef setGeneratingText
    setError setStatus]. rewrite Ht. cbn [default id].
  destruct (trim text) as [|c t] eqn:Htrim; [done|]. cbn [nonEmpty negb].
  eexists. split; [reflexivity|]. done.
Qed.

(** X18. When the request fails, whatever the failure (the fetch rejected,
    the response was not a success, the body could not be read, the reply
    was empty), [handleContinue] ends in [error] with the message of the
    error, or [Unknown error] for a thrown value that is not an [Error]. The
    editor keeps its text and the stories stay; the log keeps the entry of
    the submitted text, which was added before the request, and gets no
    entry for a reply. *)
Theorem failed_request_keeps_text (E : Engine) (outcome : FetchOutcome)
    (err : Thrown) (now1 now2 now3 now4 : Z) (st : AppState) (text : jsstring) :
  editorText (editorRef st) = Some text → trim text ≠ [] →
  generateText E outcome = inl err →
  ∃ st', handleContinue E outcome now1 now2 now3 now4 st = Some st'
    ∧ status st' = Status.error
    ∧ error st' = match err with
                  | ErrorInstance message => message
                  | NullValue | OtherValue => js "Unknown error"
                  end
    ∧ generatingText st' = []
    ∧ editorRef st' = editorRef st
    ∧ stories st' = stories st
    ∧ history st' = addToHistory user text now1 now2 (history st).
Proof.
  intros Ht Hne Hg.
  destruct (handleContinue_start_text now1 now2 st text Ht Hne)
    as (st1 & Hstart & _ & _ & Hed & Hst & _ & Hh).
  unfold handleContinue. rewrite Hstart.
  unfold handleContinue_settle, handleContinue_finish. rewrite Hg.
  cbn [fmap option_fmap option_map fst].
  eexists. split; [reflexivity|].
  unfold handleContinue_request. cbn [fst].
  split_and!; try done.
Qed.

Lemma failed_request_keeps_text_witness :
  ∃ st', handleContinue exampleEngine (Resolved rateLimited) 1000 1001 2000 2001
           (typed (js "Once upon a time") initialState) = Some st'
    ∧ status st' = Status.error
    ∧ error st' = js "Rate limit reached"
    ∧ history st' = [newEntry user (js "Once upon a time") 1000 1001].
Proof.
  assert (H1 : editorText (editorRef (typed (js "Once upon a time") initialState))
               = Some (js "Once upon a time")) by reflexivity.
  assert (H2 : trim (js "Once upon a time") ≠ []) by (vm_compute; discriminate).
  assert (H3 : generateText exampleEngine (Resolved rateLimited)
               = inl (ErrorInstance (js "Rate limit reached")))
    by (vm_compute; reflexivity).
  destruct (failed_request_keeps_text exampleEngine (Resolved rateLimited) _
              1000 1001 2000 2001 _ _ H1 H2 H3)
    as (st' & Ha & Hb & Hc & _ & _ & _ & Hd).
  exists st'. split_and!; [exact Ha|exact Hb|exact Hc|].
  rewrite Hd. vm_compute. reflexivity.
Defined.

(** ** [requestGrokCompletion] *)

Lemma firstChoice_content (data : JSValue) :
  optProp "content" (optProp "message" (firstChoice data)) = valueAt replyPath data.
Proof.
  unfold firstChoice.
  transitivity (optProp "content"
                  (optProp "message" (optIndex 0 (optProp "choices" (Some data))))
                ≫= valueAt []).
  { by destruct (optProp "content" _). }
  by rewrite <- valueAt_member, <- valueAt_member, <- valueAt_item, <- valueAt_member.
Qed.

Lemma firstChoice_text (data : JSValue) :
  optProp "text" (firstChoice data) = valueAt textPath data.
Proof.
  unfold firstChoice.
  transitivity (optProp "text" (optIndex 0 (optProp "choices" (Some data)))
                ≫= valueAt []).
  { by destruct (optProp "text" _). }
  by rewrite <- valueAt_member, <- valueAt_item, <- valueAt_member.
Qed.

(** X19. On a success whose body is JSON, [requestGrokCompletion] never
    throws, not even on a body that is [null]: it returns the body as [raw]
    and for [text] the value at [choices[0].message.content], or when that
    is missing or [null] the value at [choices[0].text], or when that is
    missing or [null] too the empty string. Where [generateText] returns a
    reply, [requestGrokCompletion] returns the same one. *)
Theorem requestGrokCompletion_resolves (E : Engine) (resp : Response)
    (data : JSValue) :
  ok resp = true → json resp = inr data →
  ∃ text,
    requestGrokCompletion E (Resolved resp) = inr (data, text)
    ∧ (∀ v, valueAt replyPath data = Some v → v ≠ JNull → text = v)
    ∧ (valueAt replyPath data = None ∨ valueAt replyPath data = Some JNull →
       (∀ v, valueAt textPath data = Some v → v ≠ JNull → text = v)
       ∧ (valueAt textPath data = None ∨ valueAt textPath data = Some JNull →
          text = JString []))
    ∧ (∀ v, generateText E (Resolved resp) = inr v → text = v).
Proof.
  intros Hok Hj. unfold requestGrokCompletion. rewrite Hok, Hj. cbn [negb].
  rewrite firstChoice_content, firstChoice_text.
  eexists. split; [reflexivity|]. split_and!.
  - intros v -> Hv. by destruct v.
  - intros Hc. split.
    + intros v -> Hv. destruct Hc as [-> | ->]; by destruct v.
    + intros Ht. destruct Hc as [-> | ->], Ht as [-> | ->]; reflexivity.
  - intros v. unfold generateText. rewrite Hok, Hj. cbn [negb].
    destruct (plainProp "choices" data) as [e|choices] eqn:Hp; [done|].
    rewrite (messageContent_valueAt data choices Hp).
    destruct (valueAt replyPath data) as [[]|] eqn:Hv; cbn [nullish nullishRef];
      destruct (negb _) eqn:Ht; try done; by intros [= <-].
Qed.

Lemma requestGrokCompletion_resolves_witness :
  ∃ raw, requestGrokCompletion exampleEngine
           (Resolved (legacyResponse (js "the hero arrived.")))
         = inr (raw, JString (js "the hero arrived.")).
Proof.
  destruct (requestGrokCompletion_resolves exampleEngine
              (legacyResponse (js "the hero arrived.")) _ eq_refl eq_refl)
    as (text & H1 & _ & H2 & _).
  eexists. rewrite H1.
  by rewrite (proj1 (H2 (or_introl eq_refl)) (JString (js "the hero arrived."))
                eq_refl ltac:(discriminate)).
Defined.

(** X20. On a response that is not a success [requestGrokCompletion] always
    throws. The error says [Request failed] with the status code when the
    body is not JSON, and when it is JSON other than [null] that holds at
    [error.message] nothing or a value that JavaScript takes for empty; on a
    body that is [null] it is the [TypeError] of reading [error] of [null],
    where [generateText] falls back on the status text. *)
Theorem requestGrokCompletion_rejects (E : Engine) (resp : Response) :
  ok resp = false →
  ∃ err,
    requestGrokCompletion E (Resolved resp) = inl err
    ∧ (∀ e, json resp = inl e → err = ErrorInstance (requestFailedMessage resp))
    ∧ (∀ data, json resp = inr data → data ≠ JNull →
         truthy (valueAt errorPath data) = false →
         err = ErrorInstance (requestFailedMessage resp))
    ∧ (∀ data m, json resp = inr data →
         valueAt errorPath data = Some (JString m) → m ≠ [] →
         stringsAsTheyAre E → err = ErrorInstance m)
    ∧ (json resp = inr JNull →
       err = ErrorInstance (nullPropertyMessage "error")
       ∧ generateText E (Resolved resp)
         = inl (ErrorInstance (httpErrorMessage resp))).
Proof.
  intros Hok. unfold requestGrokCompletion. rewrite Hok. cbn [negb].
  destruct (json resp) as [e|data] eqn:Hj.
  - eexists. split; [reflexivity|]. split_and!; try done.
  - destruct (plainProp "error" data) as [e|err] eqn:Hp.
    + destruct data; simpl in Hp; try discriminate. injection Hp as <-.
      eexists. split; [reflexivity|]. split_and!; try done.
      * by intros data [= <-] Hne.
      * intros data m [= <-]. discriminate.
      * intros _. split; [done|]. unfold generateText. by rewrite Hok, Hj.
    + rewrite (errorMessage_valueAt data err Hp).
      eexists. split; [reflexivity|]. split_and!; try done.
      * intros data' [= <-] Hne Hf. by rewrite Hf.
      * intros data' m [= <-] Hm Hne HE. rewrite Hm. cbn [truthy stringOfRef].
        destruct m; [done|]. cbn [nonEmpty]. by rewrite HE.
      * intros [= ->]. discriminate.
Qed.

Lemma requestGrokCompletion_rejects_witness :
  requestGrokCompletion exampleEngine (Resolved badGateway)
  = inl (ErrorInstance (js "Request failed 502"))
  ∧ requestGrokCompletion exampleEngine (Resolved rateLimited)
    = inl (ErrorInstance (js "Rate limit reached")).
Proof.
  destruct (requestGrokCompletion_rejects exampleEngine badGateway eq_refl)
    as (e1 & H1 & H1' & _).
  destruct (requestGrokCompletion_rejects exampleEngine rateLimited eq_refl)
    as (e2 & H2 & _ & _ & H2' & _).
  rewrite H1, H2, (H1' _ eq_refl).
  rewrite (H2' _ (js "Rate limit reached") eq_refl eq_refl ltac:(discriminate)
             (fun s => eq_refl)).
  split; reflexivity.
Defined.

(** ** The machine and its actor *)

Lemma transition_erasePrompt (s : aiMachine.Snapshot) (ev : aiMachine.Events) :
  aiMachine.transition s (erasePrompt ev) = aiMachine.transition s ev.
Proof. unfold aiMachine.transition. by destruct (aiMachine.value s), ev. Qed.

Lemma actorsOf_transition (s : aiMachine.Snapshot) (ev : aiMachine.Events) :
  aiMachine.children s = actorsOf s →
  aiMachine.children (aiMachine.transition s ev)
  = actorsOf (aiMachine.transition s ev).
Proof.
  unfold actorsOf, aiMachine.transition. destruct s as [v ctx ch].
  cbn [aiMachine.value aiMachine.context aiMachine.children].
  destruct v, ev as [| | | | |[]]; cbn; intros H; try done;
    by rewrite orElse_nil_r.
Qed.

(** X21. The prompt of a GENERATE event never reaches the provider: the
    machine behaves the same with the prompts left out. What the invoked
    actor is given is the text of the last generation that succeeded, the
    empty string before the first; an actor runs exactly while the state is
    [generating]. *)
Theorem prompt_never_sent (evs : list aiMachine.Events) :
  aiMachine.after (erasePrompt <$> evs) = aiMachine.after evs
  ∧ aiMachine.children (aiMachine.after evs) = actorsOf (aiMachine.after evs)
  ∧ (∀ prompt,
       aiMachine.children (aiMachine.after [aiMachine.GENERATE prompt])
       = [ {| aiMachine.text := [] |} ])
  ∧ (∀ prompt output,
       aiMachine.value (aiMachine.after evs) = aiMachine.generating →
       aiMachine.children
         (aiMachine.after (evs ++ [aiMachine.done_callGrok output;
                                   aiMachine.CONTINUE; aiMachine.GENERATE prompt]))
       = [ {| aiMachine.text := aiMachine.generatedText output |} ]).
Proof.
  split_and!.
  - unfold aiMachine.after. generalize aiMachine.initial.
    induction evs as [|ev evs IH]; intros s; [done|].
    cbn [fmap list_fmap foldl]. by rewrite transition_erasePrompt.
  - unfold aiMachine.after.
    induction evs as [|ev evs IH] using rev_ind; [done|].
    rewrite foldl_app. cbn [foldl]. by apply actorsOf_transition.
  - done.
  - intros prompt output Hv. unfold aiMachine.after. rewrite foldl_app.
    fold (aiMachine.after evs).
    cbn [foldl]. unfold aiMachine.transition at 3. rewrite Hv.
    cbn. by rewrite orElse_nil_r.
Qed.

Lemma prompt_never_sent_witness :
  aiMachine.children
    (aiMachine.after
       ([aiMachine.GENERATE (Some (js "A tale of two cities"))]
        ++ [aiMachine.done_callGrok
              {| aiMachine.generatedText := js "the hero arrived." |};
            aiMachine.CONTINUE;
            aiMachine.GENERATE (Some (js "A tale of two cities"))]))
  = [ {| aiMachine.text := js "the hero arrived." |} ].
Proof.
  exact (proj2 (proj2 (proj2 (prompt_never_sent
           [aiMachine.GENERATE (Some (js "A tale of two cities"))])))
           (Some (js "A tale of two cities"))
           {| aiMachine.generatedText := js "the hero arrived." |} eq_refl).
Defined.

Lemma neverGenerated_transition (s : aiMachine.Snapshot) (ev : aiMachine.Events) :
  fromActor aiMachine.callGrok ev →
  neverGenerated s → neverGenerated (aiMachine.transition s ev).
Proof.
  unfold neverGenerated, aiMachine.transition. destruct s as [v ctx ch].
  cbn [aiMachine.value aiMachine.context aiMachine.children].
  intros [Hu | [input ->]] (Hv & Hl & He).
  - destruct v, ev; try discriminate Hu; cbn; done.
  - cbn [settled aiMachine.callGrok]. destruct v; cbn; done.
Qed.

(** X22. With the actor that [setup] registers, which rejects with [Not
    implemented], no generation succeeds: whatever the application sends,
    the machine never reaches [success], never has a generated text, and in
    [failure] its error is [Not implemented]. *)
Theorem default_actor_never_succeeds (evs : list aiMachine.Events) :
  Forall (fromActor aiMachine.callGrok) evs →
  aiMachine.value (aiMachine.after evs) ≠ aiMachine.success
  ∧ aiMachine.lastGenerated (aiMachine.context (aiMachine.after evs)) = None
  ∧ (aiMachine.value (aiMachine.after evs) = aiMachine.failure →
     aiMachine.error (aiMachine.context (aiMachine.after evs))
     = Some (js "Not implemented")).
Proof.
  intros Hevs. change (neverGenerated (aiMachine.after evs)).
  unfold aiMachine.after.
  induction evs as [|ev evs IH] using rev_ind.
  - split_and!; done.
  - apply Forall_app in Hevs as [Hevs Hev]. rewrite foldl_app. cbn [foldl].
    apply neverGenerated_transition; [by inversion Hev|by apply IH].
Qed.

Lemma default_actor_never_succeeds_witness :
  aiMachine.value
    (aiMachine.after [aiMachine.GENERATE None;
                      settled (aiMachine.callGrok {| aiMachine.text := [] |})])
  = aiMachine.failure
  ∧ aiMachine.error (aiMachine.context
      (aiMachine.after [aiMachine.GENERATE None;
                        settled (aiMachine.callGrok {| aiMachine.text := [] |})]))
    = Some (js "Not implemented").
Proof.
  assert (H : Forall (fromActor aiMachine.callGrok)
                [aiMachine.GENERATE None;
                 settled (aiMachine.callGrok {| aiMachine.text := [] |})]).
  { constructor; [by left|]. constructor; [|constructor]. right. by eexists. }
  split; [reflexivity|].
  exact (proj2 (proj2 (default_actor_never_succeeds _ H)) eq_refl).
Defined.

(** X23. A generation that is running cannot be cancelled or restarted:
    while the state is [generating], no sequence of events of the
    application changes the snapshot. The report of the actor leaves the
    state, except when the actor rejected with [null] or [undefined]: the
    action of [onError] then throws reading the message, and the snapshot
    stays in [generating] as it was. *)
Theorem running_generation_not_cancellable (s : aiMachine.Snapshot)
    (evs : list aiMachine.Events) :
  aiMachine.value s = aiMachine.generating →
  Forall (fun ev => isUserEvent ev = true) evs →
  foldl aiMachine.transition s evs = s
  ∧ (∀ r, r ≠ inl NullValue →
       aiMachine.value (aiMachine.transition s (settled r))
       ≠ aiMachine.generating)
  ∧ aiMachine.transition s (settled (inl NullValue)) = s.
Proof.
  intros Hv Hevs. split_and!.
  - induction Hevs as [|ev evs Hev _ IH]; [done|]. cbn [foldl].
    replace (aiMachine.transition s ev) with s; [done|].
    unfold aiMachine.transition. rewrite Hv. by destruct ev.
  - intros r Hr. unfold aiMachine.transition. rewrite Hv.
    by destruct r as [[]|].
  - unfold aiMachine.transition. by rewrite Hv.
Qed.

Lemma running_generation_not_cancellable_witness :
  foldl aiMachine.transition (aiMachine.after [aiMachine.GENERATE None])
    [aiMachine.CANCEL; aiMachine.RETRY; aiMachine.GENERATE None; aiMachine.CONTINUE]
  = aiMachine.after [aiMachine.GENERATE None]
  ∧ aiMachine.value
      (aiMachine.transition (aiMachine.after [aiMachine.GENERATE None])
         (settled (inl OtherValue)))
    ≠ aiMachine.generating.
Proof.
  assert (H : Forall (fun ev => isUserEvent ev = true)
                [aiMachine.CANCEL; aiMachine.RETRY; aiMachine.GENERATE None;
                 aiMachine.CONTINUE]) by (repeat constructor).
  destruct (running_generation_not_cancellable
              (aiMachine.after [aiMachine.GENERATE None]) _ eq_refl H)
    as (H1 & H2 & _).
  split; [exact H1|]. apply H2. discriminate.
Defined.

(** ** The log of the running application *)

Lemma addToHistory_bounded (n : nat) (type : EntryType) (content : jsstring)
    (now1 now2 : Z) (st : AppState) :
  (50 ≤ n)%nat → Forall shortEntry (history st) →
  boundedLog n (setHistory (addToHistory type content now1 now2) st).
Proof.
  intros Hn Hshort. unfold boundedLog, addToHistory, slice0. cbn [history setHistory].
  split.
  - rewrite length_take. lia.
  - apply Forall_take. constructor; [|done].
    unfold shortEntry, newEntry, slice0. cbn [HistoryEntry.content].
    rewrite length_take. lia.
Qed.

Lemma saveStory_history (now1 now2 : Z) (st : AppState) :
  history (saveStory now1 now2 st) = history st.
Proof.
  unfold saveStory. destruct (negb _); [done|].
  by destruct (currentStoryId st) as [[]|].
Qed.

Lemma deleteStory_history (id : jsstring) (st : AppState) :
  history (deleteStory id st) = history st.
Proof. unfold deleteStory. by case_decide. Qed.

Lemma handleContinue_settle_history (E : Engine) (outcome : FetchOutcome)
    (now1 now2 : Z) (st st' : AppState) (timer : bool) :
  handleContinue_settle E outcome now1 now2 st = Some (st', timer) →
  history st' = history st
  ∨ ∃ text, history st' = addToHistory ai text now1 now2 (history st).
Proof.
  unfold handleContinue_settle, handleContinue_finish.
  destruct (generateText E outcome) as [err|[]]; try done; intros [= <- _];
    try (by left).
  right. by eexists.
Qed.

Lemma step_boundedLog (E : Engine) (n : nat) (w : World) (ev : Event) (w' : World) :
  (50 ≤ n)%nat → boundedLog n (app w) → step E w ev = Some w' →
  boundedLog n (app w').
Proof.
  intros Hn [Hlen Hshort]. unfold step.
  destruct ev as [now1 now2|i|i outcome now1 now2| | | |now1 now2|i| |i| |text].
  - destruct (continueDisabled (app w)); [done|].
    unfold handleContinue_start. destruct (negb _); intros [= <-]; cbn [app].
    + done.
    + by apply addToHistory_bounded.
  - destruct (tasks w !! i) as [[]|]; try done. by intros [= <-].
  - destruct (tasks w !! i) as [[]|]; try done.
    destruct (handleContinue_settle E outcome now1 now2 (app w))
      as [[st timer]|] eqn:Hsettle; [|done].
    intros [= <-]. cbn [app].
    destruct (handleContinue_settle_history _ _ _ _ _ _ _ Hsettle)
      as [Hh | [text Hh]]; unfold boundedLog; rewrite Hh; [done|].
    by apply (addToHistory_bounded n ai text now1 now2 (app w)).
  - destruct (idleTimers w); [done|]. by intros [= <-].
  - unfold handleClear. destruct (showClearConfirm (app w)); by intros [= <-].
  - destruct (confirmTimers w); [done|]. by intros [= <-].
  - intros [= <-]. unfold boundedLog. cbn [app withApp].
    by rewrite saveStory_history.
  - destruct (stories (app w) !! i) as [story|] eqn:Hi; [|done].
    by intros [= <-].
  - by intros [= <-].
  - destruct (stories (app w) !! i) as [story|]; [|done].
    intros [= <-]. unfold boundedLog. cbn [app withApp].
    by rewrite deleteStory_history.
  - intros [= <-]. split; [simpl; lia|constructor].
  - by intros [= <-].
Qed.

(** X24. Whatever happens in the application, the log keeps to its bounds:
    it never has more than 50 entries, and no entry more than 200 code
    units, when it started so; a longer log read from the store never
    grows, and is cut to 50 by the first entry added. *)
Theorem log_stays_bounded (E : Engine) (st : AppState) (evs : list Event)
    (w : World) :
  Forall shortEntry (history st) → run E (started st) evs = Some w →
  boundedLog (Nat.max 50 (length (history st))) (app w)
  ∧ ∀ type content now1 now2,
      (length (addToHistory type content now1 now2 (history (app w))) ≤ 50)%nat.
Proof.
  intros Hshort Hrun. split.
  - assert (50 ≤ Nat.max 50 (length (history st)))%nat as Hn by lia.
    apply (run_invariant E
             (fun w => boundedLog (Nat.max 50 (length (history st))) (app w))
             (fun w ev w' => step_boundedLog E _ w ev w' Hn)
             evs (started st) w); [|done].
    split; [simpl; lia|done].
  - intros type content now1 now2. unfold addToHistory, slice0.
    rewrite length_take. lia.
Qed.

Lemma log_stays_bounded_witness :
  ∃ w, run exampleEngine writing generateTwice = Some w
    ∧ boundedLog 50 (app w)
    ∧ length (history (app w)) = 2%nat.
Proof.
  assert (H0 : Forall shortEntry (history (typed (js "Once upon a time") initialState)))
    by constructor.
  assert (Hrun : ∃ w, run exampleEngine writing generateTwice = Some w
                      ∧ length (history (app w)) = 2%nat).
  { eexists. split; vm_compute; reflexivity. }
  destruct Hrun as (w & Hrun & Hlen).
  exists w. split; [exact Hrun|]. split; [|exact Hlen].
  exact (proj1 (log_stays_bounded exampleEngine _ generateTwice w H0 Hrun)).
Defined.

(** ** The text that is sent *)

Lemma run_app (E : Engine) (w : World) (evs1 evs2 : list Event) :
  run E w (evs1 ++ evs2) = run E w evs1 ≫= fun w' => run E w' evs2.
Proof.
  revert w. induction evs1 as [|ev evs1 IH]; intros w; [done|].
  cbn [app run]. change ((ev :: evs1) ++ evs2) with (ev :: (evs1 ++ evs2)).
  cbn [run]. destruct (step E w ev) as [w1|]; [|done]. cbn [mbind option_bind].
  apply IH.
Qed.

Lemma run_typing (E : Engine) (w : World) (texts : list jsstring) :
  ∃ w', run E w (Typing <$> texts) = Some w'
    ∧ tasks w' = tasks w
    ∧ idleTimers w' = idleTimers w
    ∧ status (app w') = status (app w)
    ∧ history (app w') = history (app w)
    ∧ (editorMounted (app w) →
       editorText (editorRef (app w'))
       = Some (default (default [] (editorText (editorRef (app w)))) (last texts))).
Proof.
  revert w. induction texts as [|text texts IH]; intros w.
  - exists w. split_and!; try done. intros [v Hv]. rewrite Hv. done.
  - cbn [fmap list_fmap run step mbind option_bind].
    destruct (IH (withApp (typed text) w)) as (w' & Hrun & Ht & Hi & Hs & Hh & He).
    exists w'. split_and!; try done.
    intros [v Hv].
    rewrite He by (exists text; simpl; by rewrite Hv).
    cbn [app withApp typed withEditor editorRef]. rewrite Hv.
    cbn. rewrite orElse_nil_r, last_cons. by destruct (last texts).
Qed.

(** X25. The request carries the text that the editor held at the click on
    Continue, all of it: what is typed during the 500 ms pause is not sent.
    The request has two messages, the instruction to the assistant and the
    story after [Continue this story:] and an empty line. *)
Theorem request_uses_text_at_click (E : Engine) (w : World) (text : jsstring)
    (texts : list jsstring) (now1 now2 : Z) :
  status (app w) ≠ Status.generating → tasks w = [] →
  editorText (editorRef (app w)) = Some text → trim text ≠ [] →
  ∃ w', run E w (ClickContinue now1 now2 :: (Typing <$> texts) ++ [PauseElapsed 0])
        = Some w'
    ∧ inFlight w' = [messagesFor text]
    ∧ messagesFor text
      = [ {| role := system; msgContent := systemPrompt |};
          {| role := userRole;
             msgContent := js "Continue this story:" ++ [LF; LF] ++ text |} ]
    ∧ head (history (app w')) = Some (newEntry user text now1 now2)
    ∧ status (app w') = Status.generating.
Proof.
  intros Hs Htasks Htext Hne.
  destruct (handleContinue_start_text now1 now2 (app w) text Htext Hne)
    as (st1 & Hstart & Hst1 & _ & _ & _ & _ & Hh).
  cbn [run]. unfold step at 1.
  assert (continueDisabled (app w) = false) as ->.
  { unfold continueDisabled. by destruct (status (app w)). }
  rewrite Hstart, Htasks. cbn [mbind option_bind app].
  rewrite run_app.
  match goal with |- context [run E ?w0 (Typing <$> texts)] =>
    destruct (run_typing E w0 texts) as (w1 & Hrun & Ht & _ & Hs1 & Hh1 & _)
  end.
  rewrite Hrun. cbn [mbind option_bind run step]. rewrite Ht. cbn [tasks app lookup].
  cbn. eexists. split; [reflexivity|]. cbn [app].
  unfold inFlight. cbn [tasks omap list_omap]. split; [done|]. split; [done|].
  cbn [history setGeneratingText status]. rewrite Hh1, Hs1. cbn [app].
  rewrite Hh, Hst1. split; [|done].
  unfold addToHistory, slice0. done.
Qed.

Lemma request_uses_text_at_click_witness :
  ∃ w', run exampleEngine writing
          (ClickContinue 1000 1001 :: (Typing <$> typeWhilePausing) ++ [PauseElapsed 0])
        = Some w'
    ∧ inFlight w' = [messagesFor (js "Once upon a time")].
Proof.
  assert (H1 : status (app writing) ≠ Status.generating) by discriminate.
  assert (H2 : trim (js "Once upon a time") ≠ []) by (vm_compute; discriminate).
  destruct (request_uses_text_at_click exampleEngine writing (js "Once upon a time")
              typeWhilePausing 1000 1001 H1 eq_refl eq_refl H2)
    as (w' & Hrun & Hin & _).
  exists w'. split; [exact Hrun|exact Hin].
Defined.

(** ** The editor handle *)

(** X26. The handle of the editor. [getText] returns what [setText]
    stored as the textarea reads it back: with CR LF and CR turned into LF,
    so a text without CR as it is; what [getText] returns never holds a CR,
    and [setText] stores it unchanged. After [clear] the text is empty and
    an insertion gives the inserted text alone. An insertion keeps the text
    that was there, in front, and ends with the inserted text, adding at
    most one code unit between them. While no textarea is mounted, the
    three updates do nothing and the text reads as empty. *)
Theorem editor_handle_contract (text v : jsstring) :
  ProseMirrorEditor.getText (ProseMirrorEditor.setText text (Some v))
  = normalizeNewlines text
  ∧ ((CR ∉ text) →
     ProseMirrorEditor.getText (ProseMirrorEditor.setText text (Some v)) = text)
  ∧ (CR ∉ ProseMirrorEditor.getText (ProseMirrorEditor.setText text (Some v)))
  ∧ ProseMirrorEditor.setText
      (ProseMirrorEditor.getText (ProseMirrorEditor.setText text (Some v)))
      (Some v)
    = ProseMirrorEditor.setText text (Some v)
  ∧ ProseMirrorEditor.getText (ProseMirrorEditor.clear (Some v)) = []
  ∧ ProseMirrorEditor.getText
      (ProseMirrorEditor.insertTextAtEnd text (ProseMirrorEditor.clear (Some v)))
    = normalizeNewlines text
  ∧ ((CR ∉ v) →
     v `prefix_of`
       ProseMirrorEditor.getText (ProseMirrorEditor.insertTextAtEnd text (Some v))
     ∧ normalizeNewlines text `suffix_of`
         ProseMirrorEditor.getText
           (ProseMirrorEditor.insertTextAtEnd text (Some v)))
  ∧ (CR ∉ ProseMirrorEditor.getText
            (ProseMirrorEditor.insertTextAtEnd text (Some v)))
  ∧ (length (ProseMirrorEditor.getText
               (ProseMirrorEditor.insertTextAtEnd text (Some v)))
     ≤ length v + 1 + length text)%nat
  ∧ ProseMirrorEditor.setText text None = None
  ∧ ProseMirrorEditor.insertTextAtEnd text None = None
  ∧ ProseMirrorEditor.clear None = None
  ∧ ProseMirrorEditor.getText None = [].
Proof.
  unfold ProseMirrorEditor.getText, ProseMirrorEditor.setText,
    ProseMirrorEditor.clear, ProseMirrorEditor.insertTextAtEnd.
  rewrite !orElse_nil_r. split_and!; try done.
  - apply normalizeNewlines_id.
  - apply normalizeNewlines_no_CR.
  - by rewrite normalizeNewlines_idem.
  - intros Hv. rewrite normalizeNewlines_app by done. split; [by eexists|].
    destruct (ProseMirrorEditor.separator v) as [|c sep] eqn:Hsep.
    + by exists v.
    + assert (c = LF ∧ sep = []) as [-> ->].
      { unfold ProseMirrorEditor.separator in Hsep.
        destruct (_ && _); by inversion Hsep. }
      exists (v ++ [LF]). rewrite <- app_assoc.
      change ([LF] ++ text) with (LF :: text).
      by rewrite normalizeNewlines_unfold.
  - apply normalizeNewlines_no_CR.
  - etrans; [apply normalizeNewlines_length|].
    rewrite !length_app. unfold ProseMirrorEditor.separator.
    destruct (_ && _); simpl; lia.
Qed.

Lemma editor_handle_contract_witness :
  ProseMirrorEditor.getText
    (ProseMirrorEditor.setText chapterOne (Some (js "Once upon a time")))
  = chapterOne
  ∧ js "Once upon a time" `prefix_of`
      ProseMirrorEditor.getText
        (ProseMirrorEditor.insertTextAtEnd crReply (Some (js "Once upon a time"))).
Proof.
  assert (H1 : CR ∉ chapterOne)
    by (apply (bool_decide_unpack _); vm_compute; exact I).
  assert (H2 : CR ∉ js "Once upon a time")
    by (apply (bool_decide_unpack _); vm_compute; exact I).
  destruct (editor_handle_contract chapterOne (js "Once upon a time"))
    as (_ & Ha & _).
  destruct (editor_handle_contract crReply (js "Once upon a time"))
    as (_ & _ & _ & _ & _ & _ & Hb & _).
  split; [exact (Ha H1)|exact (proj1 (Hb H2))].
Defined.

(** ** The relay *)

(** X27. The relay is transparent to [generateText]. For a reply of the
    provider whose body is JSON, it answers with that body under a status
    that is a success exactly when the provider's was, and that is the
    provider's status when it was not. So [generateText] returns or throws
    through the relay what it would on the provider's response itself,
    with one exception: for a failure whose body is [null] the message is
    the status text of the relay's response (or its status code), whatever
    the status text of the provider's was. *)
Theorem relay_is_transparent (E : Engine) (r : Response) (data : JSValue)
    (shown : jsstring) :
  ok r = okStatus (httpStatus r) → json r = inr data →
  ∃ reply,
    Server.respond (Resolved r) = Some reply
    ∧ Server.body reply = data
    ∧ okStatus (Server.code reply) = ok r
    ∧ (ok r = false → Server.code reply = httpStatus r)
    ∧ (ok r = true ∨ data ≠ JNull ∨ shown = statusText r →
       generateText E (Resolved (received shown reply))
       = generateText E (Resolved r))
    ∧ (ok r = false → data = JNull →
       generateText E (Resolved (received shown reply))
       = inl (ErrorInstance
                (orElse shown
                   (js "HTTP error! status: " ++ Number_toString (httpStatus r))))
       ∧ generateText E (Resolved r)
         = inl (ErrorInstance (httpErrorMessage r))).
Proof.
  intros Hok Hj. unfold Server.respond. rewrite Hj.
  destruct (ok r) eqn:Hr; cbn [negb]; eexists; (split; [reflexivity|]);
    cbn [Server.code Server.body]; split_and!; try done.
  - intros _. unfold generateText, received.
    cbn [ok json Server.code Server.body negb]. rewrite Hr, Hj.
    change (okStatus 200) with true. done.
  - intros Hcase. unfold generateText, received.
    cbn [ok json httpStatus statusText Server.code Server.body].
    rewrite <- Hok, Hr, Hj. cbn [negb].
    destruct Hcase as [? | [Hnull | ->]]; [done| |done].
    by destruct data.
  - intros _ ->. unfold generateText, received, httpErrorMessage.
    cbn [ok json httpStatus statusText Server.code Server.body].
    by rewrite <- Hok, Hr, Hj.
Qed.

Lemma relay_is_transparent_witness :
  ∃ reply,
    Server.respond (Resolved rateLimited) = Some reply
    ∧ Server.code reply = 429
    ∧ generateText exampleEngine (Resolved (received [] reply))
      = inl (ErrorInstance (js "Rate limit reached")).
Proof.
  destruct (relay_is_transparent exampleEngine rateLimited _ [] eq_refl eq_refl)
    as (reply & H1 & _ & _ & H2 & H3 & _).
  exists reply. split; [exact H1|]. split; [exact (H2 eq_refl)|].
  rewrite H3; [vm_compute; reflexivity|]. right. left. discriminate.
Defined.

(** X28. When the relay cannot reach the provider, or cannot read its reply
    as JSON, it answers 500 with the error [proxy error] and the message of
    what went wrong as details. In the application [generateText] then
    throws [proxy error], which is the message that [handleContinue] shows:
    the details do not reach the user. *)
Theorem relay_failure_shows_proxy_error (E : Engine) (outcome : FetchOutcome)
    (message shown : jsstring) (now1 now2 : Z) (st : AppState) :
  outcome = Rejected (ErrorInstance message)
  ∨ (∃ r, outcome = Resolved r ∧ json r = inl (ErrorInstance message)) →
  stringsAsTheyAre E →
  ∃ reply,
    Server.respond outcome = Some reply
    ∧ Server.code reply = 500
    ∧ getProp "details" (Server.body reply) = Some (JString message)
    ∧ generateText E (Resolved (received shown reply))
      = inl (ErrorInstance (js "proxy error"))
    ∧ ∃ st', handleContinue_settle E (Resolved (received shown reply))
               now1 now2 st = Some (st', false)
        ∧ status st' = Status.error
        ∧ error st' = js "proxy error"
        ∧ editorRef st' = editorRef st.
Proof.
  intros Hout HE.
  assert (Server.respond outcome = Server.proxyError (ErrorInstance message)) as Hr.
  { destruct Hout as [-> | (r & -> & Hj)]; [done|].
    unfold Server.respond. by rewrite Hj. }
  rewrite Hr. cbn [Server.proxyError]. eexists. split; [reflexivity|].
  cbn [Server.code Server.body]. split; [done|]. split; [reflexivity|].
  assert (generateText E
            (Resolved (received shown
               {| Server.code := 500;
                  Server.body := JObject [(js "error", JString (js "proxy error"));
                                          (js "details", JString message)] |}))
          = inl (ErrorInstance (js "proxy error"))) as Hg.
  { unfold generateText, received. cbn [ok json Server.code Server.body].
    change (okStatus 500) with false. cbn [negb plainProp].
    change (getProp "error" _) with (Some (JString (js "proxy error"))).
    cbn [optProp getProp truthy]. change (nonEmpty (js "proxy error")) with true.
    cbn [stringOfRef]. by rewrite HE. }
  split; [exact Hg|].
  unfold handleContinue_settle, handleContinue_finish. rewrite Hg.
  eexists. split; [reflexivity|]. done.
Qed.

Lemma relay_failure_shows_proxy_error_witness :
  ∃ reply,
    Server.respond (Rejected (ErrorInstance (js "fetch failed"))) = Some reply
    ∧ generateText exampleEngine (Resolved (received (js "Internal Server Error") reply))
      = inl (ErrorInstance (js "proxy error")).
Proof.
  destruct (relay_failure_shows_proxy_error exampleEngine
              (Rejected (ErrorInstance (js "fetch failed"))) (js "fetch failed")
              (js "Internal Server Error") 0 0 initialState
              (or_introl eq_refl) (fun s => eq_refl))
    as (reply & H1 & _ & _ & H2 & _).
  exists reply. split; [exact H1|exact H2].
Defined.

(** X29. The relay takes nothing but the messages from the request it
    receives: the request to the provider names the model
    [llama-3.3-70b-versatile], 512 tokens at most and the temperature 0.7,
    whatever model the caller asked for, so that [requestGrokCompletion],
    which asks for a model, is served as [generateText] is. *)
Theorem relay_fixes_the_model (messages : JSValue) (model : option jsstring) :
  Server.completionRequest (postedBody messages model)
  = Server.completionRequest (postedBody messages None)
  ∧ getProp "model" (Server.completionRequest (postedBody messages model))
    = Some (JString (js "llama-3.3-70b-versatile"))
  ∧ getProp "messages" (Server.completionRequest (postedBody messages model))
    = Some messages
  ∧ getProp "max_tokens" (Server.completionRequest (postedBody messages model))
    = Some (JNumber 512 0)
  ∧ getProp "temperature" (Server.completionRequest (postedBody messages model))
    = Some (JNumber 7 (-1)).
Proof.
  assert (getProp "messages" (postedBody messages model) = Some messages) as Hm.
  { destruct model; reflexivity. }
  unfold Server.completionRequest. rewrite Hm.
  split_and!; [by destruct model|reflexivity..].
Qed.

(** ** Distinct ids *)

Lemma step_stories (E : Engine) (w : World) (ev : Event) (w' : World) :
  step E w ev = Some w' →
  stories (app w') = stories (app w)
  ∨ (∃ now1 now2, ev = ClickSave now1 now2
                  ∧ app w' = saveStory now1 now2 (app w))
  ∨ (∃ id, stories (app w')
           = filter (fun s => Story.id s ≠ id) (stories (app w))).
Proof.
  unfold step.
  destruct ev as [now1 now2|i|i outcome now1 now2| | | |now1 now2|i| |i| |text].
  - destruct (continueDisabled (app w)); [done|].
    pose proof (handleContinue_start_stories now1 now2 (app w)) as [H1 _].
    destruct (handleContinue_start now1 now2 (app w)) as [st suspended].
    intros [= <-]. by left.
  - destruct (tasks w !! i) as [[]|]; try done. intros [= <-]. by left.
  - destruct (tasks w !! i) as [[]|]; try done.
    destruct (handleContinue_settle E outcome now1 now2 (app w))
      as [[st timer]|] eqn:Hsettle; [|done].
    apply handleContinue_settle_stories in Hsettle as [H1 _].
    intros [= <-]. by left.
  - destruct (idleTimers w); [done|]. intros [= <-]. by left.
  - unfold handleClear. destruct (showClearConfirm (app w)); intros [= <-]; by left.
  - destruct (confirmTimers w); [done|]. intros [= <-]. by left.
  - intros [= <-]. right. left. by eexists _, _.
  - destruct (stories (app w) !! i) as [story|] eqn:Hi; [|done].
    intros [= <-]. by left.
  - intros [= <-]. by left.
  - destruct (stories (app w) !! i) as [story|]; [|done].
    intros [= <-]. right. right. eexists. cbn [app withApp].
    apply deleteStory_stories.
  - intros [= <-]. by left.
  - intros [= <-]. by left.
Qed.

Lemma mintedAt_mono (used used' : list Z) (st : AppState) :
  used ⊆ used' → mintedAt used st → mintedAt used' st.
Proof.
  intros Hsub [Hnd Hids]. split; [done|].
  intros s Hs. destruct (Hids s Hs) as (t & Ht & Hid). exists t. split; [|done].
  by apply Hsub.
Qed.

Lemma mintedAt_stories (used : list Z) (st st' : AppState) :
  stories st' = stories st → mintedAt used st → mintedAt used st'.
Proof. unfold mintedAt. by intros ->. Qed.

Lemma mintedAt_filter (used : list Z) (st st' : AppState) (P : Story.t → Prop)
    `{!∀ s, Decision (P s)} :
  stories st' = filter P (stories st) → mintedAt used st → mintedAt used st'.
Proof.
  unfold mintedAt. intros -> [Hnd Hids]. split.
  - eapply sublist_NoDup; [exact Hnd|]. apply fmap_sublist, sublist_filter.
  - intros s Hs. apply list_elem_of_filter in Hs as [_ Hs]. by apply Hids.
Qed.

Lemma resave_ids (cid content title : jsstring) (l : list Story.t) :
  Story.id <$> ((fun s => if decide (Story.id s = cid)
                          then resave content title s else s) <$> l)
  = Story.id <$> l.
Proof.
  rewrite <- list_fmap_compose. apply list_fmap_ext. intros i s _. simpl.
  by case_decide.
Qed.

Lemma mintedAt_saveStory (used : list Z) (now1 now2 : Z) (st : AppState) :
  now1 ∉ used → mintedAt used st →
  mintedAt (used ++ [now1]) (saveStory now1 now2 st).
Proof.
  intros Hfresh Hm.
  assert (used ⊆ used ++ [now1]) as Hsub by (intros t Ht; apply elem_of_app; by left).
  destruct (decide (trim (editorContent st) = [])) as [Hb|Hb].
  { rewrite saveStory_blank by done. by eapply mintedAt_mono. }
  destruct (currentStoryId st) as [cid|] eqn:Hcur.
  - destruct (decide (cid = [])) as [->|Hne].
    + rewrite saveStory_create by auto.
      destruct Hm as [Hnd Hids]. split.
      * cbn [stories setStories setCurrentStoryId fmap list_fmap].
        constructor; [|done]. intros Hin.
        apply list_elem_of_fmap in Hin as (s & Hid & Hs).
        destruct (Hids s Hs) as (t & Ht & Hid').
        unfold storyFromEditor in Hid. cbn [Story.id] in Hid.
        rewrite Hid' in Hid. apply Number_toString_inj in Hid. by subst t.
      * cbn [stories setStories setCurrentStoryId]. intros s Hs.
        apply elem_of_cons in Hs as [->|Hs].
        -- exists now1. split; [|done]. apply elem_of_app. right. left.
        -- destruct (Hids s Hs) as (t & Ht & Hid). exists t. split; [|done].
           by apply Hsub.
    + rewrite (saveStory_update _ _ _ cid) by done.
      apply (mintedAt_mono used); [done|].
      destruct Hm as [Hnd Hids]. split.
      * cbn [stories setStories]. by rewrite resave_ids.
      * cbn [stories setStories]. intros s Hs.
        apply list_elem_of_fmap in Hs as (s0 & -> & Hs0).
        destruct (Hids s0 Hs0) as (t & Ht & Hid). exists t. split; [done|].
        by case_decide.
  - rewrite saveStory_create by auto.
    destruct Hm as [Hnd Hids]. split.
    + cbn [stories setStories setCurrentStoryId fmap list_fmap].
      constructor; [|done]. intros Hin.
      apply list_elem_of_fmap in Hin as (s & Hid & Hs).
      destruct (Hids s Hs) as (t & Ht & Hid').
      unfold storyFromEditor in Hid. cbn [Story.id] in Hid.
      rewrite Hid' in Hid. apply Number_toString_inj in Hid. by subst t.
    + cbn [stories setStories setCurrentStoryId]. intros s Hs.
      apply elem_of_cons in Hs as [->|Hs].
      * exists now1. split; [|done]. apply elem_of_app. right. left.
      * destruct (Hids s Hs) as (t & Ht & Hid). exists t. split; [|done].
        by apply Hsub.
Qed.

Lemma run_mintedAt (E : Engine) (evs : list Event) (used : list Z) (w w' : World) :
  mintedAt used (app w) → NoDup (used ++ saveClocks evs) →
  run E w evs = Some w' → mintedAt (used ++ saveClocks evs) (app w').
Proof.
  revert used w. induction evs as [|ev evs IH]; intros used w Hm Hnd Hrun.
  - cbn in *. injection Hrun as <-. by rewrite app_nil_r.
  - cbn [run] in Hrun. destruct (step E w ev) as [w1|] eqn:Hstep; [|done].
    cbn [mbind option_bind] in Hrun.
    destruct (step_stories E w ev w1 Hstep)
      as [Hsame | [(now1 & now2 & -> & Happ) | [id Hdel]]].
    + assert (saveClocks (ev :: evs) = saveClocks evs
              ∨ ∃ now1, saveClocks (ev :: evs) = now1 :: saveClocks evs) as Hc.
      { unfold saveClocks. destruct ev; cbn [omap list_omap]; eauto. }
      destruct Hc as [Hc | [now1 Hc]]; rewrite Hc in *.
      * apply (IH used w1); [by eapply mintedAt_stories|done|done].
      *
        replace (used ++ now1 :: saveClocks evs)
          with ((used ++ [now1]) ++ saveClocks evs) in * by by rewrite <- app_assoc.
        apply (IH (used ++ [now1]) w1); [|done|done].
        apply (mintedAt_mono used); [intros t Ht; apply elem_of_app; by left|].
        by eapply mintedAt_stories.
    + change (saveClocks (ClickSave now1 now2 :: evs)) with (now1 :: saveClocks evs)
        in *.
      replace (used ++ now1 :: saveClocks evs)
        with ((used ++ [now1]) ++ saveClocks evs) in * by by rewrite <- app_assoc.
      apply (IH (used ++ [now1]) w1); [|done|done].
      rewrite Happ. apply mintedAt_saveStory; [|done].
      apply NoDup_app in Hnd as [Hnd _]. apply NoDup_app in Hnd as (_ & Hnd & _).
      intros Hin. apply (Hnd now1 Hin). left.
    + assert (saveClocks (ev :: evs) = saveClocks evs
              ∨ ∃ now1, saveClocks (ev :: evs) = now1 :: saveClocks evs) as Hc.
      { unfold saveClocks. destruct ev; cbn [omap list_omap]; eauto. }
      destruct Hc as [Hc | [now1 Hc]]; rewrite Hc in *.
      * apply (IH used w1); [by eapply mintedAt_filter|done|done].
      *
        replace (used ++ now1 :: saveClocks evs)
          with ((used ++ [now1]) ++ saveClocks evs) in * by by rewrite <- app_assoc.
        apply (IH (used ++ [now1]) w1); [|done|done].
        apply (mintedAt_mono used); [intros t Ht; apply elem_of_app; by left|].
        by eapply mintedAt_filter.
Qed.

Lemma filter_all {A} (P : A → Prop) `{!∀ x, Decision (P x)} (l : list A) :
  (∀ x, x ∈ l → P x) → filter P l = l.
Proof.
  induction l as [|x l IH]; intros Hl; [done|].
  rewrite filter_cons, decide_True by (apply Hl; left).
  f_equal. apply IH. intros y Hy. apply Hl. by right.
Qed.

Lemma deleteStory_unique (l1 l2 : list Story.t) (s : Story.t) :
  NoDup (Story.id <$> l1 ++ s :: l2) →
  filter (fun x => Story.id x ≠ Story.id s) (l1 ++ s :: l2) = l1 ++ l2.
Proof.
  rewrite fmap_app, fmap_cons. intros Hids.
  apply NoDup_app in Hids as (_ & Hsep & Hl2).
  apply NoDup_cons in Hl2 as [Hs _].
  rewrite filter_app, filter_cons, decide_False by (intros Hne; by apply Hne).
  f_equal; apply filter_all.
  - intros x Hx Heq. apply (Hsep (Story.id x)).
    + apply list_elem_of_fmap. by exists x.
    + rewrite Heq. left.
  - intros x Hx Heq. apply Hs. rewrite <- Heq. apply list_elem_of_fmap. by exists x.
Qed.

(** X30. As long as the clock shows another value at each click on Save,
    the stories of a collection that started empty have distinct ids, each
    the decimal of the clock at its first save: the story that a click
    opens, saves or deletes is one story. *)
Theorem story_ids_distinct (E : Engine) (st : AppState) (evs : list Event)
    (w : World) :
  stories st = [] → NoDup (saveClocks evs) → run E (started st) evs = Some w →
  NoDup (Story.id <$> stories (app w))
  ∧ (∀ s, s ∈ stories (app w) →
       ∃ t, t ∈ saveClocks evs ∧ Story.id s = Number_toString t)
  ∧ (∀ l1 s l2, stories (app w) = l1 ++ s :: l2 →
       stories (deleteStory (Story.id s) (app w)) = l1 ++ l2).
Proof.
  intros Hempty Hnd Hrun.
  destruct (run_mintedAt E evs [] (started st) w) as [Hids Hmint]; [|done|done|].
  { split; cbn [app started]; rewrite Hempty; [constructor|].
    intros s Hs. by apply elem_of_nil in Hs. }
  cbn [app] in *. split; [done|]. split; [done|].
  intros l1 s l2 Hst. rewrite deleteStory_stories, Hst.
  apply deleteStory_unique. by rewrite <- Hst.
Qed.

Lemma story_ids_distinct_witness :
  ∃ w, run exampleEngine (started initialState) twoStories = Some w
    ∧ NoDup (Story.id <$> stories (app w))
    ∧ Story.id <$> stories (app w) = [js "2000"].
Proof.
  assert (H1 : NoDup (saveClocks twoStories)).
  { change (saveClocks twoStories) with [1000; 2000].
    constructor; [|constructor; [|constructor]].
    - intros H. apply list_elem_of_singleton in H. discriminate.
    - intros H. by apply elem_of_nil in H. }
  assert (Hrun : ∃ w, run exampleEngine (started initialState) twoStories = Some w
                      ∧ Story.id <$> stories (app w) = [js "2000"]).
  { eexists. split; vm_compute; reflexivity. }
  destruct Hrun as (w & Hrun & Hids).
  exists w. split; [exact Hrun|]. split; [|exact Hids].
  exact (proj1 (story_ids_distinct exampleEngine initialState twoStories w
                  eq_refl H1 Hrun)).
Defined.
